(** * Maze 3D: the maze generator, ray caster, collision model and game loop
    of [game.py], the records of [statistics.py] and the menu of [main.py],
    embedded in Rocq and checked against their specification.

    Part I is the embedding.  Python integers are [Z]; Python floats are an
    abstract arithmetic [PyFloat] with two instances, IEEE-754 binary64
    (the numbers CPython computes with, executable) and the exact reals
    (the arithmetic the specification reasons in); exceptions and unbounded
    loops live in the [result] monad.  Part II holds the theorems. *)

From Stdlib Require Import String ZArith Lia Bool Floats Reals Lra.
From stdpp Require Import base tactics option list list_numbers.

Local Open Scope Z_scope.
#[local] Set Warnings "-clear-no-such-hyp".

(* ===================================================================== *)
(** * Part I.  The embedding                                              *)
(* ===================================================================== *)

(** ** Python outcomes: a value, a raised exception, or a loop still running *)

Inductive exn : Set :=
| IndexError      (* subscript out of range *)
| ValueError      (* int(nan), math.sqrt(-1), math.cos(inf), randint on an empty range *)
| OverflowError   (* int(inf), x ** 2 out of range *)
| ExternalError.  (* raised by pygame: display, font, event queue *)

Inductive result (A : Type) : Type :=
| Ok (a : A)
| Raise (e : exn)
| Timeout.        (* the iteration budget ran out before the loop ended *)
Arguments Ok {A} a.
Arguments Raise {A} e.
Arguments Timeout {A}.

#[export] Instance result_ret : MRet result := @Ok.
#[export] Instance result_bind : MBind result := fun A B f r =>
  match r with
  | Ok a => f a
  | Raise e => Raise e
  | Timeout => Timeout
  end.


(** ** Python lists *)

(** [l[i]] accepts [-len <= i < len]; a negative subscript counts from the end. *)
Definition py_index (len : nat) (i : Z) : result nat :=
  if bool_decide (0 <= i < Z.of_nat len) then Ok (Z.to_nat i)
  else if bool_decide (- Z.of_nat len <= i < 0) then Ok (Z.to_nat (i + Z.of_nat len))
  else Raise IndexError.

Definition getitem {A} (l : list A) (i : Z) : result A :=
  n ← py_index (length l) i;
  match l !! n with
  | Some a => Ok a
  | None => Raise IndexError
  end.

Definition setitem {A} (l : list A) (i : Z) (v : A) : result (list A) :=
  n ← py_index (length l) i;
  Ok (<[n := v]> l).

(** [l.pop(i)]: the element and the list without it. *)
Definition pop {A} (l : list A) (i : Z) : result (A * list A) :=
  n ← py_index (length l) i;
  match l !! n with
  | Some a => Ok (a, delete n l)
  | None => Raise IndexError
  end.

(** [range(n)] *)
Definition range (n : Z) : list Z := seqZ 0 n.

(** [for x in xs: body] over a state [S], stopping at the first exception. *)
Fixpoint for_each {X S} (xs : list X) (body : X -> S -> result S) (s : S) : result S :=
  match xs with
  | [] => Ok s
  | x :: xs' => s' ← body x s; for_each xs' body s'
  end.

(** ** The occupancy grid: [maze[y][x]], 1 = WALL, 0 = OPEN *)

Abbreviation grid := (list (list Z)).
Definition WALL : Z := 1.
Definition OPEN : Z := 0.

Definition getitem2 (maze : grid) (y x : Z) : result Z :=
  row ← getitem maze y; getitem row x.

(** [maze[y][x] = v]: the row object is fetched, then updated in place. *)
Definition setitem2 (maze : grid) (y x : Z) (v : Z) : result grid :=
  row ← getitem maze y;
  row' ← setitem row x v;
  setitem maze y row'.

(** [[[v for _ in range(size)] for _ in range(size)]] *)
Definition filled (size : Z) (v : Z) : grid :=
  replicate (Z.to_nat size) (replicate (Z.to_nat size) v).

(** ** [random.randint]

    The generator is an arbitrary stream of draws; the [k]-th call reduces
    the [k]-th draw into the requested range, so every sequence of values
    that [randint] can return is produced by some stream. *)
Definition randint (rand : nat -> nat) (k : nat) (a b : Z) : result Z :=
  if bool_decide (a <= b) then Ok (a + Z.of_nat (rand k) mod (b - a + 1))
  else Raise ValueError.

(** ** [generate_maze] *)

(** A frontier entry [(nx, ny, px, py)]: a candidate cell and the cell that proposed it. *)
Definition frontier : Type := Z * Z * Z * Z.

Definition DIRS : list (Z * Z) := [(0, 2); (2, 0); (0, -2); (-2, 0)].

Definition in_range (size v : Z) : bool := bool_decide (0 <= v < size).

(** Lines 75-78: the neighbours of the start cell, in bounds, unconditionally. *)
Definition seed_frontier (size start_x start_y : Z) (fr : list frontier) (d : Z * Z)
    : list frontier :=
  let '(dx, dy) := d in
  let nx := start_x + dx in
  let ny := start_y + dy in
  if in_range size nx && in_range size ny
  then fr ++ [(nx, ny, start_x, start_y)] else fr.

Definition seed_frontiers (size start_x start_y : Z) : list frontier :=
  foldl (seed_frontier size start_x start_y) [] DIRS.

(** Lines 90-94: the neighbours of a carved cell that are in bounds and still WALL. *)
Definition push_neighbour (size : Z) (maze : grid) (fx fy : Z) (d : Z * Z)
    (fr : list frontier) : result (list frontier) :=
  let '(dx, dy) := d in
  let nx := fx + dx in
  let ny := fy + dy in
  if in_range size nx && in_range size ny then
    c ← getitem2 maze ny nx;
    if bool_decide (c = 1) then Ok (fr ++ [(nx, ny, fx, fy)]) else Ok fr
  else Ok fr.

Definition push_neighbours (size : Z) (maze : grid) (fx fy : Z)
    (frontiers : list frontier) : result (list frontier) :=
  for_each DIRS (push_neighbour size maze fx fy) frontiers.

(** Lines 80-94: [while frontiers: ...]; [k] counts the calls to [randint]. *)
Fixpoint grow (fuel : nat) (rand : nat -> nat) (k : nat) (size : Z)
    (maze : grid) (frontiers : list frontier) : result grid :=
  match frontiers with
  | [] => Ok maze
  | _ :: _ =>
    match fuel with
    | O => Timeout
    | S fuel' =>
      j ← randint rand k 0 (Z.of_nat (length frontiers) - 1);
      '(fx, fy, px, py, frontiers) ← pop frontiers j;
      c ← getitem2 maze fy fx;
      if bool_decide (c = 1) then
        maze ← setitem2 maze fy fx 0;
        maze ← setitem2 maze ((fy + py) `div` 2) ((fx + px) `div` 2) 0;
        frontiers ← push_neighbours size maze fx fy frontiers;
        grow fuel' rand (S k) size maze frontiers
      else grow fuel' rand (S k) size maze frontiers
    end
  end.

(** Lines 96-98: the entrance and the exit are carved whatever the growth left. *)
Definition carve_ends (size : Z) (maze : grid) : result grid :=
  maze ← setitem2 maze 1 1 0;
  setitem2 maze (size - 2) (size - 2) 0.

(** Lines 65-101: the body of the [try]. *)
Definition generate_body (fuel : nat) (size : Z) (rand : nat -> nat) : result grid :=
  let maze := filled size 1 in
  let start_x := size `div` 2 in
  let start_y := size `div` 2 in
  maze ← setitem2 maze start_y start_x 0;
  let frontiers := seed_frontiers size start_x start_y in
  maze ← grow fuel rand 0 size maze frontiers;
  carve_ends size maze.

(** Lines 106-112: the bordered empty room returned from the [except] branch. *)
Definition border_body (size : Z) (i : Z) (m : grid) : result grid :=
  m ← setitem2 m 0 i 1;
  m ← setitem2 m (size - 1) i 1;
  m ← setitem2 m i 0 1;
  setitem2 m i (size - 1) 1.

Definition simple_maze (size : Z) : result grid :=
  for_each (range size) (border_body size) (filled size 0).

Definition generate_maze_fuel (fuel : nat) (size : Z) (rand : nat -> nat) : result grid :=
  match generate_body fuel size rand with
  | Ok maze => Ok maze
  | Raise _ => simple_maze size
  | Timeout => Timeout
  end.

(** One iteration either carves a room (and pushes at most four entries) or
    drops an entry, so [4 * size * size] iterations always suffice; see
    [grow_returns]. *)
Definition growth_budget (size : Z) : nat := Z.to_nat (4 * size * size + 1).

Definition generate_maze (size : Z) (rand : nat -> nat) : result grid :=
  generate_maze_fuel (growth_budget size) size rand.

(** ** Vocabulary for stating properties of grids *)

(** The cell at column [x], row [y], for subscripts that are not negative. *)
Definition cell (g : grid) (x y : Z) : option Z :=
  row ← g !! Z.to_nat y; row !! Z.to_nat x.

(** The grid after [maze[y][x] = v], for subscripts in bounds. *)
Definition poke (g : grid) (x y : Z) (v : Z) : grid :=
  alter (<[Z.to_nat x := v]>) (Z.to_nat y) g.

Definition square (n : Z) (g : grid) : Prop :=
  length g = Z.to_nat n /\ Forall (fun row => length row = Z.to_nat n) g.

Definition inb (n x y : Z) : Prop := 0 <= x < n /\ 0 <= y < n.

Definition is_open (g : grid) (x y : Z) : Prop := cell g x y = Some 0.
Definition is_wall (g : grid) (x y : Z) : Prop := cell g x y = Some 1.

#[export] Instance is_open_dec g x y : Decision (is_open g x y).
Proof. unfold is_open. apply _. Defined.

(** All positions [(x, y)] of a grid of the given size. *)
Definition cells (size : Z) : list (Z * Z) :=
  y ← seqZ 0 size; x ← seqZ 0 size; [(x, y)].

(** The generator works on the lattice of stride 2 through the centre
    [size // 2]: a room has both offsets from the centre even, a passage
    exactly one, a pillar none. *)
Definition on_lattice (size v : Z) : bool := Z.even (v - size `div` 2).
Definition room (size : Z) (p : Z * Z) : bool :=
  on_lattice size p.1 && on_lattice size p.2.
Definition passage (size : Z) (p : Z * Z) : bool :=
  xorb (on_lattice size p.1) (on_lattice size p.2).

Definition rooms (size : Z) : list (Z * Z) := filter (fun p => room size p = true) (cells size).
Definition passages (size : Z) : list (Z * Z) :=
  filter (fun p => passage size p = true) (cells size).

Definition count_open (g : grid) (ps : list (Z * Z)) : nat :=
  length (filter (fun p => is_open g p.1 p.2) ps).

(** Grids grown as a tree: the centre alone, or a grown grid with one more
    room hung on an open room through the passage between them.  A cell is
    only ever attached as a leaf, which is what excludes cycles. *)
Inductive tree_grid (size : Z) : grid -> Prop :=
| tree_root :
    tree_grid size (poke (filled size 1) (size `div` 2) (size `div` 2) 0)
| tree_leaf g fx fy px py dx dy :
    tree_grid size g ->
    (dx, dy) ∈ DIRS ->
    fx = px + dx -> fy = py + dy ->
    inb size px py -> room size (px, py) = true -> is_open g px py ->
    inb size fx fy -> is_wall g fx fy ->
    tree_grid size
      (poke (poke g fx fy 0) ((fx + px) `div` 2) ((fy + py) `div` 2) 0).

(** Rooms joined to the centre by open passages. *)
Inductive linked (size : Z) (g : grid) : Z -> Z -> Prop :=
| linked_centre :
    is_open g (size `div` 2) (size `div` 2) ->
    linked size g (size `div` 2) (size `div` 2)
| linked_step px py dx dy :
    linked size g px py ->
    (dx, dy) ∈ DIRS ->
    inb size (px + dx) (py + dy) ->
    is_open g (px + dx `div` 2) (py + dy `div` 2) ->
    is_open g (px + dx) (py + dy) ->
    linked size g (px + dx) (py + dy).

(** What the growth loop maintains about its worklist: every entry names an
    in-bounds cell two steps from an open room, and every in-bounds
    neighbour of an open room is open already or waits in the worklist. *)
Definition frontier_ok (size : Z) (g : grid) (e : frontier) : Prop :=
  let '(fx, fy, px, py) := e in
  exists dx dy, (dx, dy) ∈ DIRS /\ fx = px + dx /\ fy = py + dy /\
    inb size px py /\ room size (px, py) = true /\ is_open g px py /\ inb size fx fy.

Definition closed (size : Z) (g : grid) (fr : list frontier) : Prop :=
  forall x y dx dy,
    inb size x y -> room size (x, y) = true -> is_open g x y ->
    (dx, dy) ∈ DIRS -> inb size (x + dx) (y + dy) ->
    is_open g (x + dx) (y + dy) \/ exists px py, (x + dx, y + dy, px, py) ∈ fr.

(** The loop's variant: four times the rooms still walled, plus the worklist. *)
Definition potential (size : Z) (g : grid) (fr : list frontier) : nat :=
  (4 * (length (rooms size) - count_open g (rooms size)) + length fr)%nat.

(** What every tree-grown grid satisfies (lemma [tree_grid_facts]): it is
    square, every cell is OPEN or WALL, the open cells are rooms and
    passages, an open passage has its two rooms open, and there is one open
    room more than open passages. *)
Record tree_facts (n : Z) (g : grid) : Prop := {
  tf_square : square n g;
  tf_bits : forall x y, inb n x y -> is_open g x y \/ is_wall g x y;
  tf_shape : forall x y, inb n x y -> is_open g x y ->
    room n (x, y) = true \/ passage n (x, y) = true;
  tf_ends : forall x y, inb n x y -> is_open g x y -> passage n (x, y) = true ->
    (on_lattice n x = false ->
       inb n (x - 1) y /\ inb n (x + 1) y /\ is_open g (x - 1) y /\ is_open g (x + 1) y) /\
    (on_lattice n y = false ->
       inb n x (y - 1) /\ inb n x (y + 1) /\ is_open g x (y - 1) /\ is_open g x (y + 1));
  tf_count : count_open g (rooms n) = S (count_open g (passages n));
  tf_centre : is_open g (n `div` 2) (n `div` 2)
}.

(** A step to one of the four neighbouring cells. *)
Definition unit_step (hx hy : Z) : Prop :=
  (hx = 0 /\ (hy = 1 \/ hy = -1)) \/ (hy = 0 /\ (hx = 1 \/ hx = -1)).

(** The border cells that the loop of [simple_maze] has written after the indices [idx]. *)
Definition touched (n : Z) (idx : list Z) (x y : Z) : Prop :=
  ((y = 0 \/ y = n - 1) /\ x ∈ idx) \/ ((x = 0 \/ x = n - 1) /\ y ∈ idx).

(** ** Python floats

    The operations [game.py] applies to floats.  [+], [-], [*] and the
    comparisons never raise; [x ** 2] raises OverflowError, [math.sqrt]
    ValueError, [int] ValueError or OverflowError. *)
Class PyFloat (F : Type) : Type := {
  of_int : Z -> F;              (* an int operand of mixed arithmetic *)
  decimal : Z -> Z -> F;        (* the literal n/d, as in 0.02 = 2/100 *)
  fadd : F -> F -> F;
  fsub : F -> F -> F;
  fmul : F -> F -> F;
  fsquare : F -> result F;      (* x ** 2 *)
  math_sqrt : F -> result F;
  flt : F -> F -> bool;         (* x < y *)
  feq : F -> F -> bool;         (* x == y *)
  fint : F -> result Z;         (* int(x): truncation toward zero *)
  half_pi : F                   (* math.pi / 2 *)
}.

(** The two functions of the C library that the game calls; [math.cos] and
    [math.sin] raise ValueError at an infinity. *)
Class Libm (F : Type) : Type := {
  math_cos : F -> result F;
  math_sin : F -> result F
}.

Declare Scope py_scope.
Delimit Scope py_scope with py.
Notation "x + y" := (fadd x y) : py_scope.
Notation "x - y" := (fsub x y) : py_scope.
Notation "x * y" := (fmul x y) : py_scope.
Notation "x <? y" := (flt x y) : py_scope.
Notation "x =? y" := (feq x y) : py_scope.

(** [x <= y], which the code never evaluates on floats but the contracts mention. *)
Definition fle {F} `{PyFloat F} (x y : F) : bool := (x <? y)%py || (x =? y)%py.

(** *** Instance 1: IEEE-754 binary64, CPython's [float] *)

Definition float_of_int (z : Z) : float := SF2Prim (binary_normalize prec emax z 0 false).

(** [int(x)] from the sign, mantissa and exponent of [x]. *)
Definition float_int (x : float) : result Z :=
  match Prim2SF x with
  | S754_zero _ => Ok 0
  | S754_finite s m e =>
      let a := match e with
               | Z0 => Zpos m
               | Zpos p => Z.shiftl (Zpos m) (Zpos p)
               | Zneg p => Z.shiftr (Zpos m) (Zpos p)
               end in
      Ok (if s then - a else a)
  | S754_infinity _ => Raise OverflowError
  | S754_nan => Raise ValueError
  end.

(** [x ** 2]: the rounded product, OverflowError when a finite [x] overflows. *)
Definition float_square (x : float) : result float :=
  let r := PrimFloat.mul x x in
  if PrimFloat.is_infinity r && negb (PrimFloat.is_infinity x)
  then Raise OverflowError else Ok r.

(** [math.sqrt]: ValueError when the root of a number is not a number. *)
Definition float_sqrt (x : float) : result float :=
  let r := PrimFloat.sqrt x in
  if PrimFloat.is_nan r && negb (PrimFloat.is_nan x) then Raise ValueError else Ok r.

#[export] Instance binary64 : PyFloat float := {
  of_int := float_of_int;
  decimal n d := PrimFloat.div (float_of_int n) (float_of_int d);
  fadd := PrimFloat.add;
  fsub := PrimFloat.sub;
  fmul := PrimFloat.mul;
  fsquare := float_square;
  math_sqrt := float_sqrt;
  flt := PrimFloat.ltb;
  feq := PrimFloat.eqb;
  fint := float_int;
  half_pi := 0x1.921fb54442d18p+0%float
}.


Definition sf_number (x : spec_float) : Prop :=
  match x with
  | S754_nan => False
  | _ => True
  end.

(** A number that is not below zero (either zero counts). *)
Definition sf_nonneg (x : spec_float) : Prop :=
  match x with
  | S754_zero _ | S754_finite false _ _ | S754_infinity false => True
  | _ => False
  end.


(** *** Instance 2: the exact reals, the arithmetic of the specification *)

Definition Rltb (x y : R) : bool := if Rlt_dec x y then true else false.
Definition Reqb (x y : R) : bool := if Req_dec_T x y then true else false.

(** Truncation toward zero: the floor of a positive number, the ceiling of a negative one. *)
Definition Rtrunc (x : R) : Z :=
  if Rle_dec 0 x then Int_part x else - Int_part (- x).

#[export] Instance exact : PyFloat R := {
  of_int := IZR;
  decimal n d := (IZR n / IZR d)%R;
  fadd := Rplus;
  fsub := Rminus;
  fmul := Rmult;
  fsquare x := Ok (x * x)%R;
  math_sqrt x := if Rlt_dec x 0 then Raise ValueError else Ok (sqrt x);
  flt := Rltb;
  feq := Reqb;
  fint x := Ok (Rtrunc x);
  half_pi := (PI / 2)%R
}.

#[export] Instance exact_libm : Libm R := {
  math_cos x := Ok (cos x);
  math_sin x := Ok (sin x)
}.

(** The C library on binary64 is not modelled, except at the one angle
    where its results are beyond doubt: [math.cos(0.0) = 1.0] and
    [math.sin(0.0) = 0.0].  Examples that evaluate use this table; every
    general statement ranges over all of [Libm float]. *)
Definition only_at_zero (v x : float) : result float :=
  if PrimFloat.eqb x 0 then Ok v else Raise ValueError.

Definition zero_libm : Libm float := {|
  math_cos := only_at_zero 1;
  math_sin := only_at_zero 0
|}.

(** ** The game *)

Section Game.
Context {F : Type} `{PyFloat F} `{Libm F}.
Local Open Scope py_scope.

(** Lines 35-39. *)
Definition MAX_DEPTH : Z := 20.
Definition ROTATION_SPEED : F := decimal 4 100.
Definition RAY_STEP_SIZE : F := decimal 2 100.

(** Lines 42-58. *)
Record config : Type := Config {
  map_size : Z;
  move_speed : F;
  show_minimap : bool
}.
Definition EASY_CONFIG : config := Config 15 (decimal 1 10) true.
Definition MEDIUM_CONFIG : config := Config 21 (decimal 8 100) true.
Definition HARD_CONFIG : config := Config 25 (decimal 6 100) false.

(** Lines 119-124. *)
Definition choose_config (difficulty : string) : config :=
  if String.eqb difficulty "easy" then EASY_CONFIG
  else if String.eqb difficulty "medium" then MEDIUM_CONFIG
  else HARD_CONFIG.

(** *** [cast_ray], lines 145-173 *)

(** Lines 158-160: [math.sqrt((ray_x - player_x)**2 + (ray_y - player_y)**2)].
    Lines 158-168, at the ray point just advanced: the distance travelled,
    and whether the loop goes on (the point is in bounds and its cell is
    not a WALL). *)
Definition distance (player_x player_y ray_x ray_y : F) : result F :=
  sx ← fsquare (ray_x - player_x);
  sy ← fsquare (ray_y - player_y);
  math_sqrt (sx + sy).

Definition probe (cfg : config) (maze : grid) (player_x player_y ray_x ray_y : F)
    : result (F * bool) :=
  wall_distance ← distance player_x player_y ray_x ray_y;
  map_x ← fint ray_x;
  map_y ← fint ray_y;
  if in_range (map_size cfg) map_x && in_range (map_size cfg) map_y then
    c ← getitem2 maze map_y map_x;
    Ok (wall_distance, negb (bool_decide (c = 1)))
  else Ok (wall_distance, false).

(** Lines 155-170: [while not wall_hit and wall_distance < MAX_DEPTH].  The
    result comes with the number of iterations run. *)
Fixpoint march (fuel : nat) (cfg : config) (maze : grid)
    (player_x player_y ray_cos ray_sin : F)
    (ray_x ray_y wall_distance : F) (n : nat) : result F * nat :=
  if wall_distance <? of_int MAX_DEPTH then
    match fuel with
    | O => (Timeout, n)
    | S fuel' =>
      let ray_x := ray_x + ray_cos in
      let ray_y := ray_y + ray_sin in
      match probe cfg maze player_x player_y ray_x ray_y with
      | Ok (wall_distance, true) =>
          march fuel' cfg maze player_x player_y ray_cos ray_sin
                ray_x ray_y wall_distance (S n)
      | Ok (wall_distance, false) => (Ok wall_distance, S n)
      | Raise e => (Raise e, S n)
      | Timeout => (Timeout, S n)
      end
    end
  else (Ok wall_distance, n).

(** Lines 148-170: the body of the [try]. *)
Definition cast_ray_steps (fuel : nat) (cfg : config) (maze : grid)
    (player_x player_y angle : F) : result F * nat :=
  match math_cos angle with
  | Ok c =>
    let ray_cos := c * RAY_STEP_SIZE in
    match math_sin angle with
    | Ok s =>
      let ray_sin := s * RAY_STEP_SIZE in
      march fuel cfg maze player_x player_y ray_cos ray_sin
            player_x player_y (of_int 0) 0
    | Raise e => (Raise e, O)
    | Timeout => (Timeout, O)
    end
  | Raise e => (Raise e, O)
  | Timeout => (Timeout, O)
  end.

Definition cast_ray (fuel : nat) (cfg : config) (maze : grid)
    (player_x player_y angle : F) : result F :=
  match fst (cast_ray_steps fuel cfg maze player_x player_y angle) with
  | Ok wall_distance => Ok wall_distance
  | Raise _ => Ok (of_int MAX_DEPTH)      (* except Exception: return MAX_DEPTH *)
  | Timeout => Timeout
  end.

(** *** Line 204 of [draw_3d_view] *)

(** [max(a, b)] and [min(a, b)] return [a] unless [b] is strictly beyond it. *)
Definition py_max (a b : F) : F := if a <? b then b else a.
Definition py_min (a b : F) : F := if b <? a then b else a.

Definition color_intensity (distance : F) : F :=
  py_min (of_int 255) (py_max (of_int 50) (of_int 255 - distance * of_int 20)).

(** *** [handle_movement], lines 308-378 *)

Record keys : Type := Keys {
  K_w : bool; K_UP : bool; K_s : bool; K_DOWN : bool;
  K_q : bool; K_e : bool;
  K_a : bool; K_LEFT : bool; K_d : bool; K_RIGHT : bool
}.

Record pose : Type := Pose {
  player_x : F;
  player_y : F;
  player_angle : F
}.

(** Lines 315-339. *)
Definition movement_vector (cfg : config) (k : keys) (angle : F)
    : result (F * F) :=
  let move_x := of_int 0 in
  let move_y := of_int 0 in
  '(move_x, move_y) ←
    (if K_w k || K_UP k then
       c ← math_cos angle; s ← math_sin angle;
       Ok (move_x + c * move_speed cfg, move_y + s * move_speed cfg)
     else Ok (move_x, move_y));
  '(move_x, move_y) ←
    (if K_s k || K_DOWN k then
       c ← math_cos angle; s ← math_sin angle;
       Ok (move_x - c * move_speed cfg, move_y - s * move_speed cfg)
     else Ok (move_x, move_y));
  '(move_x, move_y) ←
    (if K_q k then
       c ← math_cos (angle - half_pi); s ← math_sin (angle - half_pi);
       Ok (move_x + c * move_speed cfg, move_y + s * move_speed cfg)
     else Ok (move_x, move_y));
  (if K_e k then
     c ← math_cos (angle + half_pi); s ← math_sin (angle + half_pi);
     Ok (move_x + c * move_speed cfg, move_y + s * move_speed cfg)
   else Ok (move_x, move_y)).

(** Lines 341-345. *)
Definition turn (k : keys) (angle : F) : F :=
  let angle := if K_a k || K_LEFT k then angle - ROTATION_SPEED else angle in
  if K_d k || K_RIGHT k then angle + ROTATION_SPEED else angle.

(** The test repeated at lines 352-354, 361-363 and 367-369:
    [0 <= int(a) < size and 0 <= int(b) < size and maze[int(b)][int(a)] == 0],
    evaluated left to right, stopping at the first false conjunct. *)
Definition can_enter (cfg : config) (maze : grid) (a b : F) : result bool :=
  ia ← fint a;
  if in_range (map_size cfg) ia then
    ib ← fint b;
    if in_range (map_size cfg) ib then
      c ← getitem2 maze ib ia;
      Ok (bool_decide (c = 0))
    else Ok false
  else Ok false.

(** Lines 348-376: the position after the move [(move_x, move_y)]. *)
Definition translate (cfg : config) (maze : grid) (x y move_x move_y : F)
    : result (F * F) :=
  let new_x := x + move_x in
  let new_y := y + move_y in
  can_move_both ← can_enter cfg maze new_x new_y;
  if (can_move_both : bool) then Ok (new_x, new_y)
  else
    can_move_x ← can_enter cfg maze new_x y;
    can_move_y ← can_enter cfg maze x new_y;
    Ok (if (can_move_x : bool) then new_x else x,
        if (can_move_y : bool) then new_y else y).

(** The whole function: an exception leaves the pose as it was when raised. *)
Definition handle_movement (cfg : config) (maze : grid)
    (pressed : result keys) (p : pose) : pose :=
  match pressed with
  | Ok k =>
    match movement_vector cfg k (player_angle p) with
    | Ok (move_x, move_y) =>
      let p := Pose (player_x p) (player_y p) (turn k (player_angle p)) in
      if negb (move_x =? of_int 0) || negb (move_y =? of_int 0) then
        match translate cfg maze (player_x p) (player_y p) move_x move_y with
        | Ok (x, y) => Pose x y (player_angle p)
        | _ => p
        end
      else p
    | _ => p
    end
  | _ => p
  end.

(** *** The game loop, lines 380-495 *)

Inductive event : Type :=
| QUIT
| KEYDOWN (escape : bool)      (* a key went down; [true] when it is K_ESCAPE *)
| OTHER.

(** What the outside world supplies to one pass of the loop. *)
Record tick_input : Type := TickInput {
  polled : result (list event);             (* pygame.event.get() *)
  pressed : result keys;                    (* pygame.key.get_pressed() *)
  clock : F;                                (* time.time() at the win test *)
  victory : result (list (list event));     (* drawing the victory screen, then
                                               the event batches of the modal wait *)
  frame : result unit                       (* drawing and presenting the frame *)
}.

Record session : Type := Session {
  where_ : pose;
  completion_time : F;
  game_completed : bool;
  running : bool
}.

Definition stop (s : session) : session :=
  Session (where_ s) (completion_time s) (game_completed s) false.

(** Lines 387-392. *)
Definition quits (e : event) : bool :=
  match e with
  | QUIT => true
  | KEYDOWN escape => escape
  | OTHER => false
  end.

(** Lines 456-462. *)
Definition dismisses (e : event) : bool :=
  match e with
  | QUIT => true
  | KEYDOWN _ => true
  | OTHER => false
  end.

(** Line 398: [int(player_x) == exit_x and int(player_y) == exit_y]. *)
Definition at_exit (exit_x exit_y : Z) (p : pose) : result bool :=
  ix ← fint (player_x p);
  if bool_decide (ix = exit_x) then
    iy ← fint (player_y p);
    Ok (bool_decide (iy = exit_y))
  else Ok false.

(** One pass through the body of [while running], with its [except].  The
    flag tells whether the pass finished; it is [false] when the modal wait
    after a win never sees a key press or a quit. *)
Definition tick (cfg : config) (maze : grid) (exit_x exit_y : Z)
    (start_time : F) (i : tick_input) (s : session) : session * bool :=
  match polled i with
  | Ok events =>
    let s := if existsb quits events then stop s else s in
    if game_completed s then (s, true)
    else
      let p := handle_movement cfg maze (pressed i) (where_ s) in
      let s := Session p (completion_time s) (game_completed s) (running s) in
      match at_exit exit_x exit_y p with
      | Ok true =>
        let s := Session p (clock i - start_time) true (running s) in
        match victory i with
        | Ok batches => (stop s, existsb (existsb dismisses) batches)
        | _ => (stop s, true)
        end
      | Ok false =>
        match frame i with
        | Ok _ => (s, true)
        | _ => (stop s, true)
        end
      | _ => (stop s, true)
      end
  | _ => (stop s, true)
  end.

(** Lines 385-490 over a script of inputs; [Timeout] when the script ends
    with the session still running or waiting. *)
Fixpoint game_loop (cfg : config) (maze : grid) (exit_x exit_y : Z)
    (start_time : F) (script : list tick_input) (s : session) : result session :=
  if running s then
    match script with
    | [] => Timeout
    | i :: script' =>
      let '(s', finished) := tick cfg maze exit_x exit_y start_time i s in
      if finished
      then game_loop cfg maze exit_x exit_y start_time script' s'
      else Timeout
    end
  else Ok s.

(** The world around one call of [run_game]. *)
Record world : Type := World {
  display : result unit;         (* pygame.display.set_mode, set_caption *)
  rand : nat -> nat;             (* the draws of random.randint *)
  start_clock : F;               (* time.time() at line 142 *)
  script : list tick_input
}.

(** Lines 115-499. *)
Definition run_game (difficulty : string) (w : world) : result F :=
  let cfg := choose_config difficulty in
  match display w with
  | Ok _ =>
    match generate_maze (map_size cfg) (rand w) with
    | Ok maze =>
      let exit_x := (map_size cfg - 2)%Z in
      let exit_y := (map_size cfg - 2)%Z in
      let s0 := Session (Pose (decimal 3 2) (decimal 3 2) (of_int 0)) (of_int 0) false true in
      match game_loop cfg maze exit_x exit_y (start_clock w) (script w) s0 with
      | Ok s => Ok (if game_completed s then completion_time s else of_int (-1))
      | Raise _ => Ok (of_int (-1))
      | Timeout => Timeout
      end
    | Raise _ => Ok (of_int (-1))
    | Timeout => Timeout
    end
  | Raise _ => Ok (of_int (-1))        (* except Exception: return -1 *)
  | Timeout => Timeout
  end.

(** *** Vocabulary for stating properties of rays *)

(** The ray coordinate after [k] steps of [c] from [p], as the loop accumulates it. *)
Fixpoint ray_at (p c : F) (k : nat) : F :=
  match k with
  | O => p
  | S k' => ray_at p c k' + c
  end.

(** The distance the loop measures at its [k]-th sample. *)
Definition distance_at (px py c s : F) (k : nat) : result F :=
  distance px py (ray_at px c k) (ray_at py s k).

(** The [k]-th sample is closer than MAX_DEPTH, in bounds and in a cell that is no WALL. *)
Definition passes (cfg : config) (maze : grid) (px py c s : F) (k : nat) : Prop :=
  exists d ix iy v,
    distance_at px py c s k = Ok d /\ (d <? of_int MAX_DEPTH) = true /\
    fint (ray_at px c k) = Ok ix /\ fint (ray_at py s k) = Ok iy /\
    in_range (map_size cfg) ix && in_range (map_size cfg) iy = true /\
    getitem2 maze iy ix = Ok v /\ v <> 1%Z.

(** [passes] as a test, for samples that can be evaluated. *)
Definition passesb (cfg : config) (maze : grid) (px py c s : F) (k : nat) : bool :=
  match distance_at px py c s k, fint (ray_at px c k), fint (ray_at py s k) with
  | Ok d, Ok ix, Ok iy =>
      (d <? of_int MAX_DEPTH) &&
      (in_range (map_size cfg) ix && in_range (map_size cfg) iy) &&
      match getitem2 maze iy ix with
      | Ok v => negb (bool_decide (v = 1%Z))
      | _ => false
      end
  | _, _, _ => false
  end.

(** The [k]-th sample has left the grid: its cell index is out of range. *)
Definition leaves (cfg : config) (px py c s : F) (k : nat) : Prop :=
  exists ix iy,
    fint (ray_at px c k) = Ok ix /\ fint (ray_at py s k) = Ok iy /\
    in_range (map_size cfg) ix && in_range (map_size cfg) iy = false.

(** The point of the ray at parameter [t] lies outside the square [0, size) x [0, size). *)
Definition outside (cfg : config) (px py c s t : F) : bool :=
  let x := px + t * c in
  let y := py + t * s in
  negb (fle (of_int 0) x && (x <? of_int (map_size cfg)) &&
        fle (of_int 0) y && (y <? of_int (map_size cfg))).

(** The cell [(i, j)] may be entered: it is in bounds and OPEN. *)
Definition enterable (cfg : config) (maze : grid) (i j : Z) : bool :=
  in_range (map_size cfg) i && in_range (map_size cfg) j &&
  bool_decide (is_open maze i j).

(** A completed session carries the elapsed time of the tick that completed it. *)
Definition timed (start_time : F) (all : list tick_input) (s : session) : Prop :=
  game_completed s = true ->
  exists i, In i all /\ completion_time s = clock i - start_time.

(** The heading lies in [0, 2 pi), with 2 pi = 4 * (pi / 2). *)
Definition normalized (angle : F) : bool :=
  fle (of_int 0) angle && (angle <? of_int 4 * half_pi).

End Game.

Arguments config F : clear implicits.
Arguments pose F : clear implicits.
Arguments tick_input F : clear implicits.
Arguments session F : clear implicits.
Arguments world F : clear implicits.

(** *** Inputs for the examples: key states, small grids, short scripts *)

Definition key_up : keys := Keys false false false false false false false false false false.
Definition key_w : keys := Keys true false false false false false false false false false.
Definition key_left : keys := Keys false false false false false false false true false false.

(** Two 3 x 3 grids, one with a WALL in the middle, one with a WALL across. *)
Definition pillar_grid : grid := [[0; 0; 0]; [0; 1; 0]; [0; 0; 0]].
Definition wall_grid : grid := [[0; 0; 0]; [1; 1; 1]; [0; 0; 0]].
Definition tiny : config float := Config 3 0.125%float true.

(** One tick with W held, from (0.9375, 0.5) and heading 0 in an open
    3 x 3 grid whose exit is the cell (1, 0); the clock reads 12.5. *)
Definition step_in : tick_input float :=
  TickInput (Ok []) (Ok key_w) 12.5%float (Ok [[KEYDOWN false]]) (Ok tt).
Definition before_exit : session float :=
  Session (Pose 0.9375%float 0.5%float 0%float) 0%float false true.

(** The window is closed during the first tick of an easy game. *)
Definition quit_at_once : world float :=
  World (Ok tt) (fun k => k) 100%float
        [TickInput (Ok [QUIT]) (Ok key_up) 101%float (Ok []) (Ok tt)].

(** ** More vocabulary for grids and rays *)

(** Cells joined by a walk through OPEN cells of the grid, each step going
    to one of the four neighbours. *)
Inductive connected (size : Z) (g : grid) : Z * Z -> Z * Z -> Prop :=
| connected_here x y :
    inb size x y -> is_open g x y -> connected size g (x, y) (x, y)
| connected_step x y x' y' hx hy :
    connected size g (x, y) (x', y') ->
    unit_step hx hy ->
    inb size (x' + hx) (y' + hy) -> is_open g (x' + hx) (y' + hy) ->
    connected size g (x, y) (x' + hx, y' + hy).

(** A cell of the outer ring of the grid. *)
Definition on_border (size x y : Z) : Prop :=
  x = 0 \/ x = size - 1 \/ y = 0 \/ y = size - 1.

Section Rays.
Context {F : Type} `{PyFloat F}.

(** The [k]-th sample lies in bounds in a WALL cell. *)
Definition hits (cfg : config F) (maze : grid) (px py c s : F) (k : nat) : Prop :=
  exists ix iy,
    fint (ray_at px c k) = Ok ix /\ fint (ray_at py s k) = Ok iy /\
    in_range (map_size cfg) ix && in_range (map_size cfg) iy = true /\
    getitem2 maze iy ix = Ok 1.

(** The pose lies in the grid: both truncated coordinates are cell indices. *)
Definition in_grid (cfg : config F) (p : pose F) : Prop :=
  exists ix iy,
    fint (player_x p) = Ok ix /\ fint (player_y p) = Ok iy /\
    0 <= ix < map_size cfg /\ 0 <= iy < map_size cfg.

End Rays.

(** ** [statistics.py]

    A Python [str] is the list of its code points.  A record is the dict
    [{'player', 'date', 'time', 'difficulty'}] that [add_statistic] builds;
    the statistics file is missing, undecodable, or holds the JSON list of
    such records that [save_statistics] wrote (a file that decodes to JSON
    of another shape is outside this model).  What the logger prints is
    left out. *)

Abbreviation str := (list N).

Record stat : Type := Stat {
  stat_player : str;
  stat_date : str;
  stat_time : float;
  stat_difficulty : str
}.

Inductive file : Type :=
| Absent
| Undecodable
| Records (l : list stat).

(** The file with the faults of its medium: a read that raises, a write that
    raises and leaves some file behind, a removal that raises. *)
Record disk : Type := Disk {
  content : file;
  read_fault : bool;
  write_fault : option file;
  remove_fault : bool
}.

Definition with_content (d : disk) (f : file) : disk :=
  Disk f (read_fault d) (write_fault d) (remove_fault d).

(** Line 15: the keys "Сложная", "Средняя" and "Легкая". *)
Definition HARD_LABEL : str := [1057; 1083; 1086; 1078; 1085; 1072; 1103]%N.
Definition MEDIUM_LABEL : str := [1057; 1088; 1077; 1076; 1085; 1103; 1103]%N.
Definition EASY_LABEL : str := [1051; 1077; 1075; 1082; 1072; 1103]%N.

(** [DIFFICULTY_ORDER.get(label, 0)] *)
Definition DIFFICULTY_ORDER_get (label : str) : Z :=
  if bool_decide (label = HARD_LABEL) then 3
  else if bool_decide (label = MEDIUM_LABEL) then 2
  else if bool_decide (label = EASY_LABEL) then 1
  else 0.

(** Lines 18-35: every failure yields the empty list. *)
Definition load_statistics (d : disk) : list stat :=
  match content d with
  | Records l => if read_fault d then [] else l
  | _ => []
  end.

(** Lines 38-47. *)
Definition save_statistics (statistics : list stat) (d : disk) : bool * disk :=
  match write_fault d with
  | None => (true, with_content d (Records statistics))
  | Some remains => (false, with_content d remains)
  end.

(** Lines 50-77; [now] is the formatted date of the call. *)
Definition add_statistic (now : str) (player_name : str) (completion_time : float)
    (difficulty : str) (d : disk) : bool * disk :=
  let statistics := load_statistics d in
  let new_record := Stat player_name now completion_time difficulty in
  save_statistics (statistics ++ [new_record]) d.

(** [sorted(l, key=key)], with [lt] the [<] of the keys: a stable sort, here
    by insertion.  Every stable sort returns this list when [<] is a strict
    weak order on the keys, which it is here when no time is a NaN. *)
Fixpoint insert_by {A K} (lt : K -> K -> bool) (key : A -> K) (x : A) (l : list A) : list A :=
  match l with
  | [] => [x]
  | y :: l' => if lt (key y) (key x) then y :: insert_by lt key x l' else x :: y :: l'
  end.

Definition sorted {A K} (lt : K -> K -> bool) (key : A -> K) (l : list A) : list A :=
  foldr (insert_by lt key) [] l.

(** Lines 89-90: the key [(-DIFFICULTY_ORDER.get(x['difficulty'], 0), x['time'])]
    and the order of such tuples: by the first components when these differ,
    else by the second. *)
Definition rank_key (x : stat) : Z * float :=
  (- DIFFICULTY_ORDER_get (stat_difficulty x), stat_time x).

Definition tuple_lt (a b : Z * float) : bool :=
  if bool_decide (a.1 = b.1) then PrimFloat.ltb a.2 b.2 else bool_decide (a.1 < b.1).

(** Lines 80-98. *)
Definition get_sorted_statistics (d : disk) : list stat :=
  sorted tuple_lt rank_key (load_statistics d).

(** Lines 101-113. *)
Definition clear_statistics (d : disk) : bool * disk :=
  match content d with
  | Absent => (true, d)
  | _ => if remove_fault d then (false, d) else (true, with_content d Absent)
  end.

(** Lines 116-139. *)
Definition get_player_statistics (player_name : str) (d : disk) : list stat :=
  let player_stats :=
    filter (fun stat => stat_player stat = player_name) (load_statistics d) in
  sorted tuple_lt rank_key player_stats.

(** Lines 142-161. *)
Definition get_difficulty_statistics (difficulty : str) (d : disk) : list stat :=
  let diff_stats :=
    filter (fun stat => stat_difficulty stat = difficulty) (load_statistics d) in
  sorted PrimFloat.ltb stat_time diff_stats.

(** *** Vocabulary for the statistics *)

(** Every element of the list may stand before all that follow it. *)
Fixpoint ordered {A} (le : A -> A -> Prop) (l : list A) : Prop :=
  match l with
  | [] => True
  | x :: l' => Forall (le x) l' /\ ordered le l'
  end.

(** [a] is not ranked after [b]: a harder difficulty, or the same and no longer time. *)
Definition ranked (a b : stat) : Prop := tuple_lt (rank_key b) (rank_key a) = false.

(** No time on the list is a NaN. *)
Definition timed_records (l : list stat) : Prop :=
  Forall (fun x => PrimFloat.is_nan (stat_time x) = false) l.

(** Two records tie: neither is ranked after the other. *)
Definition tied (a b : stat) : Prop := ranked a b /\ ranked b a.

#[export] Instance tied_dec a b : Decision (tied a b).
Proof. unfold tied, ranked. apply _. Defined.

(** *** A statistics file for the examples: three games of two players *)

Definition ann : str := [65; 110; 110]%N.
Definition bob : str := [66; 111; 98]%N.
Definition a_date : str := [50; 48; 50; 52; 45; 48; 49; 45; 48; 49; 32; 49; 50; 58; 48; 48]%N.

Definition shelf : disk :=
  Disk (Records [Stat ann a_date 30.5%float EASY_LABEL;
                 Stat bob a_date 99%float HARD_LABEL;
                 Stat ann a_date 12.25%float EASY_LABEL])
       false None false.

(** ** [main.py]: the menu

    The widgets and the event dispatch of [main], lines 79-166 and 455-578.
    Drawing, the button colours and the logger are left out; they do not
    feed back into what is modelled. *)

(** [pygame.Rect(x, y, w, h)] and [collidepoint]: the left and top edges
    belong to the rectangle, the right and bottom edges do not. *)
Record rect : Type := Rect { rect_x : Z; rect_y : Z; rect_w : Z; rect_h : Z }.

Definition collidepoint (r : rect) (pos : Z * Z) : bool :=
  bool_decide (rect_x r <= pos.1 < rect_x r + rect_w r /\
               rect_y r <= pos.2 < rect_y r + rect_h r).

Inductive keycode : Type := K_RETURN | K_BACKSPACE | K_ANOTHER.

(** The events that the menu tells apart. *)
Inductive menu_event : Type :=
| MENU_QUIT
| MOUSEBUTTONDOWN (button : Z) (pos : Z * Z)
| MENU_KEYDOWN (key : keycode) (unicode : str)
| MENU_OTHER.

(** Lines 79-112: the text field, with its rectangle, text and focus. *)
Record InputBox : Type := Box {
  box_rect : rect;
  box_text : str;
  box_active : bool
}.

(** Lines 93-112: [InputBox.handle_event]; [text[:-1]] drops the last code point. *)
Definition handle_event (box : InputBox) (e : menu_event) : InputBox * bool :=
  match e with
  | MOUSEBUTTONDOWN _ pos =>
      (Box (box_rect box) (box_text box) (collidepoint (box_rect box) pos), false)
  | MENU_KEYDOWN key unicode =>
      if box_active box then
        match key with
        | K_RETURN => (box, true)
        | K_BACKSPACE => (Box (box_rect box) (removelast (box_text box)) true, false)
        | K_ANOTHER => (Box (box_rect box) (box_text box ++ unicode) true, false)
        end
      else (box, false)
  | _ => (box, false)
  end.

(** Lines 158-166: [Button.is_clicked], the left button pressed inside the rectangle. *)
Definition is_clicked (r : rect) (e : menu_event) : bool :=
  match e with
  | MOUSEBUTTONDOWN button pos => bool_decide (button = 1) && collidepoint r pos
  | _ => false
  end.

(** Lines 422-446, with WIDTH = 800. *)
Definition input_rect : rect := Rect (800 `div` 2 - 100) 200 200 40.
Definition play_button : rect := Rect (800 `div` 2 - 100) 260 200 50.
Definition stats_button : rect := Rect (800 `div` 2 - 100) 330 200 50.
Definition clear_button : rect := Rect (800 `div` 2 - 100) 400 200 50.
Definition exit_button : rect := Rect (800 `div` 2 - 100) 470 200 50.
Definition back_button : rect := Rect (800 `div` 2 - 100) 500 200 50.
Definition easy_button : rect := Rect (800 `div` 4 - 75) 350 150 50.
Definition medium_button : rect := Rect (800 `div` 2 - 75) 350 150 50.
Definition hard_button : rect := Rect ((3 * 800) `div` 4 - 75) 350 150 50.
Definition confirm_button : rect := Rect (800 `div` 2 - 220) 350 200 50.
Definition cancel_button : rect := Rect (800 `div` 2 + 20) 350 200 50.

(** [str.isspace] on one code point, and [str.strip()]. *)
Definition isspace (c : N) : bool :=
  bool_decide (c ∈ [9; 10; 11; 12; 13; 28; 29; 30; 31; 32; 133; 160; 5760;
                    8192; 8193; 8194; 8195; 8196; 8197; 8198; 8199; 8200; 8201; 8202;
                    8232; 8233; 8239; 8287; 12288]%N).

Fixpoint lstrip (s : str) : str :=
  match s with
  | c :: s' => if isspace c then lstrip s' else s
  | [] => []
  end.

Definition strip (s : str) : str := reverse (lstrip (reverse (lstrip s))).

(** Line 449: the four screens. *)
Inductive screen_name : Type := MAIN | DIFFICULTY | STATISTICS | CLEAR_CONFIRM.

(** The variables of [main] that the dispatch reads and writes, and the
    statistics file. *)
Record menu : Type := Menu {
  current_screen : screen_name;
  player_name : str;
  statistics_data : option (list stat);     (* None, or the cached list *)
  input_box : InputBox;
  store : disk
}.

(** What the outside world supplies while one event is handled: the world
    of the game launched for each difficulty, and the date of a record. *)
Record surroundings : Type := Surroundings {
  launch : string -> world float;
  today : str
}.

(** How the handling of an event ends. *)
Inductive step : Type :=
| Goes (m : menu)      (* on to the next event *)
| Exits                (* sys.exit() *)
| Fails (m : menu)     (* an exception, caught by the [except] of the loop *)
| Hangs.               (* a game that never returns *)

Definition step_bind (s : step) (k : menu -> step) : step :=
  match s with
  | Goes m => k m
  | _ => s
  end.

Definition go_to (screen : screen_name) (m : menu) : menu :=
  Menu screen (player_name m) (statistics_data m) (input_box m) (store m).

Section Menu.
Context `{Libm float}.

(** Lines 505-520, 522-537 and 539-554: one game and its record. *)
Definition play (env : surroundings) (difficulty : string) (label : str) (m : menu) : step :=
  match run_game difficulty (launch env difficulty) with
  | Ok completion_time =>
      let saved :=
        if PrimFloat.ltb (of_int 0) completion_time
        then snd (add_statistic (today env) (player_name m) completion_time label (store m))
        else store m in
      Goes (Menu MAIN (player_name m) (statistics_data m) (input_box m) saved)
  | Raise _ => Fails m
  | Timeout => Hangs
  end.

(** Lines 460-578: the body of [for event in pygame.event.get()]. *)
Definition dispatch (env : surroundings) (e : menu_event) (m : menu) : step :=
  match e with
  | MENU_QUIT => Exits
  | _ =>
    match current_screen m with
    | MAIN =>
      let '(box, entered) := handle_event (input_box m) e in
      let m := Menu MAIN (if entered then box_text box else player_name m)
                    (statistics_data m) box (store m) in
      let m :=
        if is_clicked play_button e then
          match strip (box_text (input_box m)) with
          | [] => m
          | name => Menu DIFFICULTY name (statistics_data m) (input_box m) (store m)
          end
        else m in
      let m :=
        if is_clicked stats_button e
        then Menu STATISTICS (player_name m) (Some (get_sorted_statistics (store m)))
                  (input_box m) (store m)
        else m in
      let m := if is_clicked clear_button e then go_to CLEAR_CONFIRM m else m in
      if is_clicked exit_button e then Exits else Goes m
    | DIFFICULTY =>
      let m := if is_clicked back_button e then go_to MAIN m else m in
      step_bind (if is_clicked easy_button e then play env "easy" EASY_LABEL m else Goes m)
        (fun m =>
      step_bind (if is_clicked medium_button e then play env "medium" MEDIUM_LABEL m else Goes m)
        (fun m =>
      if is_clicked hard_button e then play env "hard" HARD_LABEL m else Goes m))
    | STATISTICS =>
      Goes (if is_clicked back_button e then go_to MAIN m else m)
    | CLEAR_CONFIRM =>
      let m := if is_clicked back_button e then go_to MAIN m else m in
      let m :=
        if is_clicked confirm_button e then
          let '(cleared, d) := clear_statistics (store m) in
          Menu MAIN (player_name m)
               (if cleared then Some [] else statistics_data m) (input_box m) d
        else m in
      Goes (if is_clicked cancel_button e then go_to MAIN m else m)
    end
  end.

(** Lines 459-578: the events of one frame, in order. *)
Fixpoint dispatch_all (env : surroundings) (events : list menu_event) (m : menu) : step :=
  match events with
  | [] => Goes m
  | e :: events' => step_bind (dispatch env e m) (dispatch_all env events')
  end.

End Menu.

(** Lines 449-451: the menu as [main] starts it. *)
Definition first_menu (d : disk) : menu :=
  Menu MAIN [] None (Box input_rect [] false) d.

(** *** Vocabulary for the menu *)

(** The difficulty screen is up only with a name that is not blank. *)
Definition named (m : menu) : Prop :=
  current_screen m = DIFFICULTY ->
  player_name m <> [] /\ strip (player_name m) = player_name m.

(** *** Surroundings for the examples: every game is quit at once *)

Definition calm : surroundings := Surroundings (fun _ => quit_at_once) a_date.

(** *** A one-cell room for the examples, in exact arithmetic *)


(* ===================================================================== *)
(** * Part II.  The theorems                                              *)
(* ===================================================================== *)

(** ** Python subscripts in bounds *)

Ltac rsimpl := cbn [mbind mret result_bind result_ret option_bind option_ret].
Ltac rsimpl_in H := cbn [mbind mret result_bind result_ret option_bind option_ret] in H.

Lemma py_index_nonneg len i :
  0 <= i ->
  py_index len i = if bool_decide (i < Z.of_nat len) then Ok (Z.to_nat i) else Raise IndexError.
Proof.
  intros Hi. unfold py_index.
  repeat case_bool_decide; try lia; reflexivity.
Qed.

Lemma getitem_nonneg {A} (l : list A) i :
  0 <= i ->
  getitem l i = match l !! Z.to_nat i with Some a => Ok a | None => Raise IndexError end.
Proof.
  intros Hi. unfold getitem. rewrite py_index_nonneg by done.
  case_bool_decide as Hlt; rsimpl.
  - reflexivity.
  - rewrite lookup_ge_None_2 by lia. reflexivity.
Qed.

Lemma setitem_inb {A} (l : list A) i v :
  0 <= i < Z.of_nat (length l) -> setitem l i v = Ok (<[Z.to_nat i := v]> l).
Proof.
  intros Hi. unfold setitem. rewrite py_index_nonneg by lia.
  rewrite bool_decide_true by lia. reflexivity.
Qed.

Lemma getitem2_nonneg g x y :
  0 <= x -> 0 <= y ->
  getitem2 g y x = match cell g x y with Some v => Ok v | None => Raise IndexError end.
Proof.
  intros Hx Hy. unfold getitem2, cell. rewrite getitem_nonneg by done.
  destruct (g !! Z.to_nat y) as [row|]; rsimpl; [|reflexivity].
  rewrite getitem_nonneg by done. reflexivity.
Qed.

Lemma square_row n g y row :
  square n g -> g !! y = Some row -> length row = Z.to_nat n.
Proof.
  intros [_ Hrows] Hy. rewrite Forall_lookup in Hrows. eauto.
Qed.

Lemma square_cell n g x y :
  square n g -> inb n x y -> is_Some (cell g x y).
Proof.
  intros Hsq [Hx Hy]. unfold cell.
  destruct (lookup_lt_is_Some_2 g (Z.to_nat y)) as [row Hrow]; [destruct Hsq; lia|].
  rewrite Hrow. simpl. apply lookup_lt_is_Some_2.
  rewrite (square_row _ _ _ _ Hsq Hrow). lia.
Qed.

Lemma setitem2_inb n g x y v :
  square n g -> inb n x y -> setitem2 g y x v = Ok (poke g x y v).
Proof.
  intros Hsq [Hx Hy]. unfold setitem2, poke.
  rewrite getitem_nonneg by lia.
  destruct (lookup_lt_is_Some_2 g (Z.to_nat y)) as [row Hrow]; [destruct Hsq; lia|].
  rewrite Hrow. rsimpl.
  rewrite setitem_inb by (rewrite (square_row _ _ _ _ Hsq Hrow); lia). rsimpl.
  rewrite setitem_inb by (destruct Hsq; lia).
  f_equal. apply list_eq. intros i.
  destruct (decide (i = Z.to_nat y)) as [->|Hne].
  - rewrite list_lookup_insert_eq by (destruct Hsq; lia).
    rewrite list_lookup_alter_eq, Hrow. reflexivity.
  - rewrite list_lookup_insert_ne, list_lookup_alter_ne by done. reflexivity.
Qed.

Lemma square_poke n g x y v : square n g -> square n (poke g x y v).
Proof.
  intros [Hlen Hrows]. split; unfold poke.
  - rewrite length_alter. done.
  - rewrite Forall_lookup in *. intros i row Hi.
    destruct (decide (i = Z.to_nat y)) as [->|Hne].
    + rewrite list_lookup_alter_eq in Hi.
      destruct (g !! Z.to_nat y) as [r|] eqn:Hr; simplify_eq/=.
      rewrite length_insert. eauto.
    + rewrite list_lookup_alter_ne in Hi by done. eauto.
Qed.

Lemma cell_poke n g x y v x' y' :
  square n g -> inb n x y -> 0 <= x' -> 0 <= y' ->
  cell (poke g x y v) x' y' =
    if decide (x' = x /\ y' = y) then Some v else cell g x' y'.
Proof.
  intros Hsq [Hx Hy] Hx' Hy'. unfold cell, poke.
  destruct (decide (y' = y)) as [->|Hny].
  - rewrite list_lookup_alter_eq.
    destruct (lookup_lt_is_Some_2 g (Z.to_nat y)) as [row Hrow]; [destruct Hsq; lia|].
    rewrite Hrow. simpl.
    destruct (decide (x' = x)) as [->|Hnx].
    + rewrite decide_True by done.
      apply list_lookup_insert_eq. rewrite (square_row _ _ _ _ Hsq Hrow). lia.
    + rewrite decide_False by tauto.
      apply list_lookup_insert_ne. lia.
  - rewrite list_lookup_alter_ne by lia. rewrite decide_False by tauto. reflexivity.
Qed.

Lemma square_filled n v : square n (filled n v).
Proof.
  split; unfold filled.
  - apply length_replicate.
  - apply Forall_replicate. apply length_replicate.
Qed.

Lemma cell_filled n v x y : inb n x y -> cell (filled n v) x y = Some v.
Proof.
  intros [Hx Hy]. unfold cell, filled.
  rewrite lookup_replicate_2 by lia. simpl. apply lookup_replicate_2. lia.
Qed.

(** ** Positions and the lattice *)

Lemma elem_of_cells n x y : (x, y) ∈ cells n <-> inb n x y.
Proof.
  unfold cells, inb. rewrite list_elem_of_bind. split.
  - intros (y' & Hin & Hy). rewrite list_elem_of_bind in Hin.
    destruct Hin as (x' & Hin & Hx). rewrite list_elem_of_singleton in Hin.
    rewrite elem_of_seqZ in Hx, Hy. simplify_eq. lia.
  - intros [Hx Hy]. exists y. rewrite elem_of_seqZ. split; [|lia].
    rewrite list_elem_of_bind. exists x. rewrite elem_of_seqZ, list_elem_of_singleton.
    split; [done|lia].
Qed.

Lemma NoDup_cells n : NoDup (cells n).
Proof.
  unfold cells. apply NoDup_bind; [| |apply NoDup_seqZ].
  - intros y1 y2 [x y] _ _ H1 H2.
    rewrite list_elem_of_bind in H1, H2.
    destruct H1 as (? & H1 & _), H2 as (? & H2 & _).
    rewrite list_elem_of_singleton in H1, H2. congruence.
  - intros y _. apply NoDup_bind; [| |apply NoDup_seqZ].
    + intros x1 x2 p _ _ H1 H2. rewrite list_elem_of_singleton in H1, H2. congruence.
    + intros x _. apply NoDup_singleton.
Qed.

Lemma elem_of_rooms n x y : (x, y) ∈ rooms n <-> room n (x, y) = true /\ inb n x y.
Proof. unfold rooms. rewrite list_elem_of_filter, elem_of_cells. done. Qed.

Lemma elem_of_passages n x y :
  (x, y) ∈ passages n <-> passage n (x, y) = true /\ inb n x y.
Proof. unfold passages. rewrite list_elem_of_filter, elem_of_cells. done. Qed.

Lemma NoDup_rooms n : NoDup (rooms n).
Proof. apply NoDup_filter, NoDup_cells. Qed.

Lemma NoDup_passages n : NoDup (passages n).
Proof. apply NoDup_filter, NoDup_cells. Qed.

Lemma DIRS_cases dx dy :
  (dx, dy) ∈ DIRS ->
  (dx = 0 /\ dy = 2) \/ (dx = 2 /\ dy = 0) \/ (dx = 0 /\ dy = -2) \/ (dx = -2 /\ dy = 0).
Proof.
  unfold DIRS. rewrite !elem_of_cons, elem_of_nil.
  intros [H|[H|[H|[H|[]]]]]; simplify_eq; tauto.
Qed.

Lemma even_shift a k : Z.even (a + 2 * k) = Z.even a.
Proof. apply Z.even_add_mul_2. Qed.

Lemma even_next a : Z.even (a + 1) = negb (Z.even a).
Proof. rewrite Z.add_1_r, Z.even_succ, Z.negb_even. reflexivity. Qed.

Lemma even_prev a : Z.even (a - 1) = negb (Z.even a).
Proof. rewrite Z.sub_1_r, Z.even_pred, Z.negb_even. reflexivity. Qed.

Lemma on_lattice_step n v k : on_lattice n (v + 2 * k) = on_lattice n v.
Proof.
  unfold on_lattice. replace (v + 2 * k - n `div` 2) with (v - n `div` 2 + 2 * k) by lia.
  apply even_shift.
Qed.

Lemma on_lattice_next n v : on_lattice n (v + 1) = negb (on_lattice n v).
Proof.
  unfold on_lattice. replace (v + 1 - n `div` 2) with (v - n `div` 2 + 1) by lia.
  apply even_next.
Qed.

Lemma on_lattice_prev n v : on_lattice n (v - 1) = negb (on_lattice n v).
Proof.
  unfold on_lattice. replace (v - 1 - n `div` 2) with (v - n `div` 2 - 1) by lia.
  apply even_prev.
Qed.

Lemma on_lattice_centre n : on_lattice n (n `div` 2) = true.
Proof. unfold on_lattice. rewrite Z.sub_diag. reflexivity. Qed.

(** The cell halfway between a room and its neighbour two steps away. *)
Lemma midpoint p d : (d = 2 \/ d = -2 \/ d = 0) -> (p + d + p) `div` 2 = p + d `div` 2.
Proof.
  intros [-> | [-> | ->] ].
  - replace (p + 2 + p) with ((p + 1) * 2) by lia. rewrite Z.div_mul by lia. reflexivity.
  - replace (p + -2 + p) with ((p - 1) * 2) by lia. rewrite Z.div_mul by lia. reflexivity.
  - replace (p + 0 + p) with (p * 2) by lia. rewrite Z.div_mul by lia.
    change (0 `div` 2) with 0. lia.
Qed.

(** ** Counting open cells *)

Lemma is_open_poke n g x y x' y' :
  square n g -> inb n x y -> 0 <= x' -> 0 <= y' ->
  is_open (poke g x y 0) x' y' <-> (x' = x /\ y' = y) \/ is_open g x' y'.
Proof.
  intros Hsq Hin Hx' Hy'. unfold is_open. rewrite (cell_poke n) by done.
  case_decide; naive_solver.
Qed.

Lemma is_wall_poke n g x y x' y' :
  square n g -> inb n x y -> 0 <= x' -> 0 <= y' ->
  is_wall (poke g x y 0) x' y' <-> ~ (x' = x /\ y' = y) /\ is_wall g x' y'.
Proof.
  intros Hsq Hin Hx' Hy'. unfold is_wall. rewrite (cell_poke n) by done.
  case_decide; naive_solver.
Qed.

Lemma count_open_poke n g x y ps :
  square n g -> inb n x y -> is_wall g x y -> NoDup ps ->
  (forall p, p ∈ ps -> 0 <= p.1 /\ 0 <= p.2) ->
  count_open (poke g x y 0) ps =
    (count_open g ps + if decide ((x, y) ∈ ps) then 1 else 0)%nat.
Proof.
  intros Hsq Hin Hwall Hnd Hpos. unfold count_open.
  induction Hnd as [|[qx qy] ps Hq Hnd IH].
  - rewrite decide_False by (apply not_elem_of_nil). reflexivity.
  - destruct (Hpos (qx, qy)) as [Hqx Hqy]; [left|]. simpl in Hqx, Hqy.
    assert (IH' := IH (fun p Hp => Hpos p (list_elem_of_further _ _ _ Hp))).
    rewrite !filter_cons. simpl.
    pose proof (is_open_poke n g x y qx qy Hsq Hin Hqx Hqy) as Hiff.
    assert (Hnot : is_open g x y -> False) by (unfold is_open, is_wall in *; congruence).
    destruct (decide ((x, y) = (qx, qy))) as [Heq|Hne].
    + simplify_eq.
      rewrite (decide_True (P := is_open (poke g qx qy 0) qx qy)) by (apply Hiff; auto).
      rewrite (decide_False (P := is_open g qx qy)) by done.
      rewrite (decide_True (P := (qx, qy) ∈ (qx, qy) :: ps)) by left.
      simpl. rewrite IH'. rewrite decide_False by done. lia.
    + assert (Hsame : is_open (poke g x y 0) qx qy <-> is_open g qx qy).
      { rewrite Hiff. split; [intros [[??]|?]; [congruence|done]|auto]. }
      assert (Htail : (x, y) ∈ (qx, qy) :: ps <-> (x, y) ∈ ps).
      { rewrite elem_of_cons. naive_solver. }
      destruct (decide (is_open g qx qy)) as [Ho|Ho].
      * rewrite decide_True by (apply Hsame; done). simpl. rewrite IH'.
        repeat case_decide; try tauto; lia.
      * rewrite decide_False by (rewrite Hsame; done). rewrite IH'.
        repeat case_decide; try tauto; lia.
Qed.

Lemma poke_open_id n g x y :
  square n g -> inb n x y -> is_open g x y -> poke g x y 0 = g.
Proof.
  intros Hsq [Hx Hy] Hopen. unfold poke, is_open, cell in *.
  destruct (g !! Z.to_nat y) as [row|] eqn:Hrow; simplify_eq/=.
  apply list_eq. intros i. destruct (decide (i = Z.to_nat y)) as [->|Hne].
  - rewrite list_lookup_alter_eq, Hrow. simpl. f_equal. apply list_insert_id. done.
  - apply list_lookup_alter_ne. done.
Qed.

(** ** What every tree-grown grid satisfies *)

Lemma centre_inb n : 0 < n -> inb n (n `div` 2) (n `div` 2).
Proof. intros Hn. unfold inb. Z.div_mod_to_equations. lia. Qed.

Lemma count_open_none g ps :
  (forall p, p ∈ ps -> ~ is_open g p.1 p.2) -> count_open g ps = 0%nat.
Proof.
  intros Hno. unfold count_open. induction ps as [|p ps IH]; [reflexivity|].
  rewrite filter_cons. rewrite decide_False by (apply Hno; left).
  apply IH. intros q Hq. apply Hno. right. done.
Qed.

Lemma rooms_nonneg n p : p ∈ rooms n -> 0 <= p.1 /\ 0 <= p.2.
Proof. destruct p as [x y]. rewrite elem_of_rooms. unfold inb. simpl. lia. Qed.

Lemma passages_nonneg n p : p ∈ passages n -> 0 <= p.1 /\ 0 <= p.2.
Proof. destruct p as [x y]. rewrite elem_of_passages. unfold inb. simpl. lia. Qed.

Lemma room_not_passage n p : room n p = true -> passage n p = true -> False.
Proof. unfold room, passage. destruct (on_lattice n p.1), (on_lattice n p.2); done. Qed.

Lemma tree_facts_root n : 0 < n -> tree_facts n (poke (filled n 1) (n `div` 2) (n `div` 2) 0).
Proof.
  intros Hn. pose proof (centre_inb n Hn) as Hc.
  pose proof (square_filled n 1) as Hsq.
  assert (Hopen : forall x y, inb n x y ->
    is_open (poke (filled n 1) (n `div` 2) (n `div` 2) 0) x y <->
    x = n `div` 2 /\ y = n `div` 2).
  { intros x y Hxy. rewrite (is_open_poke n) by (unfold inb in *; done || lia).
    unfold is_open. rewrite cell_filled by done. naive_solver. }
  split.
  - apply square_poke, Hsq.
  - intros x y Hxy. unfold is_open, is_wall.
    rewrite (cell_poke n) by (unfold inb in *; done || lia).
    rewrite cell_filled by done. case_decide; auto.
  - intros x y Hxy [-> ->]%Hopen; [|done]. left. unfold room. simpl.
    rewrite on_lattice_centre. reflexivity.
  - intros x y Hxy [-> ->]%Hopen Hp; [|done]. exfalso.
    revert Hp. unfold passage. simpl. rewrite on_lattice_centre. done.
  - rewrite (count_open_poke n) by
      first [done | apply cell_filled; done | apply NoDup_rooms | apply rooms_nonneg].
    rewrite (count_open_poke n) by
      first [done | apply cell_filled; done | apply NoDup_passages | apply passages_nonneg].
    rewrite !count_open_none.
    + rewrite decide_True.
      * rewrite decide_False; [reflexivity|].
        rewrite elem_of_passages. intros [Hp _]. revert Hp. unfold passage. simpl.
        rewrite on_lattice_centre. done.
      * rewrite elem_of_rooms. split; [|done]. unfold room. simpl.
        rewrite on_lattice_centre. reflexivity.
    + intros [x y] [_ Hxy]%elem_of_passages. unfold is_open. simpl.
      rewrite cell_filled by done. done.
    + intros [x y] [_ Hxy]%elem_of_rooms. unfold is_open. simpl.
      rewrite cell_filled by done. done.
  - apply Hopen; done.
Qed.

Lemma open_not_wall g x y : is_open g x y -> is_wall g x y -> False.
Proof. unfold is_open, is_wall. congruence. Qed.

(** Closes a goal about a cell with a hypothesis about the same cell written differently. *)
Ltac same_cell H :=
  match type of H with
  | ?P ?g ?a ?b =>
    match goal with
    | |- P g ?a' ?b' => replace a' with a by lia; replace b' with b by lia; exact H
    end
  end.

Section Attach.
Variables (n : Z) (g : grid) (px py hx hy : Z).
Hypothesis Hfacts : tree_facts n g.
Hypothesis Hunit : unit_step hx hy.
Hypothesis Hp_inb : inb n px py.
Hypothesis Hp_room : room n (px, py) = true.
Hypothesis Hp_open : is_open g px py.
Hypothesis Hf_inb : inb n (px + 2 * hx) (py + 2 * hy).
Hypothesis Hf_wall : is_wall g (px + 2 * hx) (py + 2 * hy).

Let fx := px + 2 * hx.
Let fy := py + 2 * hy.
Let mx := px + hx.
Let my := py + hy.
Let g2 := poke (poke g fx fy 0) mx my 0.

Lemma attach_lattice : on_lattice n px = true /\ on_lattice n py = true.
Proof. revert Hp_room. unfold room. simpl. rewrite andb_true_iff. done. Qed.

Lemma attach_mid_inb : inb n mx my.
Proof. unfold inb, mx, my, unit_step in *. lia. Qed.

Lemma attach_mid_passage : passage n (mx, my) = true.
Proof.
  destruct attach_lattice as [Hx Hy]. unfold passage, mx, my. simpl.
  destruct Hunit as [[-> [-> | ->]] | [-> [-> | ->]]];
    rewrite ?Z.add_0_r, ?on_lattice_next, ?Hx, ?Hy; try reflexivity.
  - change (py + -1) with (py - 1). rewrite on_lattice_prev, Hy. reflexivity.
  - change (px + -1) with (px - 1). rewrite on_lattice_prev, Hx. reflexivity.
Qed.

Lemma attach_leaf_room : room n (fx, fy) = true.
Proof.
  destruct attach_lattice as [Hx Hy]. unfold room, fx, fy. simpl.
  rewrite !on_lattice_step, Hx, Hy. reflexivity.
Qed.

Lemma attach_mid_wall : is_wall g mx my.
Proof.
  destruct (tf_bits n g Hfacts mx my attach_mid_inb) as [Ho|Hw]; [exfalso|done].
  destruct attach_lattice as [Hx Hy].
  destruct (tf_ends n g Hfacts mx my attach_mid_inb Ho attach_mid_passage) as [Hh Hv].
  assert (Hgoal : is_open g (px + 2 * hx) (py + 2 * hy)); [|exact (open_not_wall _ _ _ Hgoal Hf_wall)].
  unfold mx, my, fx, fy in *.
  destruct Hunit as [[-> [-> | ->]] | [-> [-> | ->]]].
  - destruct Hv as (_ & _ & _ & Hn); [rewrite on_lattice_next, Hy; reflexivity|].
    same_cell Hn.
  - destruct Hv as (_ & _ & Hn & _);
      [change (py + -1) with (py - 1); rewrite on_lattice_prev, Hy; reflexivity|].
    same_cell Hn.
  - destruct Hh as (_ & _ & _ & Hn); [rewrite on_lattice_next, Hx; reflexivity|].
    same_cell Hn.
  - destruct Hh as (_ & _ & Hn & _);
      [change (px + -1) with (px - 1); rewrite on_lattice_prev, Hx; reflexivity|].
    same_cell Hn.
Qed.

Lemma attach_square1 : square n (poke g fx fy 0).
Proof. apply square_poke, Hfacts. Qed.

Lemma attach_open x y :
  0 <= x -> 0 <= y ->
  is_open g2 x y <-> (x = mx /\ y = my) \/ (x = fx /\ y = fy) \/ is_open g x y.
Proof.
  intros Hx Hy. unfold g2.
  rewrite (is_open_poke n) by first [apply attach_square1 | apply attach_mid_inb | done].
  rewrite (is_open_poke n) by first [apply Hfacts | done]. reflexivity.
Qed.

Lemma attach_wall x y :
  0 <= x -> 0 <= y ->
  is_wall g2 x y <-> ~ (x = mx /\ y = my) /\ ~ (x = fx /\ y = fy) /\ is_wall g x y.
Proof.
  intros Hx Hy. unfold g2.
  rewrite (is_wall_poke n) by first [apply attach_square1 | apply attach_mid_inb | done].
  rewrite (is_wall_poke n) by first [apply Hfacts | done]. reflexivity.
Qed.

Lemma attach_keeps x y : 0 <= x -> 0 <= y -> is_open g x y -> is_open g2 x y.
Proof. intros. apply attach_open; auto. Qed.

Lemma attach_count_rooms : count_open g2 (rooms n) = S (count_open g (rooms n)).
Proof.
  unfold g2.
  rewrite (count_open_poke n) by
    first [apply attach_square1 | apply attach_mid_inb | apply NoDup_rooms
          | apply rooms_nonneg
          | apply (is_wall_poke n); [apply Hfacts|done|apply attach_mid_inb..|];
            split; [unfold fx, fy, mx, my, unit_step in *; lia|apply attach_mid_wall] ].
  rewrite (count_open_poke n) by
    first [apply Hfacts | done | apply NoDup_rooms | apply rooms_nonneg].
  rewrite (decide_False (P := (mx, my) ∈ rooms n)).
  - rewrite decide_True; [lia|]. rewrite elem_of_rooms. split; [apply attach_leaf_room|done].
  - rewrite elem_of_rooms. intros [Hr _].
    exact (room_not_passage n _ Hr attach_mid_passage).
Qed.

Lemma attach_count_passages : count_open g2 (passages n) = S (count_open g (passages n)).
Proof.
  unfold g2.
  rewrite (count_open_poke n) by
    first [apply attach_square1 | apply attach_mid_inb | apply NoDup_passages
          | apply passages_nonneg
          | apply (is_wall_poke n); [apply Hfacts|done|apply attach_mid_inb..|];
            split; [unfold fx, fy, mx, my, unit_step in *; lia|apply attach_mid_wall] ].
  rewrite (count_open_poke n) by
    first [apply Hfacts | done | apply NoDup_passages | apply passages_nonneg].
  rewrite (decide_True (P := (mx, my) ∈ passages n)).
  - rewrite decide_False; [lia|]. rewrite elem_of_passages. intros [Hr _].
    exact (room_not_passage n _ attach_leaf_room Hr).
  - rewrite elem_of_passages. split; [apply attach_mid_passage|apply attach_mid_inb].
Qed.

End Attach.

Lemma tree_facts_attach n g px py hx hy :
  tree_facts n g -> unit_step hx hy ->
  inb n px py -> room n (px, py) = true -> is_open g px py ->
  inb n (px + 2 * hx) (py + 2 * hy) -> is_wall g (px + 2 * hx) (py + 2 * hy) ->
  tree_facts n (poke (poke g (px + 2 * hx) (py + 2 * hy) 0) (px + hx) (py + hy) 0).
Proof.
  intros Hfacts Hunit Hp_inb Hp_room Hp_open Hf_inb Hf_wall.
  assert (Hopen := fun x y => attach_open n g px py hx hy Hfacts Hunit Hp_inb Hf_inb x y).
  assert (Hwall := fun x y => attach_wall n g px py hx hy Hfacts Hunit Hp_inb Hf_inb x y).
  assert (Hm_inb : inb n (px + hx) (py + hy))
    by (apply (attach_mid_inb n px py hx hy); assumption).
  assert (Hm_pass : passage n (px + hx, py + hy) = true)
    by (apply (attach_mid_passage n g px py hx hy); assumption).
  assert (Hf_room : room n (px + 2 * hx, py + 2 * hy) = true)
    by (apply (attach_leaf_room n px py hx hy); assumption).
  split.
  - apply square_poke, square_poke, Hfacts.
  - intros x y Hxy.
    assert (0 <= x /\ 0 <= y) as [Hx Hy] by (unfold inb in Hxy; lia).
    rewrite Hopen, Hwall by done.
    destruct (tf_bits n g Hfacts x y Hxy) as [?|?]; [tauto|].
    destruct (decide (x = px + hx /\ y = py + hy)); [tauto|].
    destruct (decide (x = px + 2 * hx /\ y = py + 2 * hy)); tauto.
  - intros x y Hxy.
    assert (0 <= x /\ 0 <= y) as [Hx Hy] by (unfold inb in Hxy; lia).
    rewrite Hopen by done. intros [[-> ->]|[[-> ->]|Ho]]; [tauto|tauto|].
    apply (tf_shape n g Hfacts); done.
  - intros x y Hxy.
    assert (0 <= x /\ 0 <= y) as [Hx Hy] by (unfold inb in Hxy; lia).
    rewrite Hopen by done. intros [[-> ->]|[[-> ->]|Ho]] Hpass.
    + destruct (attach_lattice n px py Hp_room) as [Lx Ly].
      unfold inb, unit_step in *.
      destruct Hunit as [[-> [-> | ->]] | [-> [-> | ->]]]; split; intros Hl;
        try (rewrite ?Z.add_0_r, ?on_lattice_next in Hl;
             rewrite ?Lx, ?Ly in Hl; discriminate Hl);
        try (change (py + -1) with (py - 1) in Hl; rewrite on_lattice_prev, Ly in Hl;
             discriminate Hl);
        try (change (px + -1) with (px - 1) in Hl; rewrite on_lattice_prev, Lx in Hl;
             discriminate Hl);
        (split; [lia|split; [lia|split; apply Hopen; try lia]]).
      all: right; right; same_cell Hp_open.
    + exfalso. exact (room_not_passage n _ Hf_room Hpass).
    + destruct (tf_ends n g Hfacts x y Hxy Ho Hpass) as [Hh Hv].
      split; intros Hl; [destruct (Hh Hl) as (?&?&?&?)|destruct (Hv Hl) as (?&?&?&?)];
        (split; [done|split; [done|split; apply Hopen; unfold inb in *; try lia; auto]]).
  - rewrite (attach_count_rooms n g px py hx hy), (attach_count_passages n g px py hx hy)
      by assumption.
    rewrite (tf_count n g Hfacts). reflexivity.
  - apply Hopen; try (pose proof (tf_square n g Hfacts); Z.div_mod_to_equations; unfold inb in *; lia).
    right; right. apply Hfacts.
Qed.

Lemma tree_grid_facts n g : 0 < n -> tree_grid n g -> tree_facts n g.
Proof.
  intros Hn Htree. induction Htree as [|g fx fy px py dx dy Htree IH Hd -> -> Hp Hr Ho Hf Hw].
  - apply tree_facts_root. done.
  - assert (exists hx hy, unit_step hx hy /\ dx = 2 * hx /\ dy = 2 * hy) as (hx & hy & Hu & -> & ->).
    { apply DIRS_cases in Hd. unfold unit_step.
      destruct Hd as [[-> ->]|[[-> ->]|[[-> ->]|[-> ->]]]];
        [exists 0, 1|exists 1, 0|exists 0, (-1)|exists (-1), 0]; lia. }
    replace ((px + 2 * hx + px) `div` 2) with (px + hx)
      by (replace (px + 2 * hx + px) with ((px + hx) * 2) by lia; rewrite Z.div_mul; lia).
    replace ((py + 2 * hy + py) `div` 2) with (py + hy)
      by (replace (py + 2 * hy + py) with ((py + hy) * 2) by lia; rewrite Z.div_mul; lia).
    apply tree_facts_attach; done.
Qed.

(** ** Every open room of a tree-grown grid is joined to the centre *)

Lemma linked_inb n g x y : 0 < n -> linked n g x y -> inb n x y.
Proof. intros Hn [|]; [apply centre_inb|]; done. Qed.

Lemma linked_mono n g g' x y :
  0 < n ->
  (forall a b, 0 <= a -> 0 <= b -> is_open g a b -> is_open g' a b) ->
  linked n g x y -> linked n g' x y.
Proof.
  intros Hn Hmono Hl. induction Hl as [Hc|px py dx dy Hl IH Hd Hin Hm Hf].
  - apply linked_centre. pose proof (centre_inb n Hn). unfold inb in *. apply Hmono; [lia..|done].
  - pose proof (linked_inb n g px py Hn Hl) as Hp.
    apply linked_step; [done..| |]; apply Hmono; try done;
      apply DIRS_cases in Hd; unfold inb in *;
      destruct Hd as [[-> ->]|[[-> ->]|[[-> ->]|[-> ->]]]];
      Z.div_mod_to_equations; lia.
Qed.

Lemma tree_grid_linked n g x y :
  0 < n -> tree_grid n g ->
  inb n x y -> room n (x, y) = true -> is_open g x y -> linked n g x y.
Proof.
  intros Hn Htree. revert x y.
  induction Htree as [|g fx fy px py dx dy Htree IH Hd -> -> Hp Hr Ho Hf Hw];
    intros x y Hxy Hroom Hopen.
  - pose proof (centre_inb n Hn) as Hc.
    assert (x = n `div` 2 /\ y = n `div` 2) as [-> ->].
    { apply (is_open_poke n) in Hopen; try (apply square_filled || done || (unfold inb in *; lia)).
      destruct Hopen as [?|Ho]; [done|]. unfold is_open in Ho.
      rewrite cell_filled in Ho by done. done. }
    apply linked_centre. done.
  - pose proof (tree_grid_facts n g Hn Htree) as Hfacts.
    assert (exists hx hy, unit_step hx hy /\ dx = 2 * hx /\ dy = 2 * hy) as (hx & hy & Hu & Hdx & Hdy).
    { pose proof (DIRS_cases _ _ Hd) as Hc. unfold unit_step.
      destruct Hc as [[-> ->]|[[-> ->]|[[-> ->]|[-> ->]]]];
        [exists 0, 1|exists 1, 0|exists 0, (-1)|exists (-1), 0]; lia. }
    assert (Hmx : (px + dx + px) `div` 2 = px + hx)
      by (subst dx; replace (px + 2 * hx + px) with ((px + hx) * 2) by lia; rewrite Z.div_mul; lia).
    assert (Hmy : (py + dy + py) `div` 2 = py + hy)
      by (subst dy; replace (py + 2 * hy + py) with ((py + hy) * 2) by lia; rewrite Z.div_mul; lia).
    assert (Hhx : dx `div` 2 = hx) by (subst dx; rewrite Z.mul_comm, Z.div_mul; lia).
    assert (Hhy : dy `div` 2 = hy) by (subst dy; rewrite Z.mul_comm, Z.div_mul; lia).
    rewrite Hmx, Hmy in *.
    assert (Hf' : inb n (px + 2 * hx) (py + 2 * hy)) by (subst; done).
    assert (Hw' : is_wall g (px + 2 * hx) (py + 2 * hy)) by (subst; done).
    assert (Hopen2 := fun a b => attach_open n g px py hx hy Hfacts Hu Hp Hf' a b).
    assert (Hmono : forall a b, 0 <= a -> 0 <= b -> is_open g a b ->
      is_open (poke (poke g (px + dx) (py + dy) 0) (px + hx) (py + hy) 0) a b).
    { intros a b Ha Hb Hab. subst dx dy. apply Hopen2; auto. }
    assert (0 <= x /\ 0 <= y) as [Hx0 Hy0] by (unfold inb in *; lia).
    subst dx dy.
    apply Hopen2 in Hopen; [|done..].
    destruct Hopen as [[-> ->]|[[-> ->]|Hold]].
    + exfalso. apply (room_not_passage n _ Hroom).
      apply (attach_mid_passage n g px py hx hy); done.
    + apply linked_step; [|done|done|rewrite Hhx, Hhy|].
      * apply (linked_mono n g); [done|done|]. apply IH; done.
      * apply Hopen2; unfold inb, unit_step in *; [lia..|]. left. done.
      * apply Hopen2; unfold inb in *; [lia..|]. right. left. done.
    + apply (linked_mono n g); [done|done|]. apply IH; done.
Qed.

(** ** The growth loop *)

Lemma randint_range rand k a b :
  a <= b -> exists j, randint rand k a b = Ok j /\ a <= j <= b.
Proof.
  intros Hab. unfold randint. rewrite bool_decide_true by done.
  eexists. split; [reflexivity|].
  pose proof (Z.mod_pos_bound (Z.of_nat (rand k)) (b - a + 1)). lia.
Qed.

Lemma pop_inb {A} (l : list A) j :
  0 <= j < Z.of_nat (length l) ->
  exists e, l !! Z.to_nat j = Some e /\ pop l j = Ok (e, delete (Z.to_nat j) l).
Proof.
  intros Hj. unfold pop. rewrite py_index_nonneg by lia.
  rewrite bool_decide_true by lia. rsimpl.
  destruct (lookup_lt_is_Some_2 l (Z.to_nat j)) as [e He]; [lia|].
  rewrite He. eauto.
Qed.

Lemma in_range_both n x y : in_range n x && in_range n y = true <-> inb n x y.
Proof.
  unfold in_range, inb. rewrite andb_true_iff, !bool_decide_eq_true. done.
Qed.

Lemma getitem2_bits n g x y :
  square n g -> (forall a b, inb n a b -> is_open g a b \/ is_wall g a b) ->
  inb n x y ->
  (getitem2 g y x = Ok 0 /\ is_open g x y) \/ (getitem2 g y x = Ok 1 /\ is_wall g x y).
Proof.
  intros Hsq Hbits Hxy. rewrite getitem2_nonneg by (unfold inb in *; lia).
  destruct (Hbits x y Hxy) as [H|H]; [left|right]; unfold is_open, is_wall in *;
    rewrite H; done.
Qed.

Lemma push_neighbours_spec n g fx fy :
  square n g -> (forall a b, inb n a b -> is_open g a b \/ is_wall g a b) ->
  forall ds fr, exists news,
    for_each ds (push_neighbour n g fx fy) fr = Ok (fr ++ news) /\
    (length news <= length ds)%nat /\
    (forall e, e ∈ news -> exists dx dy,
        (dx, dy) ∈ ds /\ e = (fx + dx, fy + dy, fx, fy) /\ inb n (fx + dx) (fy + dy)) /\
    (forall dx dy, (dx, dy) ∈ ds -> inb n (fx + dx) (fy + dy) ->
        is_open g (fx + dx) (fy + dy) \/ (fx + dx, fy + dy, fx, fy) ∈ news).
Proof.
  intros Hsq Hbits. induction ds as [|[dx dy] ds IH]; intros fr.
  - exists []. simpl. rewrite app_nil_r. split_and!; [done|lia| |].
    + intros e He. apply elem_of_nil in He. done.
    + intros ?? He. apply elem_of_nil in He. done.
  - simpl.
    destruct (in_range n (fx + dx) && in_range n (fy + dy)) eqn:Hin.
    + apply in_range_both in Hin.
      destruct (getitem2_bits n g _ _ Hsq Hbits Hin) as [[-> Ho]|[-> Hw]]; rsimpl.
      * rewrite bool_decide_false by done. rsimpl.
        destruct (IH fr) as (news & -> & Hlen & Hsrc & Hall).
        exists news. split_and!; [done|lia| |].
        -- intros e He. destruct (Hsrc e He) as (a & b & ? & ? & ?).
           exists a, b. split_and!; [right|..]; done.
        -- intros a b [Heq|Hd]%elem_of_cons Hab; [simplify_eq; auto|]. apply Hall; done.
      * rewrite bool_decide_true by done. rsimpl.
        destruct (IH (fr ++ [(fx + dx, fy + dy, fx, fy)])) as (news & -> & Hlen & Hsrc & Hall).
        exists ((fx + dx, fy + dy, fx, fy) :: news). rewrite <- app_assoc. simpl.
        split_and!; [done|lia| |].
        -- intros e [->|He]%elem_of_cons.
           ++ exists dx, dy. split_and!; [left|..]; done.
           ++ destruct (Hsrc e He) as (a & b & ? & ? & ?).
              exists a, b. split_and!; [right|..]; done.
        -- intros a b [Heq|Hd]%elem_of_cons Hab.
           ++ simplify_eq. right. left.
           ++ destruct (Hall a b Hd Hab); [auto|]. right. right. done.
    + rsimpl. destruct (IH fr) as (news & -> & Hlen & Hsrc & Hall).
      exists news. split_and!; [done|lia| |].
      * intros e He. destruct (Hsrc e He) as (a & b & ? & ? & ?).
        exists a, b. split_and!; [right|..]; done.
      * intros a b [Heq|Hd]%elem_of_cons Hab.
        -- simplify_eq. apply in_range_both in Hab. congruence.
        -- apply Hall; done.
Qed.

Lemma seed_frontiers_spec n sx sy :
  forall ds fr, exists news,
    foldl (seed_frontier n sx sy) fr ds = fr ++ news /\
    (length news <= length ds)%nat /\
    (forall e, e ∈ news -> exists dx dy,
        (dx, dy) ∈ ds /\ e = (sx + dx, sy + dy, sx, sy) /\ inb n (sx + dx) (sy + dy)) /\
    (forall dx dy, (dx, dy) ∈ ds -> inb n (sx + dx) (sy + dy) ->
        (sx + dx, sy + dy, sx, sy) ∈ news).
Proof.
  induction ds as [|[dx dy] ds IH]; intros fr.
  - exists []. simpl. rewrite app_nil_r. split_and!; [done|lia| |].
    + intros e He. apply elem_of_nil in He. done.
    + intros ?? He. apply elem_of_nil in He. done.
  - simpl. destruct (in_range n (sx + dx) && in_range n (sy + dy)) eqn:Hin.
    + apply in_range_both in Hin.
      destruct (IH (fr ++ [(sx + dx, sy + dy, sx, sy)])) as (news & -> & Hlen & Hsrc & Hall).
      exists ((sx + dx, sy + dy, sx, sy) :: news). rewrite <- app_assoc. simpl.
      split_and!; [done|lia| |].
      * intros e [->|He]%elem_of_cons.
        -- exists dx, dy. split_and!; [left|..]; done.
        -- destruct (Hsrc e He) as (a & b & ? & ? & ?).
           exists a, b. split_and!; [right|..]; done.
      * intros a b [Heq|Hd]%elem_of_cons Hab.
        -- simplify_eq. left.
        -- right. apply Hall; done.
    + destruct (IH fr) as (news & -> & Hlen & Hsrc & Hall).
      exists news. split_and!; [done|lia| |].
      * intros e He. destruct (Hsrc e He) as (a & b & ? & ? & ?).
        exists a, b. split_and!; [right|..]; done.
      * intros a b [Heq|Hd]%elem_of_cons Hab.
        -- simplify_eq. apply in_range_both in Hab. congruence.
        -- apply Hall; done.
Qed.

Lemma DIRS_unit dx dy :
  (dx, dy) ∈ DIRS -> exists hx hy, unit_step hx hy /\ dx = 2 * hx /\ dy = 2 * hy.
Proof.
  intros Hd. apply DIRS_cases in Hd. unfold unit_step.
  destruct Hd as [[-> ->]|[[-> ->]|[[-> ->]|[-> ->]]]];
    [exists 0, 1|exists 1, 0|exists 0, (-1)|exists (-1), 0]; lia.
Qed.

Lemma half_sum p h : (p + 2 * h + p) `div` 2 = p + h.
Proof. replace (p + 2 * h + p) with ((p + h) * 2) by lia. rewrite Z.div_mul; lia. Qed.

Lemma frontier_ok_mono n g g' e :
  (forall a b, 0 <= a -> 0 <= b -> is_open g a b -> is_open g' a b) ->
  frontier_ok n g e -> frontier_ok n g' e.
Proof.
  intros Hmono. destruct e as [[[fx fy] px] py].
  intros (dx & dy & Hd & -> & -> & Hp & Hr & Ho & Hf).
  exists dx, dy. split_and!; try done. apply Hmono; [unfold inb in *; lia..|done].
Qed.

Lemma elem_of_delete_or {A} (l : list A) i e x :
  l !! i = Some e -> x ∈ l -> x = e \/ x ∈ delete i l.
Proof.
  intros Hi [i' Hx]%list_elem_of_lookup.
  destruct (decide (i' = i)) as [->|Hne]; [left; congruence|right].
  apply list_elem_of_lookup. destruct (decide (i' < i)%nat).
  - exists i'. rewrite list_lookup_delete_lt by done. done.
  - exists (i' - 1)%nat. rewrite list_lookup_delete_ge by lia.
    replace (S (i' - 1)) with i' by lia. done.
Qed.

Lemma grow_unfold fuel rand k size maze frontiers :
  frontiers <> [] ->
  grow (S fuel) rand k size maze frontiers =
    (j ← randint rand k 0 (Z.of_nat (length frontiers) - 1);
     '(fx, fy, px, py, frontiers) ← pop frontiers j;
     c ← getitem2 maze fy fx;
     if bool_decide (c = 1) then
       maze ← setitem2 maze fy fx 0;
       maze ← setitem2 maze ((fy + py) `div` 2) ((fx + px) `div` 2) 0;
       frontiers ← push_neighbours size maze fx fy frontiers;
       grow fuel rand (S k) size maze frontiers
     else grow fuel rand (S k) size maze frontiers).
Proof. destruct frontiers; [done|reflexivity]. Qed.

Lemma count_open_le g ps : (count_open g ps <= length ps)%nat.
Proof. apply length_filter. Qed.

Lemma grow_returns n rand :
  0 < n ->
  forall fuel k g fr,
    tree_grid n g -> Forall (frontier_ok n g) fr -> closed n g fr ->
    (potential n g fr < fuel)%nat ->
    exists g', grow fuel rand k n g fr = Ok g' /\ tree_grid n g' /\ closed n g' [].
Proof.
  intros Hn. induction fuel as [|fuel IH]; intros k g fr Htree Hfr Hcl Hpot; [lia|].
  destruct (decide (fr = [])) as [->|Hne]; [simpl; eauto|].
  rewrite grow_unfold by done.
  assert (0 < Z.of_nat (length fr)) as Hlen by (destruct fr; [done|simpl; lia]).
  destruct (randint_range rand k 0 (Z.of_nat (length fr) - 1)) as (j & -> & Hj); [lia|]. rsimpl.
  destruct (pop_inb fr j) as ([[[fx fy] px] py] & He & ->); [lia|]. rsimpl.
  pose proof (tree_grid_facts n g Hn Htree) as Hfacts.
  pose proof (proj1 (Forall_lookup _ _) Hfr _ _ He) as Hok.
  destruct Hok as (dx & dy & Hd & -> & -> & Hp & Hr & Ho & Hf).
  destruct (getitem2_bits n g _ _ (tf_square _ _ Hfacts) (tf_bits _ _ Hfacts) Hf)
    as [[-> Hfo]|[-> Hfw]]; rsimpl.
  - (* the cell was carved meanwhile: the entry is dropped *)
    rewrite bool_decide_false by done.
    apply IH; [done| | |].
    + apply Forall_delete. done.
    + intros x y ex ey Hxy Hroom Hopen Hex Hin.
      destruct (Hcl x y ex ey Hxy Hroom Hopen Hex Hin) as [?|(qx & qy & Hq)]; [auto|].
      destruct (elem_of_delete_or _ _ _ _ He Hq) as [Heq|?]; [|eauto].
      injection Heq as E1 E2 _ _. left. rewrite E1, E2. done.
    + unfold potential in *. rewrite length_delete by eauto. lia.
  - (* the cell is carved and hung on its parent *)
    rewrite bool_decide_true by done.
    rewrite (setitem2_inb n) by (apply Hfacts || done). rsimpl.
    destruct (DIRS_unit dx dy Hd) as (hx & hy & Hu & -> & ->).
    rewrite !half_sum.
    assert (Hm : inb n (px + hx) (py + hy)) by (unfold inb, unit_step in *; lia).
    rewrite (setitem2_inb n) by (apply square_poke, Hfacts || done). rsimpl.
    set (g2 := poke (poke g (px + 2 * hx) (py + 2 * hy) 0) (px + hx) (py + hy) 0).
    assert (Htree2 : tree_grid n g2).
    { unfold g2. rewrite <- (half_sum px hx), <- (half_sum py hy).
      eapply tree_leaf; eauto. }
    pose proof (tree_grid_facts n g2 Hn Htree2) as Hfacts2.
    assert (Hopen2 := fun a b => attach_open n g px py hx hy Hfacts Hu Hp Hf a b).
    fold g2 in Hopen2.
    assert (Hmono : forall a b, 0 <= a -> 0 <= b -> is_open g a b -> is_open g2 a b)
      by (intros; apply Hopen2; auto).
    assert (Hfroom : room n (px + 2 * hx, py + 2 * hy) = true)
      by (apply (attach_leaf_room n px py hx hy); done).
    assert (Hfopen : is_open g2 (px + 2 * hx) (py + 2 * hy))
      by (apply Hopen2; unfold inb in *; [lia..|auto]).
    unfold push_neighbours.
    destruct (push_neighbours_spec n g2 (px + 2 * hx) (py + 2 * hy)
                (tf_square _ _ Hfacts2) (tf_bits _ _ Hfacts2) DIRS
                (delete (Z.to_nat j) fr)) as (news & -> & Hnlen & Hsrc & Hall).
    rsimpl. apply IH; [done| | |].
    + apply Forall_app. split.
      * apply Forall_delete. eapply Forall_impl; [exact Hfr|].
        intros e. apply frontier_ok_mono. done.
      * apply Forall_forall. intros e (ex & ey & Hex & -> & Hin)%Hsrc.
        exists ex, ey. split_and!; done.
    + intros x y ex ey Hxy Hroom Hopen Hex Hin.
      assert (0 <= x /\ 0 <= y) as [Hx0 Hy0] by (unfold inb in *; lia).
      apply Hopen2 in Hopen; [|done..].
      destruct Hopen as [[-> ->]|[[-> ->]|Hold]].
      * exfalso. apply (room_not_passage n _ Hroom).
        apply (attach_mid_passage n g px py hx hy); done.
      * destruct (Hall ex ey Hex Hin) as [?|Hnew]; [auto|].
        right. eexists _, _. apply elem_of_app. right. exact Hnew.
      * destruct (Hcl x y ex ey Hxy Hroom Hold Hex Hin) as [?|(qx & qy & Hq)].
        -- left. apply Hmono; [unfold inb in *; lia..|done].
        -- destruct (elem_of_delete_or _ _ _ _ He Hq) as [Heq|?].
           ++ injection Heq as E1 E2 _ _. left. rewrite E1, E2. done.
           ++ right. exists qx, qy. apply elem_of_app. left. done.
    + unfold potential in *. rewrite length_app, length_delete by eauto.
      assert (count_open g2 (rooms n) = S (count_open g (rooms n))) as Hc
        by (apply (attach_count_rooms n g px py hx hy); done).
      pose proof (count_open_le g2 (rooms n)). simpl in Hnlen. lia.
Qed.

(** ** A finished growth reaches every room *)

Ltac in_dirs :=
  unfold DIRS; repeat first [apply list_elem_of_here | apply list_elem_of_further].

Lemma on_lattice_even n v : on_lattice n v = true -> exists k, v = n `div` 2 + 2 * k.
Proof.
  unfold on_lattice. intros [k Hk]%Z.even_spec. exists k. lia.
Qed.

Lemma closed_spans n g :
  0 < n -> is_open g (n `div` 2) (n `div` 2) -> closed n g [] ->
  forall x y, inb n x y -> room n (x, y) = true -> is_open g x y.
Proof.
  intros Hn Hc Hcl.
  pose proof (centre_inb n Hn) as Hci.
  assert (Hind : forall m : nat, forall x y, inb n x y -> room n (x, y) = true ->
    Z.abs (x - n `div` 2) + Z.abs (y - n `div` 2) <= 2 * Z.of_nat m -> is_open g x y).
  { induction m as [|m IH]; intros x y Hxy Hroom Hdist.
    - replace x with (n `div` 2) by lia. replace y with (n `div` 2) by lia. done.
    - pose proof Hroom as Hroom'. unfold room in Hroom'. simpl in Hroom'.
      apply andb_true_iff in Hroom' as [Lx Ly].
      destruct (on_lattice_even n x Lx) as [kx Hkx].
      destruct (on_lattice_even n y Ly) as [ky Hky].
      set (c := n `div` 2) in *. unfold inb in *.
      assert (Hmove : forall x' y' dx dy,
        (dx, dy) ∈ DIRS -> x = x' + dx -> y = y' + dy ->
        (0 <= x' < n /\ 0 <= y' < n) -> room n (x', y') = true ->
        Z.abs (x' - c) + Z.abs (y' - c) <= 2 * Z.of_nat m -> is_open g x y).
      { intros x' y' dx dy Hd -> -> Hin' Hroom'' Hd'.
        destruct (Hcl x' y' dx dy) as [?|(? & ? & Hnil)]; try done.
        - apply IH; done.
        - apply elem_of_nil in Hnil. done. }
      destruct (decide (kx = 0)) as [->|Hkx0].
      + destruct (decide (ky = 0)) as [->|Hky0].
        * replace x with c by lia. replace y with c by lia. done.
        * destruct (decide (0 < ky)).
          -- apply (Hmove x (y - 2) 0 2); [in_dirs|lia|lia|lia| |lia].
             unfold room. simpl. rewrite Lx. replace (y - 2) with (y + 2 * -1) by lia.
             rewrite on_lattice_step, Ly. reflexivity.
          -- apply (Hmove x (y + 2) 0 (-2)); [in_dirs|lia|lia|lia| |lia].
             unfold room. simpl. rewrite Lx. replace (y + 2) with (y + 2 * 1) by lia.
             rewrite on_lattice_step, Ly. reflexivity.
      + destruct (decide (0 < kx)).
        * apply (Hmove (x - 2) y 2 0); [in_dirs|lia|lia|lia| |lia].
          unfold room. simpl. rewrite Ly. replace (x - 2) with (x + 2 * -1) by lia.
          rewrite on_lattice_step, Lx. reflexivity.
        * apply (Hmove (x + 2) y (-2) 0); [in_dirs|lia|lia|lia| |lia].
          unfold room. simpl. rewrite Ly. replace (x + 2) with (x + 2 * 1) by lia.
          rewrite on_lattice_step, Lx. reflexivity. }
  intros x y Hxy Hroom.
  apply (Hind (Z.to_nat (Z.abs (x - n `div` 2) + Z.abs (y - n `div` 2)))); [done..|lia].
Qed.

(** ** The start of the growth *)

Lemma length_bind_const {A B} (f : A -> list B) (m : nat) (l : list A) :
  (forall x, length (f x) = m) -> length (l ≫= f) = (length l * m)%nat.
Proof.
  intros Hf. induction l as [|x l IH]; [reflexivity|].
  csimpl. rewrite length_app, IH, Hf. reflexivity.
Qed.

Lemma length_cells n : length (cells n) = (Z.to_nat n * Z.to_nat n)%nat.
Proof.
  unfold cells. rewrite (length_bind_const _ (Z.to_nat n)).
  - rewrite length_seqZ. reflexivity.
  - intros y. rewrite (length_bind_const _ 1%nat) by done.
    rewrite length_seqZ. lia.
Qed.

Lemma length_rooms_le n : (length (rooms n) <= Z.to_nat n * Z.to_nat n)%nat.
Proof. rewrite <- length_cells. apply length_filter. Qed.

Lemma root_frontiers_ok n :
  0 < n ->
  let c := n `div` 2 in
  let g := poke (filled n 1) c c 0 in
  Forall (frontier_ok n g) (seed_frontiers n c c) /\
  closed n g (seed_frontiers n c c) /\
  (potential n g (seed_frontiers n c c) < growth_budget n)%nat.
Proof.
  intros Hn c g.
  pose proof (tree_facts_root n Hn) as Hfacts. fold c in Hfacts. fold g in Hfacts.
  pose proof (centre_inb n Hn) as Hc. fold c in Hc.
  unfold seed_frontiers.
  destruct (seed_frontiers_spec n c c DIRS []) as (news & -> & Hlen & Hsrc & Hall).
  simpl. split_and!.
  - apply Forall_forall. intros e (dx & dy & Hd & -> & Hin)%Hsrc.
    exists dx, dy. split_and!; try done.
    + unfold room. simpl. unfold c. rewrite on_lattice_centre. reflexivity.
    + apply Hfacts.
  - intros x y dx dy Hxy Hroom Hopen Hd Hin.
    assert (x = c /\ y = c) as [-> ->].
    { unfold g in Hopen.
      apply (is_open_poke n) in Hopen;
        try (apply square_filled || done || (unfold inb in *; lia)).
      destruct Hopen as [?|Ho]; [done|]. unfold is_open in Ho.
      rewrite cell_filled in Ho by done. done. }
    right. exists c, c. apply Hall; done.
  - unfold potential, growth_budget.
    pose proof (tf_count n g Hfacts). pose proof (count_open_le g (rooms n)).
    pose proof (length_rooms_le n). simpl in Hlen. nia.
Qed.

Lemma grown_maze n rand :
  0 < n ->
  exists g0,
    grow (growth_budget n) rand 0 n (poke (filled n 1) (n `div` 2) (n `div` 2) 0)
         (seed_frontiers n (n `div` 2) (n `div` 2)) = Ok g0 /\
    tree_grid n g0 /\
    (forall x y, inb n x y -> room n (x, y) = true -> is_open g0 x y).
Proof.
  intros Hn. destruct (root_frontiers_ok n Hn) as (Hfr & Hcl & Hpot).
  destruct (grow_returns n rand Hn (growth_budget n) 0%nat _ _
              (tree_root n) Hfr Hcl Hpot) as (g0 & Hg & Htree & Hcl0).
  exists g0. split_and!; [done..|].
  apply closed_spans; [done| |done]. apply (tree_grid_facts n g0 Hn Htree).
Qed.

(** ** The forced entrance and exit *)

Lemma odd_centre n : Z.odd n = true -> n = 2 * (n `div` 2) + 1.
Proof.
  intros [k Hk]%Z.odd_spec. Z.div_mod_to_equations. lia.
Qed.

Lemma ends_lattice n : Z.odd n = true -> on_lattice n (n - 2) = on_lattice n 1.
Proof.
  intros Hodd. pose proof (odd_centre n Hodd) as Hn. unfold on_lattice.
  replace (n - 2 - n `div` 2) with (- (1 - n `div` 2)) by lia.
  apply Z.even_opp.
Qed.

Lemma carve_ends_inb n g :
  2 <= n -> square n g -> carve_ends n g = Ok (poke (poke g 1 1 0) (n - 2) (n - 2) 0).
Proof.
  intros Hn Hsq. unfold carve_ends.
  rewrite (setitem2_inb n) by first [done | unfold inb; lia]. rsimpl.
  rewrite (setitem2_inb n) by first [apply square_poke; done | unfold inb; lia]. reflexivity.
Qed.

Lemma carve_ends_open n g :
  2 <= n -> square n g ->
  is_open (poke (poke g 1 1 0) (n - 2) (n - 2) 0) 1 1 /\
  is_open (poke (poke g 1 1 0) (n - 2) (n - 2) 0) (n - 2) (n - 2).
Proof.
  intros Hn Hsq. split.
  - apply (is_open_poke n); [apply square_poke; done|unfold inb; lia|lia|lia|].
    right. apply (is_open_poke n); [done|unfold inb; lia|lia|lia|]. left. done.
  - apply (is_open_poke n); [apply square_poke; done|unfold inb; lia|lia|lia|].
    left. done.
Qed.

(** The forced carve changes neither count: each end is either a room that
    the growth already opened, or a pillar, which is neither room nor
    passage. *)
Lemma carve_ends_count n g :
  Z.odd n = true -> 5 <= n -> tree_grid n g ->
  (forall a b, inb n a b -> room n (a, b) = true -> is_open g a b) ->
  count_open (poke (poke g 1 1 0) (n - 2) (n - 2) 0) (rooms n) = count_open g (rooms n) /\
  count_open (poke (poke g 1 1 0) (n - 2) (n - 2) 0) (passages n) =
    count_open g (passages n).
Proof.
  intros Hodd Hn Htree Hspan.
  assert (0 < n) as Hpos by lia.
  pose proof (tree_grid_facts n g Hpos Htree) as Hfacts.
  assert (H11 : inb n 1 1) by (unfold inb; lia).
  assert (Hee : inb n (n - 2) (n - 2)) by (unfold inb; lia).
  destruct (on_lattice n 1) eqn:L1.
  - (* both ends are rooms, open since the growth reached them *)
    assert (Ho1 : is_open g 1 1)
      by (apply Hspan; [done|]; unfold room; simpl; rewrite L1; reflexivity).
    rewrite (poke_open_id n g 1 1) by first [apply Hfacts | done].
    rewrite (poke_open_id n g (n - 2) (n - 2)); [done|apply Hfacts|done|].
    apply Hspan; [done|]. unfold room. simpl. rewrite ends_lattice, L1 by done. reflexivity.
  - (* both ends are pillars *)
    assert (Hw1 : is_wall g 1 1).
    { destruct (tf_bits n g Hfacts 1 1 H11) as [Ho|?]; [|done].
      destruct (tf_shape n g Hfacts 1 1 H11 Ho) as [Hr|Hp];
        [unfold room in Hr|unfold passage in Hp]; simpl in *; rewrite L1 in *; done. }
    assert (Hwe : is_wall (poke g 1 1 0) (n - 2) (n - 2)).
    { apply (is_wall_poke n); [apply Hfacts|done|lia|lia|]. split; [lia|].
      destruct (tf_bits n g Hfacts _ _ Hee) as [Ho|?]; [|done].
      destruct (tf_shape n g Hfacts _ _ Hee Ho) as [Hr|Hp];
        [unfold room in Hr|unfold passage in Hp]; simpl in *;
        rewrite ends_lattice, L1 in * by done; done. }
    rewrite !(count_open_poke n (poke g 1 1 0)) by
      first [apply square_poke, Hfacts | done | apply NoDup_rooms | apply rooms_nonneg
            | apply NoDup_passages | apply passages_nonneg].
    rewrite !(count_open_poke n g) by
      first [apply Hfacts | done | apply NoDup_rooms | apply rooms_nonneg
            | apply NoDup_passages | apply passages_nonneg].
    rewrite !decide_False; [lia|..]; rewrite ?elem_of_rooms, ?elem_of_passages;
      unfold room, passage; simpl; rewrite ?ends_lattice, ?L1 by done; intros [? _]; done.
Qed.

Lemma generate_body_returns n rand :
  5 <= n ->
  exists g0,
    grow (growth_budget n) rand 0 n (poke (filled n 1) (n `div` 2) (n `div` 2) 0)
         (seed_frontiers n (n `div` 2) (n `div` 2)) = Ok g0 /\
    tree_grid n g0 /\
    (forall x y, inb n x y -> room n (x, y) = true -> is_open g0 x y) /\
    carve_ends n g0 = Ok (poke (poke g0 1 1 0) (n - 2) (n - 2) 0) /\
    generate_body (growth_budget n) n rand = Ok (poke (poke g0 1 1 0) (n - 2) (n - 2) 0).
Proof.
  intros Hn. assert (0 < n) as Hpos by lia.
  destruct (grown_maze n rand Hpos) as (g0 & Hg & Htree & Hspan).
  pose proof (tree_grid_facts n g0 Hpos Htree) as Hfacts.
  pose proof (carve_ends_inb n g0 ltac:(lia) (tf_square _ _ Hfacts)) as Hcarve.
  exists g0. split_and!; [done..|].
  unfold generate_body.
  rewrite (setitem2_inb n) by first [apply square_filled | apply centre_inb; done]. rsimpl.
  rewrite Hg. rsimpl. done.
Qed.

(** ** The fallback room *)

Lemma border_body_inb n i m :
  square n m -> 0 <= i < n ->
  border_body n i m = Ok (poke (poke (poke (poke m i 0 1) i (n - 1) 1) 0 i 1) (n - 1) i 1).
Proof.
  intros Hsq Hi. unfold border_body.
  rewrite (setitem2_inb n) by first [done | unfold inb; lia]. rsimpl.
  rewrite (setitem2_inb n) by first [repeat apply square_poke; done | unfold inb; lia]. rsimpl.
  rewrite (setitem2_inb n) by first [repeat apply square_poke; done | unfold inb; lia]. rsimpl.
  rewrite (setitem2_inb n) by first [repeat apply square_poke; done | unfold inb; lia].
  reflexivity.
Qed.

Lemma border_loop n :
  0 < n ->
  forall (idx : list Z) (m : grid),
    (forall i, i ∈ idx -> 0 <= i < n) -> square n m ->
    exists m', for_each idx (border_body n) m = Ok m' /\ square n m' /\
      forall x y, inb n x y ->
        (touched n idx x y -> cell m' x y = Some 1) /\
        (~ touched n idx x y -> cell m' x y = cell m x y).
Proof.
  intros Hn. induction idx as [|i idx IH]; intros m His Hsq.
  - exists m. split_and!; [done..|]. intros x y Hxy. split; [|done].
    unfold touched. intros [[_ H]|[_ H]]; apply elem_of_nil in H; done.
  - assert (0 <= i < n) as Hi by (apply His; left).
    cbn [for_each]. rewrite (border_body_inb n) by done. rsimpl.
    set (m1 := poke (poke (poke (poke m i 0 1) i (n - 1) 1) 0 i 1) (n - 1) i 1).
    assert (Hsq1 : square n m1) by (unfold m1; repeat apply square_poke; done).
    destruct (IH m1) as (m' & -> & Hsq' & Hcells); [intros; apply His; right; done|done|].
    exists m'. split_and!; [done..|]. intros x y Hxy.
    destruct (Hcells x y Hxy) as [Hin Hout].
    assert (Hcell1 : cell m1 x y =
      if decide ((x = i /\ (y = 0 \/ y = n - 1)) \/ (y = i /\ (x = 0 \/ x = n - 1)))
      then Some 1 else cell m x y).
    { unfold m1, inb in *.
      rewrite !(cell_poke n) by first [repeat apply square_poke; done | unfold inb; lia].
      repeat case_decide; try reflexivity; exfalso; lia. }
    assert (Hiff : touched n (i :: idx) x y <->
      touched n idx x y \/ (x = i /\ (y = 0 \/ y = n - 1)) \/ (y = i /\ (x = 0 \/ x = n - 1))).
    { unfold touched. rewrite !elem_of_cons. tauto. }
    split.
    + intros Ht. destruct (decide (touched n idx x y)) as [?|Hnt]; [auto|].
      rewrite Hout, Hcell1 by done. rewrite decide_True; [done|]. tauto.
    + intros Hnt. rewrite Hout, Hcell1 by tauto. rewrite decide_False; [done|]. tauto.
Qed.

Lemma simple_maze_room n :
  0 < n ->
  exists g, simple_maze n = Ok g /\ square n g /\
    forall x y, inb n x y ->
      if decide (x = 0 \/ x = n - 1 \/ y = 0 \/ y = n - 1)
      then is_wall g x y else is_open g x y.
Proof.
  intros Hn. unfold simple_maze, range.
  destruct (border_loop n Hn (seqZ 0 n) (filled n 0)) as (g & Hg & Hsq & Hcells).
  - intros i. rewrite elem_of_seqZ. lia.
  - apply square_filled.
  - exists g. split_and!; [exact Hg|done|]. intros x y Hxy.
    destruct (Hcells x y Hxy) as [Hin Hout].
    assert (Hiff : touched n (seqZ 0 n) x y <-> x = 0 \/ x = n - 1 \/ y = 0 \/ y = n - 1).
    { unfold touched, inb in *. rewrite !elem_of_seqZ. lia. }
    case_decide.
    + apply Hin, Hiff. done.
    + unfold is_open. rewrite Hout by (rewrite Hiff; done). apply cell_filled. done.
Qed.

(** ** The generator's theorems *)

(** The generator on a 9 x 9 grid, drawing 0, 1, 2, ...: the forced exit
    (7, 7) closes a loop around (6, 6), (7, 6), (6, 7), which is why the
    tree property is stated apart from the forced carve. *)
Example generate_maze_9 :
  generate_maze 9 (fun k => k) =
    Ok [[0; 0; 0; 0; 0; 0; 0; 0; 0]; [1; 0; 0; 1; 0; 1; 0; 1; 1];
        [0; 0; 0; 1; 0; 1; 0; 0; 0]; [1; 1; 0; 1; 0; 1; 1; 1; 1];
        [0; 0; 0; 1; 0; 0; 0; 0; 0]; [1; 1; 1; 1; 0; 1; 1; 1; 1];
        [0; 0; 0; 0; 0; 1; 0; 0; 0]; [0; 1; 0; 1; 0; 1; 0; 0; 0];
        [0; 1; 0; 1; 0; 0; 0; 1; 0]].
Proof. vm_compute. reflexivity. Qed.

(** C1.  For every odd size of at least 5 and every sequence of random
    draws, [generate_maze] returns on its normal path; the grid [g0] left by
    the growth loop, before the entrance and the exit are forced open, is
    grown as a tree from the centre (rooms attached one at a time as leaves,
    hence without cycles), every room of the lattice is open in it and joined
    to the centre, and it has exactly one open room more than open
    passages.  The forced carve changes neither count in the returned grid. *)
Theorem generate_maze_tree (size : Z) (rand : nat -> nat) :
  Z.odd size = true -> 5 <= size ->
  exists g0 g,
    grow (growth_budget size) rand 0 size
         (poke (filled size 1) (size `div` 2) (size `div` 2) 0)
         (seed_frontiers size (size `div` 2) (size `div` 2)) = Ok g0 /\
    carve_ends size g0 = Ok g /\
    generate_maze size rand = Ok g /\
    tree_grid size g0 /\
    (forall x y, inb size x y -> room size (x, y) = true ->
       is_open g0 x y /\ linked size g0 x y) /\
    count_open g0 (rooms size) = S (count_open g0 (passages size)) /\
    count_open g (rooms size) = S (count_open g (passages size)).
Proof.
  intros Hodd Hsize. assert (0 < size) as Hpos by lia.
  destruct (generate_body_returns size rand Hsize)
    as (g0 & Hgrow & Htree & Hspan & Hcarve & Hbody).
  pose proof (tree_grid_facts size g0 Hpos Htree) as Hfacts.
  destruct (carve_ends_count size g0 Hodd Hsize Htree Hspan) as [Hrooms Hpass].
  exists g0, (poke (poke g0 1 1 0) (size - 2) (size - 2) 0).
  split_and!; try done.
  - unfold generate_maze, generate_maze_fuel. rewrite Hbody. reflexivity.
  - intros x y Hxy Hroom. split; [auto|].
    apply tree_grid_linked; auto.
  - apply Hfacts.
  - rewrite Hrooms, Hpass. apply Hfacts.
Qed.

Lemma generate_maze_tree_witness :
  exists g0 g,
    grow (growth_budget 5) (fun _ => 0%nat) 0 5
         (poke (filled 5 1) (5 `div` 2) (5 `div` 2) 0)
         (seed_frontiers 5 (5 `div` 2) (5 `div` 2)) = Ok g0 /\
    carve_ends 5 g0 = Ok g /\
    generate_maze 5 (fun _ => 0%nat) = Ok g /\
    tree_grid 5 g0 /\
    (forall x y, inb 5 x y -> room 5 (x, y) = true ->
       is_open g0 x y /\ linked 5 g0 x y) /\
    count_open g0 (rooms 5) = S (count_open g0 (passages 5)) /\
    count_open g (rooms 5) = S (count_open g (passages 5)).
Proof. apply (generate_maze_tree 5 (fun _ => 0%nat)); [reflexivity|lia]. Defined.

(** C2.  For every odd size N of at least 5 the grid returned by
    [generate_maze] has (1, 1) and (N-2, N-2) OPEN: on the normal path,
    whatever the random draws, and in the bordered room that the [except]
    branch builds and returns whenever the body raises. *)
Theorem generate_maze_ends_open (size : Z) :
  Z.odd size = true -> 5 <= size ->
  (forall rand, exists g,
      generate_maze size rand = Ok g /\
      is_open g 1 1 /\ is_open g (size - 2) (size - 2)) /\
  (exists room,
      simple_maze size = Ok room /\
      is_open room 1 1 /\ is_open room (size - 2) (size - 2) /\
      forall fuel rand e, generate_body fuel size rand = Raise e ->
        generate_maze_fuel fuel size rand = Ok room).
Proof.
  intros Hodd Hsize. assert (0 < size) as Hpos by lia. split.
  - intros rand.
    destruct (generate_body_returns size rand Hsize)
      as (g0 & Hgrow & Htree & Hspan & Hcarve & Hbody).
    pose proof (tree_grid_facts size g0 Hpos Htree) as Hfacts.
    eexists. split.
    + unfold generate_maze, generate_maze_fuel. rewrite Hbody. reflexivity.
    + apply (carve_ends_open size); [lia|apply Hfacts].
  - destruct (simple_maze_room size Hpos) as (g & Hg & Hsq & Hcells).
    exists g. split_and!; [done| | |].
    + specialize (Hcells 1 1). rewrite decide_False in Hcells by lia.
      apply Hcells. unfold inb. lia.
    + specialize (Hcells (size - 2) (size - 2)). rewrite decide_False in Hcells by lia.
      apply Hcells. unfold inb. lia.
    + intros fuel rand e Hraise. unfold generate_maze_fuel. rewrite Hraise. done.
Qed.

Lemma generate_maze_ends_open_witness :
  (forall rand, exists g,
      generate_maze 5 rand = Ok g /\ is_open g 1 1 /\ is_open g (5 - 2) (5 - 2)) /\
  (exists room,
      simple_maze 5 = Ok room /\
      is_open room 1 1 /\ is_open room (5 - 2) (5 - 2) /\
      forall fuel rand e, generate_body fuel 5 rand = Raise e ->
        generate_maze_fuel fuel 5 rand = Ok room).
Proof. apply (generate_maze_ends_open 5); [reflexivity|lia]. Defined.

(** ** The ray march, for every arithmetic *)

Section March.
Context {F : Type} `{PyFloat F} `{Libm F}.
Variables (cfg : config F) (maze : grid) (px py rc rs : F).

Lemma bind_Ok {A B} (r : result A) (f : A -> result B) b :
  r ≫= f = Ok b <-> exists a, r = Ok a /\ f a = Ok b.
Proof.
  destruct r; rsimpl; split; try (intros (? & ? & ?)); try done; eauto.
  congruence.
Qed.

Lemma probe_inv rx ry d go :
  probe cfg maze px py rx ry = Ok (d, go) ->
  distance px py rx ry = Ok d /\
  exists ix iy, fint rx = Ok ix /\ fint ry = Ok iy /\
    if in_range (map_size cfg) ix && in_range (map_size cfg) iy
    then exists v, getitem2 maze iy ix = Ok v /\ go = negb (bool_decide (v = 1))
    else go = false.
Proof.
  unfold probe. intros (d' & Hd & Hrest)%bind_Ok.
  apply bind_Ok in Hrest as (ix & Hix & Hrest).
  apply bind_Ok in Hrest as (iy & Hiy & Hrest).
  destruct (in_range (map_size cfg) ix && in_range (map_size cfg) iy) eqn:Hin.
  - apply bind_Ok in Hrest as (v & Hv & Hrest). simplify_eq.
    split; [done|]. exists ix, iy. rewrite Hin. eauto.
  - simplify_eq. split; [done|]. exists ix, iy. rewrite Hin. eauto.
Qed.

Lemma probe_passes k :
  passes cfg maze px py rc rs k ->
  exists d, probe cfg maze px py (ray_at px rc k) (ray_at py rs k) = Ok (d, true) /\
            (flt d (of_int MAX_DEPTH)) = true.
Proof.
  intros (d & ix & iy & v & Hd & Hlt & Hix & Hiy & Hin & Hv & Hne).
  exists d. split; [|done]. unfold probe. unfold distance_at in Hd.
  rewrite Hd. rsimpl. rewrite Hix. rsimpl. rewrite Hiy. rsimpl.
  rewrite Hin, Hv. rsimpl. rewrite bool_decide_false by done. reflexivity.
Qed.

Lemma probe_leaves k d :
  distance_at px py rc rs k = Ok d -> leaves cfg px py rc rs k ->
  probe cfg maze px py (ray_at px rc k) (ray_at py rs k) = Ok (d, false).
Proof.
  intros Hd (ix & iy & Hix & Hiy & Hin). unfold probe. unfold distance_at in Hd.
  rewrite Hd. rsimpl. rewrite Hix. rsimpl. rewrite Hiy. rsimpl.
  rewrite Hin. reflexivity.
Qed.

(** From the [n]-th sample on: if the next [j - 1] samples pass and the
    one after them leaves the grid, the loop returns that sample's distance,
    after [j] more iterations. *)
Lemma march_leaves j :
  forall fuel n wd d,
    (j <= fuel)%nat -> (1 <= j)%nat ->
    (flt wd (of_int MAX_DEPTH)) = true ->
    (forall i, (n < i < n + j)%nat -> passes cfg maze px py rc rs i) ->
    distance_at px py rc rs (n + j) = Ok d ->
    leaves cfg px py rc rs (n + j) ->
    march fuel cfg maze px py rc rs (ray_at px rc n) (ray_at py rs n) wd n =
      (Ok d, (n + j)%nat).
Proof.
  induction j as [|j IH]; intros fuel n wd d Hfuel Hj Hwd Hpass Hd Hleave; [lia|].
  destruct fuel as [|fuel]; [lia|]. cbn [march]. rewrite Hwd.
  change (fadd (ray_at px rc n) rc) with (ray_at px rc (S n)).
  change (fadd (ray_at py rs n) rs) with (ray_at py rs (S n)).
  destruct (decide (j = 0%nat)) as [->|Hj0].
  - replace (n + 1)%nat with (S n) in * by lia.
    rewrite (probe_leaves _ _ Hd Hleave). reflexivity.
  - destruct (probe_passes (S n)) as (d1 & -> & Hd1); [apply Hpass; lia|].
    replace (n + S j)%nat with (S n + j)%nat in * by lia.
    apply IH; [lia|lia|done| |done|done].
    intros i Hi. apply Hpass. lia.
Qed.

(** What a returned march tells: either the guard failed at once, or the
    result is the distance of the last sample taken, every sample before it
    having been closer than MAX_DEPTH. *)
Lemma march_returned :
  forall fuel n wd d n',
    march fuel cfg maze px py rc rs (ray_at px rc n) (ray_at py rs n) wd n = (Ok d, n') ->
    (n' = n /\ d = wd /\ (flt wd (of_int MAX_DEPTH)) = false) \/
    ((n < n')%nat /\ (flt wd (of_int MAX_DEPTH)) = true /\
     distance_at px py rc rs n' = Ok d /\
     (exists ix iy, fint (ray_at px rc n') = Ok ix /\ fint (ray_at py rs n') = Ok iy) /\
     forall i, (n < i < n')%nat ->
       exists di, distance_at px py rc rs i = Ok di /\ (flt di (of_int MAX_DEPTH)) = true).
Proof.
  induction fuel as [|fuel IH]; intros n wd d n' Hm; cbn [march] in Hm;
    destruct (flt wd (of_int MAX_DEPTH)) eqn:Hwd; try (simplify_eq; auto; fail).
  change (fadd (ray_at px rc n) rc) with (ray_at px rc (S n)) in Hm.
  change (fadd (ray_at py rs n) rs) with (ray_at py rs (S n)) in Hm.
  destruct (probe cfg maze px py (ray_at px rc (S n)) (ray_at py rs (S n)))
    as [[d1 go]| |] eqn:Hp; [|simplify_eq..].
  apply probe_inv in Hp as (Hd1 & ix & iy & Hix & Hiy & Hgo).
  right. destruct go.
  - apply IH in Hm as [(-> & -> & Hstop)|(Hlt & Hgo1 & Hd & Hcell & Hbefore)].
    + split_and!; [lia|done|done|eauto|]. intros i Hi. lia.
    + split_and!; [lia|done|done|done|]. intros i Hi.
      destruct (decide (i = S n)) as [->|Hne]; [eauto|]. apply Hbefore. lia.
  - simplify_eq. split_and!; [lia|done|done|eauto|]. intros i Hi. lia.
Qed.

(** More iterations allowed do not change a march that ended. *)
Lemma march_fuel_mono :
  forall fuel fuel' rx ry wd n r n',
    (fuel <= fuel')%nat -> r <> Timeout ->
    march fuel cfg maze px py rc rs rx ry wd n = (r, n') ->
    march fuel' cfg maze px py rc rs rx ry wd n = (r, n').
Proof.
  induction fuel as [|fuel IH]; intros fuel' rx ry wd n r n' Hle Hr Hm.
  - cbn [march] in Hm. destruct (flt wd (of_int MAX_DEPTH)) eqn:Hwd.
    + simplify_eq.
    + destruct fuel'; cbn [march]; rewrite Hwd; done.
  - destruct fuel' as [|fuel']; [lia|]. cbn [march] in *.
    destruct (flt wd (of_int MAX_DEPTH)); [|done].
    destruct (probe cfg maze px py (fadd rx rc) (fadd ry rs)) as [[d [|]]| |]; try done.
    apply IH; [lia|done|done].
Qed.

End March.

(** ** Binary64: signs and special values through the operations of [distance] *)














Lemma nonneg_number x : sf_nonneg x -> sf_number x.
Proof. destruct x; done. Qed.







(** ** [cast_ray] *)

Lemma passesb_passes {F} `{PyFloat F} (cfg : config F) maze px py c s k :
  passesb cfg maze px py c s k = true -> passes cfg maze px py c s k.
Proof.
  unfold passesb, passes.
  destruct (distance_at px py c s k) as [d| |],
    (fint (ray_at px c k)) as [ix| |], (fint (ray_at py s k)) as [iy| |];
    try discriminate.
  destruct (getitem2 maze iy ix) as [v| |] eqn:Hg;
    rewrite !andb_true_iff; intros [[Hd Hin] Hv]; [|discriminate..].
  exists d, ix, iy, v. rewrite andb_true_iff. split_and!; try done; try apply Hin.
  apply negb_true_iff, bool_decide_eq_false in Hv. done.
Qed.

Lemma passesb_all {F} `{PyFloat F} (cfg : config F) maze px py c s k :
  forallb (passesb cfg maze px py c s) (seq 1 (k - 1)) = true ->
  forall i, (1 <= i < k)%nat -> passes cfg maze px py c s i.
Proof.
  intros Hall i Hi. apply passesb_passes.
  rewrite forallb_forall in Hall. apply Hall. apply in_seq. lia.
Qed.

(** The march, in the terms of [cast_ray]'s own arguments. *)
Lemma cast_ray_steps_unfold {F} `{PyFloat F} `{Libm F}
    fuel (cfg : config F) maze px py angle c s :
  math_cos angle = Ok c -> math_sin angle = Ok s ->
  cast_ray_steps fuel cfg maze px py angle =
    march fuel cfg maze px py (fmul c RAY_STEP_SIZE) (fmul s RAY_STEP_SIZE)
          (ray_at px (fmul c RAY_STEP_SIZE) 0) (ray_at py (fmul s RAY_STEP_SIZE) 0)
          (of_int 0) 0.
Proof. intros Hc Hs. unfold cast_ray_steps. rewrite Hc, Hs. reflexivity. Qed.

(** C4, as amended.  When the samples of a ray pass (in bounds, in cells that
    are no WALL, closer than MAX_DEPTH) until the [k]-th one falls outside
    the grid, [cast_ray] stops there, after [k] iterations, and returns the
    distance measured at that sample, not the MAX_DEPTH of its fault path.
    No bound by the distance to the boundary is part of the statement: the
    sample is the first one found outside the grid, past the boundary. *)
Theorem cast_ray_leaves_grid {F} `{PyFloat F} `{Libm F}
    (fuel : nat) (cfg : config F) (maze : grid) (px py angle c s d : F) (k : nat) :
  math_cos angle = Ok c -> math_sin angle = Ok s ->
  flt (of_int 0) (of_int MAX_DEPTH) = true ->
  (1 <= k <= fuel)%nat ->
  (forall i, (1 <= i < k)%nat ->
     passes cfg maze px py (fmul c RAY_STEP_SIZE) (fmul s RAY_STEP_SIZE) i) ->
  leaves cfg px py (fmul c RAY_STEP_SIZE) (fmul s RAY_STEP_SIZE) k ->
  distance_at px py (fmul c RAY_STEP_SIZE) (fmul s RAY_STEP_SIZE) k = Ok d ->
  cast_ray_steps fuel cfg maze px py angle = (Ok d, k) /\
  cast_ray fuel cfg maze px py angle = Ok d.
Proof.
  intros Hc Hs Hguard Hk Hpass Hleave Hd.
  assert (Hsteps : cast_ray_steps fuel cfg maze px py angle = (Ok d, k)).
  { rewrite (cast_ray_steps_unfold _ _ _ _ _ _ c s) by done.
    apply (march_leaves cfg maze px py _ _ k fuel 0%nat); try done; try lia;
      intros i Hi; apply Hpass; lia. }
  split; [done|]. unfold cast_ray. rewrite Hsteps. reflexivity.
Qed.

(** C4, the claim as stated, refuted.  In a maze that [generate_maze 25]
    returns, the ray cast east from (24.5, 0.5) passes 25 samples and leaves
    the grid at the 26th; [cast_ray] returns 0.5199999999999889, yet the
    point of the ray at distance 0.515625 is already outside: the boundary
    is 0.5 away, and the returned distance is larger, not smaller. *)
Lemma cast_ray_overshoots_boundary :
  exists (maze : grid) (d t : float),
    generate_maze 25 (fun k => k) = Ok maze /\
    (forall i, (1 <= i < 26)%nat ->
       passes HARD_CONFIG maze 24.5%float 0.5%float
              (fmul 1%float RAY_STEP_SIZE) (fmul 0%float RAY_STEP_SIZE) i) /\
    leaves HARD_CONFIG 24.5%float 0.5%float
           (fmul 1%float RAY_STEP_SIZE) (fmul 0%float RAY_STEP_SIZE) 26 /\
    cast_ray (H0 := zero_libm) 1001 HARD_CONFIG maze 24.5%float 0.5%float 0%float = Ok d /\
    flt t d = true /\
    outside HARD_CONFIG 24.5%float 0.5%float 1%float 0%float t = true.
Proof.
  destruct (generate_maze 25 (fun k => k)) as [maze| |] eqn:Hmaze;
    [|vm_compute in Hmaze; discriminate..].
  assert (Hval : maze = match generate_maze 25 (fun k => k) with Ok g => g | _ => [] end)
    by (rewrite Hmaze; reflexivity).
  vm_compute in Hval. subst maze.
  eexists _, _, 0.515625%float. split_and!.
  - reflexivity.
  - apply passesb_all. vm_compute. reflexivity.
  - eexists _, _. split_and!; vm_compute; reflexivity.
  - vm_compute. reflexivity.
  - vm_compute. reflexivity.
  - vm_compute. reflexivity.
Qed.

Lemma cast_ray_leaves_grid_witness :
  cast_ray_steps (H0 := zero_libm) 26 HARD_CONFIG (filled 25 0)
                 24.5%float 0.5%float 0%float =
    (Ok 0x1.0a3d70a3d704p-1%float, 26%nat) /\
  cast_ray (H0 := zero_libm) 26 HARD_CONFIG (filled 25 0)
           24.5%float 0.5%float 0%float = Ok 0x1.0a3d70a3d704p-1%float.
Proof.
  apply (cast_ray_leaves_grid (H0 := zero_libm) 26 HARD_CONFIG (filled 25 0)
           24.5%float 0.5%float 0%float 1%float 0%float _ 26).
  - reflexivity.
  - reflexivity.
  - reflexivity.
  - lia.
  - apply passesb_all. vm_compute. reflexivity.
  - eexists _, _. split_and!; vm_compute; reflexivity.
  - vm_compute. reflexivity.
Defined.




(** ** The ray march in exact arithmetic *)

Section Exact.
Local Open Scope R_scope.

Lemma step_exact : RAY_STEP_SIZE (F := R) = 2 / 100.
Proof. reflexivity. Qed.


Lemma Rltb_true x y : Rltb x y = true <-> x < y.
Proof. unfold Rltb. destruct (Rlt_dec x y); split; (done || lra). Qed.

Lemma Rltb_false x y : Rltb x y = false <-> y <= x.
Proof. unfold Rltb. destruct (Rlt_dec x y); split; (done || lra). Qed.

Lemma ray_at_exact (p c : R) (k : nat) : ray_at p c k = p + INR k * c.
Proof.
  induction k as [|k IH]; [simpl; lra|].
  cbn [ray_at]. rewrite IH, S_INR. simpl. lra.
Qed.

(** After [k] steps the measured distance is exactly [k] steps long. *)
Lemma distance_at_exact (px py angle : R) (k : nat) :
  distance_at px py (fmul (cos angle) RAY_STEP_SIZE) (fmul (sin angle) RAY_STEP_SIZE) k =
    Ok (INR k * RAY_STEP_SIZE).
Proof.
  unfold distance_at, distance. rewrite !ray_at_exact, step_exact. simpl.
  set (c := cos angle). set (s := sin angle).
  assert (Hunit : c * c + s * s = 1).
  { unfold c, s. pose proof (sin2_cos2 angle) as Hsc. unfold Rsqr in Hsc. lra. }
  pose proof (pos_INR k) as Hk.
  replace ((px + INR k * (c * (2 / 100)) - px) * (px + INR k * (c * (2 / 100)) - px) +
           (py + INR k * (s * (2 / 100)) - py) * (py + INR k * (s * (2 / 100)) - py))
    with (Rsqr (INR k * (2 / 100))).
  - destruct (Rlt_dec (Rsqr (INR k * (2 / 100))) 0) as [Hneg|_].
    + pose proof (Rle_0_sqr (INR k * (2 / 100))). lra.
    + rewrite sqrt_Rsqr by lra. reflexivity.
  - unfold Rsqr.
    replace ((px + INR k * (c * (2 / 100)) - px)) with (INR k * (2 / 100) * c) by lra.
    replace ((py + INR k * (s * (2 / 100)) - py)) with (INR k * (2 / 100) * s) by lra.
    transitivity (INR k * (2 / 100) * (INR k * (2 / 100)) * (c * c + s * s)); [|lra].
    rewrite Hunit. lra.
Qed.

Lemma guard_exact (n : nat) :
  Rltb (INR n * RAY_STEP_SIZE) (IZR MAX_DEPTH) = true <-> (n < 1000)%nat.
Proof.
  rewrite Rltb_true, step_exact. unfold MAX_DEPTH. split.
  - intros Hlt. apply INR_lt. replace (INR 1000) with 1000 by (simpl; lra). lra.
  - intros Hlt. apply lt_INR in Hlt. replace (INR 1000) with 1000 in Hlt by (simpl; lra). lra.
Qed.

Lemma march_exact (cfg : config R) (maze : grid) (px py angle : R) :
  forall j fuel n,
    (n + j = 1000)%nat -> (j <= fuel)%nat ->
    exists r n',
      (n <= n' <= 1000)%nat /\ r <> Timeout /\
      march fuel cfg maze px py
            (fmul (cos angle) RAY_STEP_SIZE) (fmul (sin angle) RAY_STEP_SIZE)
            (ray_at px (fmul (cos angle) RAY_STEP_SIZE) n)
            (ray_at py (fmul (sin angle) RAY_STEP_SIZE) n)
            (INR n * RAY_STEP_SIZE) n = (r, n').
Proof.
  induction j as [|j IH]; intros fuel n Hn Hfuel.
  - exists (Ok (INR n * RAY_STEP_SIZE)), n. split_and!; [lia|lia|done|].
    assert (Hstop : flt (INR n * RAY_STEP_SIZE) (of_int MAX_DEPTH) = false).
    { simpl. apply not_true_iff_false. rewrite guard_exact. lia. }
    destruct fuel; cbn [march]; rewrite Hstop; reflexivity.
  - destruct fuel as [|fuel]; [lia|]. cbn [march].
    assert (Hgo : flt (INR n * RAY_STEP_SIZE) (of_int MAX_DEPTH) = true)
      by (simpl; apply guard_exact; lia).
    rewrite Hgo.
    change (fadd (ray_at px ?c n) ?c) with (ray_at px c (S n)).
    change (fadd (ray_at py (fmul (sin angle) RAY_STEP_SIZE) n)
                 (fmul (sin angle) RAY_STEP_SIZE))
      with (ray_at py (fmul (sin angle) RAY_STEP_SIZE) (S n)).
    change (fadd (ray_at px (fmul (cos angle) RAY_STEP_SIZE) n)
                 (fmul (cos angle) RAY_STEP_SIZE))
      with (ray_at px (fmul (cos angle) RAY_STEP_SIZE) (S n)).
    destruct (probe cfg maze px py _ _) as [[d go]|e|] eqn:Hp.
    + apply probe_inv in Hp as (Hd & _).
      fold (distance_at px py (fmul (cos angle) RAY_STEP_SIZE)
                        (fmul (sin angle) RAY_STEP_SIZE) (S n)) in Hd.
      rewrite distance_at_exact in Hd.
      assert (d = INR (S n) * RAY_STEP_SIZE) as -> by congruence.
      destruct go.
      * destruct (IH fuel (S n)) as (r & n' & Hn' & Hr & ->); [lia|lia|].
        exists r, n'. split_and!; [lia|lia|done|reflexivity].
      * eexists _, _. split_and!; [| | |reflexivity]; [lia|lia|done].
    + eexists _, _. split_and!; [| | |reflexivity]; [lia|lia|done].
    + exfalso. unfold probe in Hp.
      fold (distance_at px py (fmul (cos angle) RAY_STEP_SIZE)
                        (fmul (sin angle) RAY_STEP_SIZE) (S n)) in Hp.
      rewrite distance_at_exact in Hp. simpl in Hp. rsimpl_in Hp.
      destruct (in_range _ _ && in_range _ _); [|done].
      destruct (getitem2 _ _ _) as [v| |] eqn:Hg; try done.
      unfold getitem2, getitem, py_index in Hg.
      repeat (case_bool_decide || rsimpl_in Hg || simpl in Hg || case_match);
        simplify_eq.
Qed.

Lemma Rtrunc_in_range (n : Z) (x : R) :
  0 <= x < IZR n -> in_range n (Rtrunc x) = true.
Proof.
  intros [Hlo Hhi]. unfold in_range, Rtrunc.
  destruct (Rle_dec 0 x) as [_|Hneg]; [|lra].
  destruct (base_Int_part x) as [Hle Hgt].
  apply bool_decide_eq_true. split.
  - apply Z.lt_succ_r. apply lt_IZR. rewrite succ_IZR. lra.
  - apply lt_IZR. lra.
Qed.

(** In exact arithmetic the sample at which a ray leaves the grid is the
    point of the ray at the returned distance, and it is outside the square
    of the grid: the returned distance is not below the distance to the
    boundary. *)
Lemma leaves_outside_exact (cfg : config R) (px py angle : R) (k : nat) :
  leaves cfg px py (fmul (cos angle) RAY_STEP_SIZE) (fmul (sin angle) RAY_STEP_SIZE) k ->
  outside cfg px py (cos angle) (sin angle) (INR k * RAY_STEP_SIZE) = true.
Proof.
  intros (ix & iy & Hix & Hiy & Hout).
  simpl in Hix, Hiy. rewrite !ray_at_exact in Hix, Hiy.
  injection Hix as <-. injection Hiy as <-.
  unfold outside, fle. simpl.
  set (x := px + INR k * (cos angle * (2 / 100))) in Hout.
  set (y := py + INR k * (sin angle * (2 / 100))) in Hout.
  replace (px + INR k * (2 / 100) * cos angle) with x by (unfold x; ring).
  replace (py + INR k * (2 / 100) * sin angle) with y by (unfold y; ring).
  apply negb_true_iff. apply not_true_iff_false. intros Hin.
  rewrite !andb_true_iff, !orb_true_iff, !Rltb_true in Hin.
  destruct Hin as [[[Hx0 Hx1] Hy0] Hy1].
  assert (0 <= x) by (destruct Hx0 as [?|Heq]; [lra|]; unfold Reqb in Heq;
                      destruct (Req_dec_T 0 x); [lra|discriminate]).
  assert (0 <= y) by (destruct Hy0 as [?|Heq]; [lra|]; unfold Reqb in Heq;
                      destruct (Req_dec_T 0 y); [lra|discriminate]).
  rewrite (Rtrunc_in_range _ x), (Rtrunc_in_range _ y) in Hout by (split; lra).
  discriminate.
Qed.

End Exact.


(** In exact arithmetic the contract of C3 holds as the specification
    states it: the loop stops at the 1000th sample at the latest, whose
    distance is MAX_DEPTH. *)
Lemma cast_ray_exact_range (fuel : nat) (cfg : config R) (maze : grid) (px py angle d : R) :
  cast_ray fuel cfg maze px py angle = Ok d -> (0 <= d <= IZR MAX_DEPTH)%R.
Proof.
  intros Hd.
  destruct (march_exact cfg maze px py angle 1000 1000 0) as (r & n & Hn & Hr & Hm);
    [lia|lia|].
  unfold cast_ray in Hd.
  rewrite (cast_ray_steps_unfold _ _ _ _ _ _ (cos angle) (sin angle)) in Hd by reflexivity.
  assert (Hzero : of_int (F := R) 0 = (INR 0 * RAY_STEP_SIZE (F := R))%R) by (simpl; lra).
  rewrite Hzero in Hd.
  destruct (march fuel _ _ _ _ _ _ _ _ _ _) as [[d'|e|] n'] eqn:Hf; simpl in Hd;
    [|simplify_eq; unfold MAX_DEPTH; simpl; lra|discriminate].
  simplify_eq.
  assert (Hsame : (r, n) = (Ok d, n')).
  { destruct (Nat.le_ge_cases fuel 1000) as [Hle|Hge].
    - rewrite <- Hm. apply (march_fuel_mono _ _ _ _ _ _ fuel); [lia|done|done].
    - rewrite <- Hf. symmetry.
      apply (march_fuel_mono _ _ _ _ _ _ 1000%nat); [lia|done|done]. }
  simplify_eq.
  apply march_returned in Hf as [(_ & -> & _)|(Hlt & _ & Hdist & _)].
  - unfold MAX_DEPTH. simpl. lra.
  - rewrite distance_at_exact in Hdist.
    assert (d = (INR n' * RAY_STEP_SIZE (F := R))%R) as -> by congruence.
    rewrite step_exact. unfold MAX_DEPTH.
    assert (INR n' <= 1000)%R.
    { replace 1000%R with (INR 1000) by (simpl; lra). apply le_INR. lia. }
    pose proof (pos_INR n'). lra.
Qed.

(** ** Wall shading *)

(** On binary64 the intensity stays between the floor and the full channel
    for every distance, not-a-number included. *)
Lemma color_intensity_binary64_bounds (d : float) :
  fle (of_int 50) (color_intensity d) = true /\
  fle (color_intensity d) (of_int 255) = true.
Proof.
  unfold color_intensity, py_min, py_max, fle.
  set (v := fsub (of_int 255) (fmul d (of_int 20))).
  destruct (flt (of_int 50) v) eqn:Hv.
  - destruct (flt v (of_int 255)) eqn:Hv'.
    + rewrite Hv, Hv'. done.
    + split; vm_compute; reflexivity.
  - assert (Hc : flt (F := float) (of_int 50) (of_int 255) = true) by (vm_compute; reflexivity).
    rewrite Hc. split; vm_compute; reflexivity.
Qed.



(** ** Movement *)

Section Movement.
Context {F : Type} `{PyFloat F} `{Libm F}.

Lemma can_enter_spec (cfg : config F) maze a b ia ib :
  square (map_size cfg) maze -> fint a = Ok ia -> fint b = Ok ib ->
  can_enter cfg maze a b = Ok (enterable cfg maze ia ib).
Proof.
  intros Hsq Ha Hb. unfold can_enter, enterable. rewrite Ha. rsimpl.
  destruct (in_range (map_size cfg) ia) eqn:Hia; [|reflexivity].
  rewrite Hb. rsimpl.
  destruct (in_range (map_size cfg) ib) eqn:Hib; [|reflexivity].
  unfold in_range in Hia, Hib. apply bool_decide_eq_true in Hia, Hib.
  destruct (square_cell (map_size cfg) maze ia ib Hsq) as [v Hv]; [done|].
  assert (Hget : getitem2 maze ib ia = Ok v)
    by (rewrite getitem2_nonneg by lia; rewrite Hv; reflexivity).
  rewrite Hget. rsimpl. f_equal. simpl.
  apply bool_decide_ext. unfold is_open. rewrite Hv. split; congruence.
Qed.

Lemma translate_spec (cfg : config F) maze x y dx dy ix iy jx jy :
  square (map_size cfg) maze ->
  fint x = Ok ix -> fint y = Ok iy ->
  fint (fadd x dx) = Ok jx -> fint (fadd y dy) = Ok jy ->
  translate cfg maze x y dx dy =
    Ok (if enterable cfg maze jx jy then (fadd x dx, fadd y dy)
        else (if enterable cfg maze jx iy then fadd x dx else x,
              if enterable cfg maze ix jy then fadd y dy else y)).
Proof.
  intros Hsq Hx Hy Hjx Hjy. unfold translate. cbv zeta.
  rewrite (can_enter_spec cfg maze (fadd x dx) (fadd y dy) jx jy) by done. rsimpl.
  destruct (enterable cfg maze jx jy); [reflexivity|].
  rewrite (can_enter_spec cfg maze (fadd x dx) y jx iy) by done. rsimpl.
  rewrite (can_enter_spec cfg maze x (fadd y dy) ix jy) by done. reflexivity.
Qed.

Lemma enterable_in_range (cfg : config F) maze i j :
  enterable cfg maze i j = true ->
  in_range (map_size cfg) i = true /\ in_range (map_size cfg) j = true.
Proof. unfold enterable. rewrite !andb_true_iff. tauto. Qed.

(** C5.  With a movement vector that is not zero, and coordinates that
    have cell indices: if the cell of (x + dx, y + dy) is in bounds and OPEN,
    both coordinates advance; otherwise x advances exactly when the cell of
    (x + dx, y) is in bounds and OPEN, and y exactly when the cell of
    (x, y + dy) is, each axis on its own test (so both may advance); and a
    coordinate whose target cell index is out of bounds stays as it was. *)
Theorem handle_movement_slides (cfg : config F) (maze : grid) (k : keys) (p : pose F)
    (dx dy : F) (ix iy jx jy : Z) :
  square (map_size cfg) maze ->
  movement_vector cfg k (player_angle p) = Ok (dx, dy) ->
  negb (feq dx (of_int 0)) || negb (feq dy (of_int 0)) = true ->
  fint (player_x p) = Ok ix -> fint (player_y p) = Ok iy ->
  fint (fadd (player_x p) dx) = Ok jx -> fint (fadd (player_y p) dy) = Ok jy ->
  let p' := handle_movement cfg maze (Ok k) p in
  (player_x p', player_y p') =
    (if enterable cfg maze jx jy
     then (fadd (player_x p) dx, fadd (player_y p) dy)
     else (if enterable cfg maze jx iy then fadd (player_x p) dx else player_x p,
           if enterable cfg maze ix jy then fadd (player_y p) dy else player_y p)) /\
  (in_range (map_size cfg) jx = false -> player_x p' = player_x p) /\
  (in_range (map_size cfg) jy = false -> player_y p' = player_y p).
Proof.
  intros Hsq Hmv Hnz Hx Hy Hjx Hjy p'.
  assert (Hpos : (player_x p', player_y p') =
    (if enterable cfg maze jx jy
     then (fadd (player_x p) dx, fadd (player_y p) dy)
     else (if enterable cfg maze jx iy then fadd (player_x p) dx else player_x p,
           if enterable cfg maze ix jy then fadd (player_y p) dy else player_y p))).
  { unfold p', handle_movement. rewrite Hmv. cbn [player_x player_y player_angle]. rewrite Hnz.
    rewrite (translate_spec cfg maze _ _ dx dy ix iy jx jy) by done.
    destruct (enterable cfg maze jx jy); [reflexivity|].
    destruct (enterable cfg maze jx iy), (enterable cfg maze ix jy); reflexivity. }
  split; [exact Hpos|].
  assert (Hout : forall i j, in_range (map_size cfg) i = false \/
                             in_range (map_size cfg) j = false ->
                             enterable cfg maze i j = false).
  { intros i j [Hi|Hj]; unfold enterable; rewrite ?Hi, ?Hj, ?andb_false_r; reflexivity. }
  split; intros Hr.
  - rewrite (Hout jx jy), (Hout jx iy) in Hpos by auto.
    apply (f_equal fst) in Hpos. exact Hpos.
  - rewrite (Hout jx jy), (Hout ix jy) in Hpos by auto.
    apply (f_equal snd) in Hpos. exact Hpos.
Qed.

(** C8, as amended.  The heading after input handling is the heading
    before, less ROTATION_SPEED when a left key is held, plus ROTATION_SPEED
    when a right key is held (and untouched when reading the keys or
    computing the movement vector raised); it is not reduced into [0, 2 pi),
    whatever happens to the position. *)
Theorem handle_movement_heading (cfg : config F) (maze : grid) (pressed : result keys)
    (p : pose F) :
  player_angle (handle_movement cfg maze pressed p) =
    match pressed with
    | Ok k =>
      match movement_vector cfg k (player_angle p) with
      | Ok _ =>
        let angle :=
          if K_a k || K_LEFT k then fsub (player_angle p) ROTATION_SPEED
          else player_angle p in
        if K_d k || K_RIGHT k then fadd angle ROTATION_SPEED else angle
      | _ => player_angle p
      end
    | _ => player_angle p
    end.
Proof.
  unfold handle_movement. destruct pressed as [k| |]; [|reflexivity..].
  destruct (movement_vector cfg k (player_angle p)) as [[mx my]| |]; [|reflexivity..].
  cbn [player_x player_y player_angle].
  destruct (negb (feq mx (of_int 0)) || negb (feq my (of_int 0))); [|reflexivity].
  destruct (translate cfg maze (player_x p) (player_y p) mx my) as [[x y]| |]; reflexivity.
Qed.

End Movement.

Lemma handle_movement_slides_witness :
  let p := Pose 1.5%float 1.5%float 0%float in
  let p' := handle_movement (H0 := zero_libm) EASY_CONFIG (filled 15 0) (Ok key_w) p in
  (player_x p', player_y p') =
    (if enterable EASY_CONFIG (filled 15 0) 1 1
     then (fadd (player_x p) (decimal 1 10), fadd (player_y p) 0%float)
     else (if enterable EASY_CONFIG (filled 15 0) 1 1
           then fadd (player_x p) (decimal 1 10) else player_x p,
           if enterable EASY_CONFIG (filled 15 0) 1 1
           then fadd (player_y p) 0%float else player_y p)) /\
  (in_range (map_size (F := float) EASY_CONFIG) 1 = false -> player_x p' = player_x p) /\
  (in_range (map_size (F := float) EASY_CONFIG) 1 = false -> player_y p' = player_y p).
Proof.
  apply (handle_movement_slides (H0 := zero_libm) EASY_CONFIG (filled 15 0) key_w
           (Pose 1.5%float 1.5%float 0%float) (decimal 1 10) 0%float 1 1 1 1).
  - apply square_filled.
  - vm_compute. reflexivity.
  - vm_compute. reflexivity.
  - vm_compute. reflexivity.
  - vm_compute. reflexivity.
  - vm_compute. reflexivity.
  - vm_compute. reflexivity.
Defined.

(** C8, the claim as stated, refuted.  From the start pose, heading 0, one
    tick with the left arrow held leaves the heading at -0.04, below 0. *)
Lemma heading_leaves_range :
  let p := Pose 1.5%float 1.5%float 0%float in
  let p' := handle_movement (H0 := zero_libm) EASY_CONFIG (filled 15 0) (Ok key_left) p in
  normalized (player_angle p) = true /\
  player_angle p' = (-0x1.47ae147ae147bp-5)%float /\
  normalized (player_angle p') = false.
Proof. vm_compute. split_and!; reflexivity. Qed.

(** Sliding, on values that are exact in binary64.  In the grid

      0 0 0
      0 1 0
      0 0 0

    a diagonal step from (0.9375, 0.9375) towards the WALL at (1, 1) finds
    both side cells OPEN, so each axis passes its own test and both
    advance; against a wall that fills the row only the free axis moves;
    and a step west from 0.0625 is accepted at -0.0625, whose cell index,
    truncated toward zero, is still 0. *)
Example translate_both_axes_pass :
  translate tiny pillar_grid 0.9375%float 0.9375%float 0.125%float 0.125%float =
    Ok (1.0625%float, 1.0625%float).
Proof. vm_compute. reflexivity. Qed.

Example translate_slides_along_wall :
  translate tiny wall_grid 0.9375%float 0.9375%float 0.125%float 0.125%float =
    Ok (1.0625%float, 0.9375%float).
Proof. vm_compute. reflexivity. Qed.

Example translate_truncates_toward_zero :
  translate tiny pillar_grid 0.0625%float 0.5%float (-0.125)%float 0%float =
    Ok ((-0.0625)%float, 0.5%float) /\
  fint (-0.0625)%float = Ok 0.
Proof. vm_compute. split; reflexivity. Qed.

(** ** The game loop *)

Section Loop.
Context {F : Type} `{PyFloat F} `{Libm F}.
Variables (cfg : config F) (maze : grid) (exit_x exit_y : Z) (start_time : F).

Lemma at_exit_spec (p : pose F) jx jy :
  fint (player_x p) = Ok jx -> fint (player_y p) = Ok jy ->
  at_exit exit_x exit_y p = Ok (bool_decide (jx = exit_x /\ jy = exit_y)).
Proof.
  intros Hx Hy. unfold at_exit. rewrite Hx. rsimpl.
  case_bool_decide as Hjx.
  - rewrite Hy. rsimpl. f_equal. apply bool_decide_ext. tauto.
  - f_equal. symmetry. apply bool_decide_eq_false. tauto.
Qed.


(** What a finished loop has established, for any property the ticks preserve. *)
Lemma game_loop_invariant (P : session F -> Prop) (all : list (tick_input F)) :
  (forall i s, In i all -> P s -> P (fst (tick cfg maze exit_x exit_y start_time i s))) ->
  forall inputs s s',
    (forall i, In i inputs -> In i all) -> P s ->
    game_loop cfg maze exit_x exit_y start_time inputs s = Ok s' ->
    P s' /\ running s' = false.
Proof.
  intros Hstep inputs. induction inputs as [|i inputs IH]; intros s s' Hsub Hs Hloop;
    cbn [game_loop] in Hloop; destruct (running s) eqn:Hrun; simplify_eq; auto.
  destruct (tick cfg maze exit_x exit_y start_time i s) as [s1 finished] eqn:Htick.
  destruct finished; [|done].
  apply (IH s1 s'); [intros; apply Hsub; right; done| |done].
  replace s1 with (fst (tick cfg maze exit_x exit_y start_time i s)) by (rewrite Htick; done).
  apply Hstep; [apply Hsub; left; done|done].
Qed.

Lemma tick_timed all i s :
  In i all -> timed start_time all s ->
  timed start_time all (fst (tick cfg maze exit_x exit_y start_time i s)).
Proof.
  intros Hi Hs. unfold tick.
  destruct (polled i) as [events| |]; [|exact Hs..].
  set (s1 := if existsb quits events then stop s else s).
  assert (Hs1 : timed start_time all s1) by (unfold s1; destruct (existsb quits events); exact Hs).
  unfold timed in *.
  destruct (game_completed s1) eqn:Hc; [simpl; intros _; apply Hs1; reflexivity|].
  destruct (at_exit _ _ _) as [[|]| |]; simpl.
  - destruct (victory i); simpl; eauto.
  - destruct (frame i); simpl; rewrite ?Hc; done.
  - done.
  - done.
Qed.

End Loop.

(** C7.  [run_game] returns -1 when setting up the display raises; and
    when the loop ends, it ends stopped, and [run_game] returns the recorded
    completion time - the clock of some tick of the script less the start
    clock - if the session was completed, and -1 if it was not: after a
    quit or an escape before the exit was reached, or after a fault that
    stopped the loop. *)
Theorem run_game_result {F : Type} `{PyFloat F} `{Libm F}
    (difficulty : string) (w : world F) :
  (forall e, display w = Raise e -> run_game difficulty w = Ok (of_int (-1))) /\
  (forall maze s,
     display w = Ok tt ->
     generate_maze (map_size (choose_config difficulty)) (rand w) = Ok maze ->
     game_loop (choose_config difficulty) maze
               (map_size (choose_config difficulty) - 2)
               (map_size (choose_config difficulty) - 2)
               (start_clock w) (script w)
               (Session (Pose (decimal 3 2) (decimal 3 2) (of_int 0)) (of_int 0) false true)
       = Ok s ->
     running s = false /\
     (game_completed s = true ->
        run_game difficulty w = Ok (completion_time s) /\
        exists i, In i (script w) /\
                  completion_time s = fsub (clock i) (start_clock w)) /\
     (game_completed s = false -> run_game difficulty w = Ok (of_int (-1)))).
Proof.
  split.
  - intros e He. unfold run_game. rewrite He. reflexivity.
  - intros maze s Hdisplay Hmaze Hloop.
    assert (Hrun : run_game difficulty w =
      Ok (if game_completed s then completion_time s else of_int (-1))).
    { unfold run_game. rewrite Hdisplay, Hmaze, Hloop. reflexivity. }
    set (s0 := Session (Pose (decimal 3 2) (decimal 3 2) (of_int 0)) (of_int 0) false true)
      in Hloop.
    assert (Hs0 : timed (start_clock w) (script w) s0) by (intros Hc; discriminate Hc).
    destruct (game_loop_invariant _ maze _ _ (start_clock w)
                (timed (start_clock w) (script w)) (script w)
                (fun i s Hi Hs => tick_timed _ maze _ _ (start_clock w) (script w) i s Hi Hs)
                (script w) s0 s (fun i Hi => Hi) Hs0 Hloop)
      as [Htimed Hstopped].
    split; [exact Hstopped|]. split; intros Hc; rewrite Hc in Hrun; [|exact Hrun].
    split; [exact Hrun|]. apply Htimed. exact Hc.
Qed.

(** ** The game loop on scripts that can be run *)


Example game_loop_wins :
  game_loop (H0 := zero_libm) tiny (filled 3 0) 1 0 2.5%float [step_in] before_exit =
    Ok (Session (Pose 1.0625%float 0.5%float 0%float) 10%float true false).
Proof. vm_compute. reflexivity. Qed.

(** An easy game whose window is closed in the first tick: the loop ends
    stopped and not completed, and [run_game] returns -1. *)
Lemma run_game_result_witness :
  run_game (H0 := zero_libm) "easy" quit_at_once = Ok (-1)%float.
Proof.
  destruct (run_game_result (H0 := zero_libm) "easy" quit_at_once) as [_ Hloop].
  set (maze := match generate_maze 15 (fun k => k) with Ok g => g | _ => [] end).
  set (s0 := Session (Pose 1.5%float 1.5%float 0%float) 0%float false true).
  set (s := match game_loop (H0 := zero_libm) EASY_CONFIG maze 13 13 100%float
                            (script quit_at_once) s0 with
            | Ok s => s
            | _ => s0
            end).
  destruct (Hloop maze s) as (_ & _ & Hquit).
  - reflexivity.
  - vm_compute. reflexivity.
  - vm_compute. reflexivity.
  - apply Hquit. vm_compute. reflexivity.
Defined.

(** The march on binary64 from the start pose runs the full 1000 + 1 iterations. *)
Example binary64_march_iterations :
  cast_ray_steps (H0 := zero_libm) 2000 HARD_CONFIG (filled 25 0)
                 1.5%float 1.5%float 0%float =
    (Ok 0x1.4051eb851eb1dp+4%float, 1001%nat).
Proof. vm_compute. reflexivity. Qed.

(** ** The generator on every size *)

(** From size 2 on the body of the [try] never raises: the grid is the
    grown tree with the two ends forced open. *)
Lemma generate_body_normal n rand :
  2 <= n ->
  exists g0,
    tree_grid n g0 /\
    (forall x y, inb n x y -> room n (x, y) = true -> is_open g0 x y) /\
    generate_body (growth_budget n) n rand = Ok (poke (poke g0 1 1 0) (n - 2) (n - 2) 0).
Proof.
  intros Hn. assert (0 < n) as Hpos by lia.
  destruct (grown_maze n rand Hpos) as (g0 & Hg & Htree & Hspan).
  pose proof (tree_grid_facts n g0 Hpos Htree) as Hfacts.
  exists g0. split_and!; [done..|].
  unfold generate_body.
  rewrite (setitem2_inb n) by first [apply square_filled | apply centre_inb; done]. rsimpl.
  rewrite Hg. rsimpl. apply carve_ends_inb; [done|apply Hfacts].
Qed.

Lemma carved_bits n g0 :
  2 <= n -> tree_grid n g0 ->
  let g := poke (poke g0 1 1 0) (n - 2) (n - 2) 0 in
  square n g /\
  (forall x y, inb n x y ->
     is_open g x y <-> (x = n - 2 /\ y = n - 2) \/ (x = 1 /\ y = 1) \/ is_open g0 x y) /\
  (forall x y, inb n x y -> is_open g x y \/ is_wall g x y).
Proof.
  intros Hn Htree g. assert (0 < n) as Hpos by lia.
  pose proof (tree_grid_facts n g0 Hpos Htree) as Hfacts.
  assert (Hsq1 : square n (poke g0 1 1 0)) by (apply square_poke, Hfacts).
  assert (Hopen : forall x y, inb n x y ->
     is_open g x y <-> (x = n - 2 /\ y = n - 2) \/ (x = 1 /\ y = 1) \/ is_open g0 x y).
  { intros x y [Hx Hy]. unfold g.
    rewrite (is_open_poke n) by first [done | unfold inb; lia | lia].
    rewrite (is_open_poke n) by first [apply Hfacts | unfold inb; lia | lia].
    reflexivity. }
  split_and!; [apply square_poke; done|done|].
  intros x y Hxy.
  destruct (decide (is_open g x y)) as [?|Hno]; [auto|right].
  rewrite Hopen in Hno by done.
  destruct (tf_bits n g0 Hfacts x y Hxy) as [?|Hw]; [tauto|].
  destruct Hxy as [Hx Hy]. unfold g.
  apply (is_wall_poke n); [done|unfold inb; lia|lia|lia|]. split; [tauto|].
  apply (is_wall_poke n); [apply Hfacts|unfold inb; lia|lia|lia|]. tauto.
Qed.

(** X1.  [generate_maze] returns a grid for every size and every sequence
    of draws: a square of that size (empty when the size is not positive)
    whose cells are all OPEN or WALL.  From size 2 on it is the grid of the
    normal path; for a size of 1 or less the body raises IndexError and the
    grid is the one of the [except] branch, which then has no OPEN cell. *)
Theorem generate_maze_total (size : Z) (rand : nat -> nat) :
  exists g,
    generate_maze size rand = Ok g /\
    square size g /\
    (forall x y, inb size x y -> is_open g x y \/ is_wall g x y) /\
    (2 <= size -> generate_body (growth_budget size) size rand = Ok g) /\
    (size <= 1 ->
       generate_body (growth_budget size) size rand = Raise IndexError /\
       simple_maze size = Ok g /\
       forall x y, inb size x y -> is_wall g x y).
Proof.
  destruct (decide (2 <= size)) as [Hbig|Hsmall].
  - destruct (generate_body_normal size rand Hbig) as (g0 & Htree & _ & Hbody).
    destruct (carved_bits size g0 Hbig Htree) as (Hsq & _ & Hbits).
    eexists. split_and!; [|exact Hsq|exact Hbits|done|lia].
    unfold generate_maze, generate_maze_fuel. rewrite Hbody. reflexivity.
  - destruct (decide (size = 1)) as [->|Hne].
    + exists [[1]]. split_and!; [reflexivity| |..].
      * split; [reflexivity|]. repeat constructor.
      * intros x y [Hx Hy]. right.
        replace x with 0 by lia. replace y with 0 by lia. reflexivity.
      * lia.
      * intros _. split_and!; [reflexivity..|]. intros x y [Hx Hy].
        replace x with 0 by lia. replace y with 0 by lia. reflexivity.
    + assert (Hnat : Z.to_nat size = 0%nat) by lia.
      assert (Hbody : generate_body (growth_budget size) size rand = Raise IndexError).
      { unfold generate_body, filled. rewrite Hnat. simpl.
        unfold setitem2, getitem, py_index. simpl.
        rewrite !bool_decide_false by lia. reflexivity. }
      assert (Hsimple : simple_maze size = Ok []).
      { unfold simple_maze, range, filled. rewrite Hnat.
        rewrite seqZ_nil by lia. reflexivity. }
      exists []. split_and!.
      * unfold generate_maze, generate_maze_fuel. rewrite Hbody. exact Hsimple.
      * split; [simpl; lia|constructor].
      * intros x y [Hx Hy]. lia.
      * lia.
      * intros _. split_and!; [done..|]. intros x y [Hx Hy]. lia.
Qed.

(** ** The outer ring *)

Lemma ring_off_lattice n v :
  n mod 4 = 3 -> v = 0 \/ v = n - 1 -> on_lattice n v = false.
Proof.
  intros Hn Hv. unfold on_lattice. apply not_true_iff_false.
  rewrite Z.even_spec. intros [k Hk].
  destruct Hv as [->| ->]; Z.div_mod_to_equations; lia.
Qed.

Lemma ring_walled n g :
  0 < n -> n mod 4 = 3 -> tree_facts n g ->
  forall x y, inb n x y -> on_border n x y -> is_wall g x y.
Proof.
  intros Hpos Hn Hfacts x y Hxy Hring.
  destruct (tf_bits n g Hfacts x y Hxy) as [Ho|?]; [exfalso|done].
  assert (Hoff : on_lattice n x = false \/ on_lattice n y = false).
  { unfold on_border in Hring.
    destruct Hring as [?|[?|[?|?]]];
      [left|left|right|right]; apply ring_off_lattice; auto. }
  destruct (tf_shape n g Hfacts x y Hxy Ho) as [Hr|Hp].
  - unfold room in Hr. simpl in Hr. apply andb_true_iff in Hr as [??].
    destruct Hoff; congruence.
  - destruct (tf_ends n g Hfacts x y Hxy Ho Hp) as [Hx Hy].
    unfold on_border, inb in *.
    destruct Hring as [?|[?|[?|?]]].
    + destruct Hx as (? & ? & _); [apply ring_off_lattice; auto|lia].
    + destruct Hx as (? & ? & _); [apply ring_off_lattice; auto|lia].
    + destruct Hy as (? & ? & _); [apply ring_off_lattice; auto|lia].
    + destruct Hy as (? & ? & _); [apply ring_off_lattice; auto|lia].
Qed.

(** X2.  When the size leaves remainder 3 on division by 4, as the easy
    size 15 does, every cell of the outer ring of a generated maze is WALL,
    whatever the draws: the maze is enclosed. *)
Theorem generate_maze_enclosed (size : Z) (rand : nat -> nat) :
  3 <= size -> size mod 4 = 3 ->
  exists g,
    generate_maze size rand = Ok g /\
    forall x y, inb size x y -> on_border size x y -> is_wall g x y.
Proof.
  intros Hsize Hmod. assert (0 < size) as Hpos by lia.
  destruct (generate_body_normal size rand ltac:(lia)) as (g0 & Htree & _ & Hbody).
  destruct (carved_bits size g0 ltac:(lia) Htree) as (Hsq & Hopen & Hbits).
  pose proof (tree_grid_facts size g0 Hpos Htree) as Hfacts.
  eexists. split.
  { unfold generate_maze, generate_maze_fuel. rewrite Hbody. reflexivity. }
  intros x y Hxy Hring.
  destruct (Hbits x y Hxy) as [Ho|?]; [exfalso|done].
  apply Hopen in Ho; [|done].
  pose proof (ring_walled size g0 Hpos Hmod Hfacts x y Hxy Hring) as Hw.
  unfold on_border in Hring.
  destruct Ho as [[-> ->]|[[-> ->]|Ho]]; [lia|lia|].
  apply (open_not_wall g0 x y); done.
Qed.

Lemma generate_maze_enclosed_witness :
  exists g,
    generate_maze 15 (fun k => k) = Ok g /\
    forall x y, inb 15 x y -> on_border 15 x y -> is_wall g x y.
Proof. apply (generate_maze_enclosed 15 (fun k => k)); [lia|reflexivity]. Defined.

(** X3.  When the size leaves remainder 1 on division by 4, as the medium
    size 21 and the hard size 25 do, every cell with two even coordinates
    is OPEN in a generated maze, whatever the draws; the four corners are
    among them, so the outer ring is not closed. *)
Theorem generate_maze_open_corners (size : Z) (rand : nat -> nat) :
  5 <= size -> size mod 4 = 1 ->
  exists g,
    generate_maze size rand = Ok g /\
    (forall x y, inb size x y -> Z.even x = true -> Z.even y = true -> is_open g x y) /\
    is_open g 0 0 /\ is_open g (size - 1) 0 /\
    is_open g 0 (size - 1) /\ is_open g (size - 1) (size - 1).
Proof.
  intros Hsize Hmod. assert (0 < size) as Hpos by lia.
  destruct (generate_body_normal size rand ltac:(lia)) as (g0 & Htree & Hspan & Hbody).
  destruct (carved_bits size g0 ltac:(lia) Htree) as (Hsq & Hopen & Hbits).
  eexists. split.
  { unfold generate_maze, generate_maze_fuel. rewrite Hbody. reflexivity. }
  assert (Hlat : forall v, Z.even v = true -> on_lattice size v = true).
  { intros v [k ->]%Z.even_spec. unfold on_lattice. apply Z.even_spec.
    exists (k - size `div` 4). Z.div_mod_to_equations. lia. }
  assert (Heven : forall x y, inb size x y -> Z.even x = true -> Z.even y = true ->
    is_open (poke (poke g0 1 1 0) (size - 2) (size - 2) 0) x y).
  { intros x y Hxy Hx Hy. apply Hopen; [done|]. right. right.
    apply Hspan; [done|]. unfold room. simpl. rewrite !Hlat by done. reflexivity. }
  assert (Hlast : Z.even (size - 1) = true).
  { apply Z.even_spec. exists (2 * (size `div` 4)). Z.div_mod_to_equations. lia. }
  split_and!; [exact Heven|..]; apply Heven; unfold inb; try done; lia.
Qed.

Lemma generate_maze_open_corners_witness :
  exists g,
    generate_maze 21 (fun k => k) = Ok g /\
    (forall x y, inb 21 x y -> Z.even x = true -> Z.even y = true -> is_open g x y) /\
    is_open g 0 0 /\ is_open g (21 - 1) 0 /\
    is_open g 0 (21 - 1) /\ is_open g (21 - 1) (21 - 1).
Proof. apply (generate_maze_open_corners 21 (fun k => k)); [lia|reflexivity]. Defined.

(** ** One connected region *)

Lemma connected_ends n g p q :
  connected n g p q ->
  (inb n p.1 p.2 /\ is_open g p.1 p.2) /\ (inb n q.1 q.2 /\ is_open g q.1 q.2).
Proof. induction 1; simpl in *; tauto. Qed.

Lemma connected_to n g p a b c d :
  connected n g p (a, b) -> unit_step (c - a) (d - b) ->
  inb n c d -> is_open g c d -> connected n g p (c, d).
Proof.
  intros Hp Hu Hin Ho. destruct p as [x y].
  replace c with (a + (c - a)) in * by lia. replace d with (b + (d - b)) in * by lia.
  apply connected_step; try done;
    replace (a + (c - a) - a) with (c - a) in Hu by lia;
    replace (b + (d - b) - b) with (d - b) in Hu by lia; done.
Qed.

Lemma connected_trans n g p q r :
  connected n g p q -> connected n g q r -> connected n g p r.
Proof.
  intros Hpq Hqr. induction Hqr as [x y Hin Ho|x y x' y' hx hy Hqr IH Hu Hin Ho].
  - done.
  - destruct p as [a b]. apply connected_step; auto.
Qed.

Lemma connected_sym n g p q : connected n g p q -> connected n g q p.
Proof.
  induction 1 as [x y Hin Ho|x y x' y' hx hy Hc IH Hu Hin Ho].
  - apply connected_here; done.
  - destruct (connected_ends _ _ _ _ Hc) as [_ [Hin' Ho']]. simpl in *.
    apply (connected_trans n g _ (x', y')); [|done].
    apply (connected_to n g _ (x' + hx) (y' + hy)); [apply connected_here; done| |done|done].
    unfold unit_step in *. lia.
Qed.

Lemma connected_mono n g g' p q :
  (forall a b, inb n a b -> is_open g a b -> is_open g' a b) ->
  connected n g p q -> connected n g' p q.
Proof.
  intros Hmono. induction 1; [apply connected_here|apply connected_step]; auto.
Qed.

(** A room joined to the centre by open passages is joined to it cell by cell. *)
Lemma linked_connected n g x y :
  0 < n -> linked n g x y -> connected n g (n `div` 2, n `div` 2) (x, y).
Proof.
  intros Hn Hl. induction Hl as [Hc|px py dx dy Hl IH Hd Hin Hm Hf].
  - apply connected_here; [apply centre_inb|]; done.
  - pose proof (linked_inb n g px py Hn Hl) as Hp.
    destruct (DIRS_unit dx dy Hd) as (hx & hy & Hu & -> & ->).
    replace ((2 * hx) `div` 2) with hx in Hm by (rewrite Z.mul_comm, Z.div_mul; lia).
    replace ((2 * hy) `div` 2) with hy in Hm by (rewrite Z.mul_comm, Z.div_mul; lia).
    apply (connected_to n g _ (px + hx) (py + hy)); [| |done|done].
    + apply (connected_to n g _ px py); [done| | |done].
      * replace (px + hx - px) with hx by lia. replace (py + hy - py) with hy by lia. done.
      * unfold inb, unit_step in *. lia.
    + replace (px + 2 * hx - (px + hx)) with hx by lia.
      replace (py + 2 * hy - (py + hy)) with hy by lia. done.
Qed.

(** In a tree-grown grid every open cell is joined to the centre. *)
Lemma tree_grid_connected n g x y :
  0 < n -> tree_grid n g -> inb n x y -> is_open g x y ->
  connected n g (n `div` 2, n `div` 2) (x, y).
Proof.
  intros Hn Htree Hxy Ho.
  pose proof (tree_grid_facts n g Hn Htree) as Hfacts.
  destruct (tf_shape n g Hfacts x y Hxy Ho) as [Hr|Hp].
  - apply linked_connected; [done|]. apply tree_grid_linked; done.
  - destruct (tf_ends n g Hfacts x y Hxy Ho Hp) as [Hx Hy].
    unfold passage in Hp. simpl in Hp.
    destruct (on_lattice n x) eqn:Lx, (on_lattice n y) eqn:Ly; try discriminate.
    + destruct Hy as (Hin & _ & Hopen & _); [done|].
      apply (connected_to n g _ x (y - 1)); [| |done|done].
      * apply linked_connected; [done|]. apply tree_grid_linked; try done.
        unfold room. simpl. rewrite Lx, on_lattice_prev, Ly. reflexivity.
      * unfold unit_step. lia.
    + destruct Hx as (Hin & _ & Hopen & _); [done|].
      apply (connected_to n g _ (x - 1) y); [| |done|done].
      * apply linked_connected; [done|]. apply tree_grid_linked; try done.
        unfold room. simpl. rewrite Ly, on_lattice_prev, Lx. reflexivity.
      * unfold unit_step. lia.
Qed.

(** A corner room hangs on the tree by one of its two passages, and both
    touch the cell diagonally inside the corner. *)
Lemma corner_passage n g v w :
  3 <= n -> tree_grid n g ->
  (v = 0 /\ w = 1) \/ (v = n - 1 /\ w = n - 2) ->
  on_lattice n v = true -> is_open g v v ->
  exists a b, inb n a b /\ is_open g a b /\ unit_step (w - a) (w - b).
Proof.
  intros Hn Htree Hvw Lv Ho. assert (0 < n) as Hpos by lia.
  assert (Hin : inb n v v) by (unfold inb; lia).
  assert (Hl : linked n g v v).
  { apply tree_grid_linked; try done. unfold room. simpl. rewrite Lv. reflexivity. }
  inversion Hl as [Hc Hv1 Hv2|px py dx dy Hl' Hd Hin' Hm Hf Hx Hy].
  - exfalso. Z.div_mod_to_equations. lia.
  - pose proof (linked_inb n g px py Hpos Hl') as Hp.
    destruct (DIRS_unit dx dy Hd) as (hx & hy & Hu & -> & ->).
    replace ((2 * hx) `div` 2) with hx in Hm by (rewrite Z.mul_comm, Z.div_mul; lia).
    replace ((2 * hy) `div` 2) with hy in Hm by (rewrite Z.mul_comm, Z.div_mul; lia).
    exists (px + hx), (py + hy). unfold inb, unit_step in *.
    split_and!; [lia..|done|lia].
Qed.

(** Every open cell of a generated grid is joined to the centre. *)
Lemma carved_connected n g0 x y :
  3 <= n -> tree_grid n g0 ->
  (forall a b, inb n a b -> room n (a, b) = true -> is_open g0 a b) ->
  let g := poke (poke g0 1 1 0) (n - 2) (n - 2) 0 in
  inb n x y -> is_open g x y -> connected n g (n `div` 2, n `div` 2) (x, y).
Proof.
  intros Hn Htree Hspan g Hxy Ho. assert (0 < n) as Hpos by lia.
  destruct (carved_bits n g0 ltac:(lia) Htree) as (Hsq & Hopen & Hbits). fold g in Hopen.
  assert (Hmono : forall a b, inb n a b -> is_open g0 a b -> is_open g a b)
    by (intros a b Hab ?; apply Hopen; auto).
  assert (Hold : forall a b, inb n a b -> is_open g0 a b ->
    connected n g (n `div` 2, n `div` 2) (a, b)).
  { intros a b Hab Hoab. apply (connected_mono n g0); [done|].
    apply tree_grid_connected; done. }
  assert (Hend : forall v w, (v = 0 /\ w = 1) \/ (v = n - 1 /\ w = n - 2) ->
    connected n g (n `div` 2, n `div` 2) (w, w)).
  { intros v w Hvw.
    assert (Hw : inb n w w) by (unfold inb; lia).
    assert (How : is_open g w w) by (apply Hopen; [done|]; lia).
    destruct (on_lattice n w) eqn:Lw.
    - apply Hold; [done|]. apply Hspan; [done|]. unfold room. simpl. rewrite Lw. reflexivity.
    - assert (Lv : on_lattice n v = true).
      { destruct Hvw as [[-> ->]|[-> ->]].
        - replace 0 with (1 - 1) by lia. rewrite on_lattice_prev, Lw. reflexivity.
        - replace (n - 1) with (n - 2 + 1) by lia. rewrite on_lattice_next, Lw. reflexivity. }
      assert (Hv : inb n v v) by (unfold inb; lia).
      destruct (corner_passage n g0 v w Hn Htree Hvw Lv) as (a & b & Hab & Hoab & Hu).
      { apply Hspan; [done|]. unfold room. simpl. rewrite Lv. reflexivity. }
      apply (connected_to n g _ a b); [apply Hold; done|done|done|done]. }
  apply Hopen in Ho; [|done].
  destruct Ho as [[-> ->]|[[-> ->]|Ho]].
  - apply (Hend (n - 1)). lia.
  - apply (Hend 0). lia.
  - apply Hold; done.
Qed.

(** X4.  From size 3 on, whatever the draws, the OPEN cells of a generated
    maze form one region: any two of them are joined by a walk through OPEN
    cells that goes from a cell to one of its four neighbours.  In
    particular the exit can be reached from the entrance. *)
Theorem generate_maze_connected (size : Z) (rand : nat -> nat) :
  3 <= size ->
  exists g,
    generate_maze size rand = Ok g /\
    (forall x y x' y',
       inb size x y -> inb size x' y' -> is_open g x y -> is_open g x' y' ->
       connected size g (x, y) (x', y')) /\
    connected size g (1, 1) (size - 2, size - 2).
Proof.
  intros Hsize.
  destruct (generate_body_normal size rand ltac:(lia)) as (g0 & Htree & Hspan & Hbody).
  destruct (carved_bits size g0 ltac:(lia) Htree) as (Hsq & Hopen & Hbits).
  set (g := poke (poke g0 1 1 0) (size - 2) (size - 2) 0) in *.
  assert (Hall : forall x y x' y',
       inb size x y -> inb size x' y' -> is_open g x y -> is_open g x' y' ->
       connected size g (x, y) (x', y')).
  { intros x y x' y' Hxy Hxy' Ho Ho'.
    apply (connected_trans size g _ (size `div` 2, size `div` 2)).
    - apply connected_sym. apply carved_connected; done.
    - apply carved_connected; done. }
  exists g. split_and!; [|exact Hall|].
  - unfold generate_maze, generate_maze_fuel. rewrite Hbody. reflexivity.
  - apply Hall; try (unfold inb; lia); apply Hopen; try (unfold inb; lia); lia.
Qed.

Lemma generate_maze_connected_witness :
  exists g,
    generate_maze 25 (fun k => k) = Ok g /\
    (forall x y x' y',
       inb 25 x y -> inb 25 x' y' -> is_open g x y -> is_open g x' y' ->
       connected 25 g (x, y) (x', y')) /\
    connected 25 g (1, 1) (25 - 2, 25 - 2).
Proof. apply (generate_maze_connected 25 (fun k => k)). lia. Defined.

(** ** The grid of the [except] branch *)

(** X5.  For every positive size the grid that the [except] branch of
    [generate_maze] builds is a square of that size, WALL on its outer ring
    and OPEN everywhere inside. *)
Theorem simple_maze_bordered (size : Z) :
  0 < size ->
  exists g,
    simple_maze size = Ok g /\ square size g /\
    forall x y, inb size x y ->
      (on_border size x y -> is_wall g x y) /\
      (~ on_border size x y -> is_open g x y).
Proof.
  intros Hsize. destruct (simple_maze_room size Hsize) as (g & Hg & Hsq & Hcells).
  exists g. split_and!; [done..|]. intros x y Hxy.
  specialize (Hcells x y Hxy). unfold on_border.
  case_decide; split; intros; tauto.
Qed.

Lemma simple_maze_bordered_witness :
  exists g,
    simple_maze 15 = Ok g /\ square 15 g /\
    forall x y, inb 15 x y ->
      (on_border 15 x y -> is_wall g x y) /\
      (~ on_border 15 x y -> is_open g x y).
Proof. apply (simple_maze_bordered 15). lia. Defined.

(** ** Rays that end on a wall *)

Section Hits.
Context {F : Type} `{PyFloat F} `{Libm F}.
Variables (cfg : config F) (maze : grid) (px py rc rs : F).

Lemma probe_hits k d :
  distance_at px py rc rs k = Ok d -> hits cfg maze px py rc rs k ->
  probe cfg maze px py (ray_at px rc k) (ray_at py rs k) = Ok (d, false).
Proof.
  intros Hd (ix & iy & Hix & Hiy & Hin & Hv). unfold probe. unfold distance_at in Hd.
  rewrite Hd. rsimpl. rewrite Hix. rsimpl. rewrite Hiy. rsimpl.
  rewrite Hin, Hv. reflexivity.
Qed.

(** From the [n]-th sample on: if the next [j - 1] samples pass and the
    probe of the one after them says stop, the loop returns that sample's
    distance, after [j] more iterations. *)
Lemma march_stops j :
  forall fuel n wd d,
    (j <= fuel)%nat -> (1 <= j)%nat ->
    (flt wd (of_int MAX_DEPTH)) = true ->
    (forall i, (n < i < n + j)%nat -> passes cfg maze px py rc rs i) ->
    probe cfg maze px py (ray_at px rc (n + j)) (ray_at py rs (n + j)) = Ok (d, false) ->
    march fuel cfg maze px py rc rs (ray_at px rc n) (ray_at py rs n) wd n =
      (Ok d, (n + j)%nat).
Proof.
  induction j as [|j IH]; intros fuel n wd d Hfuel Hj Hwd Hpass Hstop; [lia|].
  destruct fuel as [|fuel]; [lia|]. cbn [march]. rewrite Hwd.
  change (fadd (ray_at px rc n) rc) with (ray_at px rc (S n)).
  change (fadd (ray_at py rs n) rs) with (ray_at py rs (S n)).
  destruct (decide (j = 0%nat)) as [->|Hj0].
  - replace (n + 1)%nat with (S n) in * by lia. rewrite Hstop. reflexivity.
  - destruct (probe_passes cfg maze px py rc rs (S n)) as (d1 & -> & Hd1); [apply Hpass; lia|].
    replace (n + S j)%nat with (S n + j)%nat in * by lia.
    apply IH; [lia|lia|done| |done].
    intros i Hi. apply Hpass. lia.
Qed.

End Hits.

(** X6.  When the samples of a ray pass (in bounds, in cells that are no
    WALL, closer than MAX_DEPTH) until the [k]-th one lies in a WALL cell,
    [cast_ray] stops there, after [k] iterations, and returns the distance
    measured at that sample: the first sample found inside a wall, up to
    one step past the face of the wall. *)
Theorem cast_ray_hits_wall {F} `{PyFloat F} `{Libm F}
    (fuel : nat) (cfg : config F) (maze : grid) (px py angle c s d : F) (k : nat) :
  math_cos angle = Ok c -> math_sin angle = Ok s ->
  flt (of_int 0) (of_int MAX_DEPTH) = true ->
  (1 <= k <= fuel)%nat ->
  (forall i, (1 <= i < k)%nat ->
     passes cfg maze px py (fmul c RAY_STEP_SIZE) (fmul s RAY_STEP_SIZE) i) ->
  hits cfg maze px py (fmul c RAY_STEP_SIZE) (fmul s RAY_STEP_SIZE) k ->
  distance_at px py (fmul c RAY_STEP_SIZE) (fmul s RAY_STEP_SIZE) k = Ok d ->
  cast_ray_steps fuel cfg maze px py angle = (Ok d, k) /\
  cast_ray fuel cfg maze px py angle = Ok d.
Proof.
  intros Hc Hs Hguard Hk Hpass Hhit Hd.
  assert (Hsteps : cast_ray_steps fuel cfg maze px py angle = (Ok d, k)).
  { rewrite (cast_ray_steps_unfold _ _ _ _ _ _ c s) by done.
    apply (march_stops cfg maze px py _ _ k fuel 0%nat); try done; try lia;
      first [apply probe_hits; done | intros i Hi; apply Hpass; lia]. }
  split; [done|]. unfold cast_ray. rewrite Hsteps. reflexivity.
Qed.

Lemma cast_ray_hits_wall_witness :
  cast_ray_steps (H0 := zero_libm) 25 tiny pillar_grid 0.5%float 1.5%float 0%float =
    (Ok 0x1.0000000000004p-1%float, 25%nat) /\
  cast_ray (H0 := zero_libm) 25 tiny pillar_grid 0.5%float 1.5%float 0%float =
    Ok 0x1.0000000000004p-1%float.
Proof.
  apply (cast_ray_hits_wall (H0 := zero_libm) 25 tiny pillar_grid
           0.5%float 1.5%float 0%float 1%float 0%float _ 25).
  - reflexivity.
  - reflexivity.
  - reflexivity.
  - lia.
  - apply passesb_all. vm_compute. reflexivity.
  - eexists _, _. split_and!; vm_compute; reflexivity.
  - vm_compute. reflexivity.
Defined.

(** ** The player stays in the grid *)

Section Inside.
Context {F : Type} `{PyFloat F} `{Libm F}.
Variables (cfg : config F) (maze : grid).

Lemma can_enter_true a b :
  can_enter cfg maze a b = Ok true ->
  exists ia ib, fint a = Ok ia /\ fint b = Ok ib /\
    0 <= ia < map_size cfg /\ 0 <= ib < map_size cfg /\ getitem2 maze ib ia = Ok 0.
Proof.
  unfold can_enter. intros (ia & Ha & Hrest)%bind_Ok.
  destruct (in_range (map_size cfg) ia) eqn:Hia; [|discriminate].
  apply bind_Ok in Hrest as (ib & Hb & Hrest).
  destruct (in_range (map_size cfg) ib) eqn:Hib; [|discriminate].
  apply bind_Ok in Hrest as (c & Hc & Hrest).
  injection Hrest as Hrest. apply bool_decide_eq_true in Hrest. subst c.
  unfold in_range in Hia, Hib. apply bool_decide_eq_true in Hia, Hib.
  exists ia, ib. done.
Qed.

Lemma translate_in_grid x y mx my x' y' angle angle' :
  in_grid cfg (Pose x y angle) ->
  translate cfg maze x y mx my = Ok (x', y') ->
  in_grid cfg (Pose x' y' angle').
Proof.
  intros (ix & iy & Hx & Hy & Hix & Hiy). simpl in Hx, Hy. unfold translate. cbv zeta.
  intros (both & Hboth & Hrest)%bind_Ok. destruct both.
  - injection Hrest as <- <-.
    apply can_enter_true in Hboth as (ia & ib & ? & ? & ? & ? & _).
    exists ia, ib. done.
  - apply bind_Ok in Hrest as (bx & Hbx & Hrest).
    apply bind_Ok in Hrest as (by_ & Hby & Hrest).
    injection Hrest as <- <-.
    assert (Hx' : exists ia, fint (if bx then fadd x mx else x) = Ok ia /\
                             0 <= ia < map_size cfg).
    { destruct bx; [|eauto].
      apply can_enter_true in Hbx as (ia & ib & ? & ? & ? & ? & _). eauto. }
    assert (Hy' : exists ib, fint (if by_ then fadd y my else y) = Ok ib /\
                             0 <= ib < map_size cfg).
    { destruct by_; [|eauto].
      apply can_enter_true in Hby as (ia & ib & ? & ? & ? & ? & _). eauto. }
    destruct Hx' as (ia & ? & ?), Hy' as (ib & ? & ?). exists ia, ib. done.
Qed.

Lemma handle_movement_in_grid pressed p :
  in_grid cfg p -> in_grid cfg (handle_movement cfg maze pressed p).
Proof.
  intros Hp. destruct p as [x y angle]. unfold handle_movement.
  destruct pressed as [k| |]; [|done..].
  destruct (movement_vector cfg k _) as [[mx my]| |]; [|done..].
  cbn [player_x player_y player_angle].
  assert (Hturned : in_grid cfg (Pose x y (turn k angle))) by exact Hp.
  destruct (negb (feq mx (of_int 0)) || negb (feq my (of_int 0))); [|done].
  destruct (translate cfg maze x y mx my) as [[x' y']| |] eqn:Ht; [|done..].
  apply (translate_in_grid x y mx my x' y' angle); done.
Qed.

Lemma tick_in_grid exit_x exit_y start_time i s :
  in_grid cfg (where_ s) ->
  in_grid cfg (where_ (fst (tick cfg maze exit_x exit_y start_time i s))).
Proof.
  intros Hs. unfold tick.
  destruct (polled i) as [events| |]; [|exact Hs..].
  set (s1 := if existsb quits events then stop s else s).
  assert (Hs1 : in_grid cfg (where_ s1)) by (unfold s1; destruct (existsb quits events); exact Hs).
  destruct (game_completed s1); [exact Hs1|].
  pose proof (handle_movement_in_grid (pressed i) (where_ s1) Hs1) as Hmoved.
  destruct (at_exit _ _ _) as [[|]| |]; simpl.
  - destruct (victory i); exact Hmoved.
  - destruct (frame i); exact Hmoved.
  - exact Hmoved.
  - exact Hmoved.
Qed.

End Inside.

(** X7.  A pose whose truncated coordinates are cell indices of the grid
    keeps that property through every tick of the game loop, whatever the
    keys, the grid and the faults: a move is only accepted after its target
    index passed the bounds test.  So the session that a finished loop
    returns has the player in the grid, also where the outer ring of the
    maze is open. *)
Theorem player_stays_in_grid {F} `{PyFloat F} `{Libm F}
    (cfg : config F) (maze : grid) (exit_x exit_y : Z) (start_time : F) (s : session F) :
  in_grid cfg (where_ s) ->
  (forall i, in_grid cfg (where_ (fst (tick cfg maze exit_x exit_y start_time i s)))) /\
  (forall inputs s',
     game_loop cfg maze exit_x exit_y start_time inputs s = Ok s' ->
     in_grid cfg (where_ s')).
Proof.
  intros Hs. split.
  - intros i. apply tick_in_grid. exact Hs.
  - intros inputs s' Hloop.
    apply (game_loop_invariant cfg maze exit_x exit_y start_time
             (fun s => in_grid cfg (where_ s)) inputs
             (fun i s _ Hs => tick_in_grid cfg maze exit_x exit_y start_time i s Hs)
             inputs s s' (fun i Hi => Hi) Hs Hloop).
Qed.

Lemma player_stays_in_grid_witness :
  (forall i, in_grid tiny
     (where_ (fst (tick (H0 := zero_libm) tiny pillar_grid 1 0 2.5%float i before_exit)))) /\
  (forall inputs s',
     game_loop (H0 := zero_libm) tiny pillar_grid 1 0 2.5%float inputs before_exit = Ok s' ->
     in_grid tiny (where_ s')).
Proof.
  apply (player_stays_in_grid (H0 := zero_libm) tiny pillar_grid 1 0 2.5%float before_exit).
  exists 0, 0. split_and!; try reflexivity; simpl; lia.
Defined.

(** ** Keys that cancel *)

(** On binary64, [(0 + a) - a] is zero, or not a number when [a] is an
    infinity or not a number. *)
Lemma add_sub_cancel (a : float) :
  let r := PrimFloat.sub (PrimFloat.add (float_of_int 0) a) a in
  Prim2SF r = S754_zero false \/ Prim2SF r = S754_nan.
Proof.
  cbv zeta. rewrite FloatAxioms.sub_spec, FloatAxioms.add_spec.
  change (Prim2SF (float_of_int 0)) with (S754_zero false).
  unfold SF64sub, SF64add, SFsub, SFadd.
  destruct (Prim2SF a) as [s|s| |s m e]; simpl.
  - destruct s; auto.
  - destruct s; auto.
  - auto.
  - left. rewrite Z.sub_diag. reflexivity.
Qed.

Lemma eqb_zero_cases (r : float) :
  Prim2SF r = S754_zero false \/ Prim2SF r = S754_nan ->
  (PrimFloat.eqb r (float_of_int 0) = true /\ Prim2SF r = S754_zero false) \/
  (PrimFloat.eqb r (float_of_int 0) = false /\ Prim2SF r = S754_nan).
Proof.
  rewrite FloatAxioms.eqb_spec.
  change (Prim2SF (float_of_int 0)) with (S754_zero false).
  intros [->| ->]; [left|right]; split; reflexivity.
Qed.

Lemma float_int_nan (x : float) : Prim2SF x = S754_nan -> float_int x = Raise ValueError.
Proof. unfold float_int. intros ->. reflexivity. Qed.

Lemma add_nan_r (x r : float) : Prim2SF r = S754_nan -> Prim2SF (PrimFloat.add x r) = S754_nan.
Proof.
  intros Hr. rewrite FloatAxioms.add_spec, Hr. unfold SF64add, SFadd.
  destruct (Prim2SF x); reflexivity.
Qed.

(** A move that is zero or not a number on each axis leaves the position. *)
Lemma translate_null (cfg : config float) (maze : grid) (x y mx my x' y' : float) :
  Prim2SF mx = S754_nan \/ Prim2SF my = S754_nan ->
  Prim2SF mx = S754_zero false \/ Prim2SF mx = S754_nan ->
  translate cfg maze x y mx my = Ok (x', y') -> x' = x /\ y' = y.
Proof.
  intros Hsome Hmx. unfold translate. cbv zeta.
  destruct Hmx as [Hzero|Hnan].
  - destruct Hsome as [Hc|Hmy]; [congruence|].
    pose proof (float_int_nan _ (add_nan_r y my Hmy)) as Hny.
    assert (Hno : forall a, can_enter cfg maze a (PrimFloat.add y my) <> Ok true).
    { intros a Ha. apply can_enter_true in Ha as (? & ? & _ & Hb & _).
      simpl in Hb. simpl in Hny. congruence. }
    intros (both & Hboth & Hrest)%bind_Ok.
    destruct both; [exfalso; apply (Hno _ Hboth)|].
    apply bind_Ok in Hrest as (bx & Hbx & Hrest).
    apply bind_Ok in Hrest as (by_ & Hby & Hrest).
    destruct by_; [exfalso; apply (Hno _ Hby)|].
    injection Hrest as <- <-. split; [|reflexivity].
    destruct bx; [|reflexivity]. exfalso.
    (* the combined test and the test of x alone read the same index *)
    unfold can_enter in Hboth, Hbx.
    destruct (fint (fadd x mx)) as [ia| |]; rsimpl_in Hboth; rsimpl_in Hbx; try discriminate.
    destruct (in_range (map_size cfg) ia); [|discriminate].
    simpl in Hny. simpl in Hboth. rewrite Hny in Hboth. discriminate.
  - pose proof (float_int_nan _ (add_nan_r x mx Hnan)) as Hnx.
    unfold can_enter. simpl. simpl in Hnx. rewrite Hnx. discriminate.
Qed.

(** X8.  On binary64, with any C library: when no strafe key is held and
    forward and backward are held together or not at all, [handle_movement]
    leaves the position as it was.  The two contributions cancel exactly,
    and where they are not numbers the move raises before anything is
    assigned. *)
Theorem opposite_keys_cancel (m : Libm float) (cfg : config float) (maze : grid)
    (k : keys) (p : pose float) :
  K_q k = false -> K_e k = false ->
  K_w k || K_UP k = K_s k || K_DOWN k ->
  let p' := handle_movement cfg maze (Ok k) p in
  player_x p' = player_x p /\ player_y p' = player_y p.
Proof.
  intros Hq He Hws p'. unfold p', handle_movement.
  destruct (movement_vector cfg k (player_angle p)) as [[mx my]| |] eqn:Hmv; [|done..].
  cbn [player_x player_y player_angle].
  assert (Hnull : (Prim2SF mx = S754_zero false \/ Prim2SF mx = S754_nan) /\
                  (Prim2SF my = S754_zero false \/ Prim2SF my = S754_nan)).
  { unfold movement_vector in Hmv. rewrite Hq, He, <- Hws in Hmv.
    destruct (K_w k || K_UP k).
    - destruct (math_cos (player_angle p)) as [c| |]; rsimpl_in Hmv; try discriminate.
      destruct (math_sin (player_angle p)) as [s| |]; rsimpl_in Hmv; try discriminate.
      injection Hmv as <- <-. split; apply add_sub_cancel.
    - rsimpl_in Hmv. injection Hmv as <- <-. split; left; reflexivity. }
  destruct Hnull as [Hmx Hmy].
  destruct (eqb_zero_cases mx Hmx) as [[Ex _]|[Ex Nx]],
           (eqb_zero_cases my Hmy) as [[Ey _]|[Ey Ny]];
    simpl; rewrite Ex, Ey; simpl; try done;
    (destruct (translate cfg maze (player_x p) (player_y p) mx my) as [[x' y']| |] eqn:Ht;
       [|done..]);
    apply translate_null in Ht; auto; simpl; tauto.
Qed.

Lemma opposite_keys_cancel_witness :
  let p' := handle_movement (H0 := zero_libm) EASY_CONFIG (filled 15 0)
              (Ok (Keys true false true false false false false false false false))
              (Pose 1.5%float 1.5%float 0%float) in
  player_x p' = 1.5%float /\ player_y p' = 1.5%float.
Proof.
  apply (opposite_keys_cancel zero_libm EASY_CONFIG (filled 15 0)
           (Keys true false true false false false false false false false)
           (Pose 1.5%float 1.5%float 0%float)); reflexivity.
Defined.

(** ** A quit request in the winning tick *)

(** X9.  A quit request (the window closed, or Escape) only clears
    [running]: the tick that polled it still handles the keys and tests the
    exit.  So when the pose after that tick's input handling is in the exit
    cell, the loop ends with the game completed and that tick's elapsed
    time, not aborted, and nothing that follows in the script is read. *)
Theorem quit_in_winning_tick {F} `{PyFloat F} `{Libm F}
    (cfg : config F) (maze : grid) (exit_x exit_y : Z) (start_time : F)
    (i : tick_input F) (rest : list (tick_input F)) (s : session F)
    (events : list event) :
  running s = true -> game_completed s = false ->
  polled i = Ok events -> existsb quits events = true ->
  let p := handle_movement cfg maze (pressed i) (where_ s) in
  fint (player_x p) = Ok exit_x -> fint (player_y p) = Ok exit_y ->
  (forall batches, victory i = Ok batches -> existsb (existsb dismisses) batches = true) ->
  game_loop cfg maze exit_x exit_y start_time (i :: rest) s =
    Ok (Session p (fsub (clock i) start_time) true false).
Proof.
  intros Hrun Hnot Hpoll Hquit p Hx Hy Hdismiss.
  cbn [game_loop]. rewrite Hrun. unfold tick. rewrite Hpoll, Hquit.
  cbn [stop game_completed where_ completion_time running]. rewrite Hnot.
  fold p. rewrite (at_exit_spec exit_x exit_y p exit_x exit_y Hx Hy).
  rewrite bool_decide_true by done.
  destruct (victory i) as [batches| |] eqn:Hv.
  - rewrite (Hdismiss batches eq_refl). destruct rest; reflexivity.
  - destruct rest; reflexivity.
  - destruct rest; reflexivity.
Qed.

Lemma quit_in_winning_tick_witness :
  game_loop (H0 := zero_libm) tiny (filled 3 0) 1 0 2.5%float
    [TickInput (Ok [QUIT]) (Ok key_w) 12.5%float (Ok [[KEYDOWN false]]) (Ok tt)]
    before_exit =
  Ok (Session (handle_movement (H0 := zero_libm) tiny (filled 3 0) (Ok key_w)
                 (where_ before_exit))
              (fsub 12.5%float 2.5%float) true false).
Proof.
  apply (quit_in_winning_tick (H0 := zero_libm) tiny (filled 3 0) 1 0 2.5%float
           (TickInput (Ok [QUIT]) (Ok key_w) 12.5%float (Ok [[KEYDOWN false]]) (Ok tt))
           [] before_exit [QUIT]); try reflexivity.
  intros batches [= <-]. reflexivity.
Defined.

(** ** Stable sorting by insertion *)

Section Sorting.
Context {A K : Type} (lt : K -> K -> bool) (key : A -> K) (good : A -> Prop).

(** [a] may stand before [b]. *)
Let le (a b : A) : Prop := lt (key b) (key a) = false.

Hypothesis lt_asym : forall a b,
  good a -> good b -> lt (key a) (key b) = true -> lt (key b) (key a) = false.
Hypothesis le_trans : forall a b c,
  good a -> good b -> good c -> le a b -> le b c -> le a c.

Lemma insert_by_Permutation x l : insert_by lt key x l ≡ₚ x :: l.
Proof.
  induction l as [|y l IH]; simpl; [done|].
  destruct (lt (key y) (key x)); [|done].
  rewrite IH. apply Permutation_swap.
Qed.

Lemma sorted_Permutation l : sorted lt key l ≡ₚ l.
Proof.
  induction l as [|x l IH]; simpl; [done|].
  rewrite insert_by_Permutation, IH. done.
Qed.

Lemma sorted_good l : Forall good l -> Forall good (sorted lt key l).
Proof. intros Hl. rewrite sorted_Permutation. done. Qed.

Lemma insert_by_head x l :
  good x -> Forall good l -> Forall (le x) l -> insert_by lt key x l = x :: l.
Proof.
  intros Hx Hl Hle. destruct l as [|y l]; simpl; [done|].
  apply Forall_cons in Hle as [Hxy _]. unfold le in Hxy. rewrite Hxy. reflexivity.
Qed.

Lemma insert_by_ordered x l :
  good x -> Forall good l -> ordered le l -> ordered le (insert_by lt key x l).
Proof.
  intros Hx Hl Hs. induction l as [|y l IH]; simpl.
  - split; [constructor|done].
  - apply Forall_cons in Hl as [Hgy Hgl]. destruct Hs as [Hy Hs].
    destruct (lt (key y) (key x)) eqn:Hyx.
    + split; [|auto].
      rewrite insert_by_Permutation. constructor; [|done].
      unfold le. auto.
    + split; [|split; done].
      constructor; [exact Hyx|].
      rewrite Forall_forall in Hy, Hgl. apply Forall_forall. intros z Hz.
      apply (le_trans x y z); auto.
Qed.

Lemma sorted_ordered l : Forall good l -> ordered le (sorted lt key l).
Proof.
  induction 1 as [|x l Hx Hl IH]; simpl; [done|].
  apply insert_by_ordered; [done|apply sorted_good; done|done].
Qed.

Lemma filter_insert_by (P : A -> Prop) `{forall a, Decision (P a)} x l :
  good x -> Forall good l -> ordered le l -> P x ->
  filter P (insert_by lt key x l) = insert_by lt key x (filter P l).
Proof.
  intros Hx Hl Hs HP. induction l as [|y l IH]; simpl.
  - rewrite filter_cons_True by done. reflexivity.
  - apply Forall_cons in Hl as [Hgy Hgl]. destruct Hs as [Hy Hs].
    destruct (lt (key y) (key x)) eqn:Hyx.
    + destruct (decide (P y)) as [Py|Py].
      * rewrite !filter_cons_True by done. simpl. rewrite Hyx, IH by done. reflexivity.
      * rewrite !filter_cons_False by done. auto.
    + rewrite filter_cons_True by done.
      destruct (decide (P y)) as [Py|Py].
      * rewrite !filter_cons_True by done. simpl. rewrite Hyx. reflexivity.
      * rewrite !filter_cons_False by done.
        rewrite insert_by_head; [done|done| |].
        -- apply Forall_forall. intros z Hz%list_elem_of_filter.
           rewrite Forall_forall in Hgl. apply Hgl. tauto.
        -- apply Forall_forall. intros z Hz%list_elem_of_filter.
           rewrite Forall_forall in Hy, Hgl. apply (le_trans x y z); auto; try tauto.
           apply Hgl. tauto. apply Hy. tauto.
Qed.

Lemma filter_insert_by_skip (P : A -> Prop) `{forall a, Decision (P a)} x l :
  ~ P x -> filter P (insert_by lt key x l) = filter P l.
Proof.
  intros HP. induction l as [|y l IH]; simpl.
  - rewrite filter_cons_False by done. reflexivity.
  - destruct (lt (key y) (key x)).
    + rewrite !(filter_cons _ y), IH. reflexivity.
    + rewrite filter_cons_False by done. reflexivity.
Qed.

Lemma filter_sorted (P : A -> Prop) `{forall a, Decision (P a)} l :
  Forall good l -> filter P (sorted lt key l) = sorted lt key (filter P l).
Proof.
  induction 1 as [|x l Hx Hl IH]; simpl; [done|].
  destruct (decide (P x)) as [Px|Px].
  - rewrite filter_cons_True by done. simpl. rewrite <- IH.
    apply filter_insert_by; [done|apply sorted_good; done|apply sorted_ordered; done|done].
  - rewrite filter_cons_False by done. rewrite <- IH.
    apply filter_insert_by_skip. done.
Qed.

(** Sorting leaves a list alone when no element must move before an earlier one. *)
Lemma sorted_id l : ordered le l -> sorted lt key l = l.
Proof.
  induction l as [|x l IH]; simpl; [done|]. intros [Hx Hs].
  rewrite IH by done. destruct l as [|y l']; simpl; [done|].
  apply Forall_cons in Hx as [Hxy _]. unfold le in Hxy. rewrite Hxy. reflexivity.
Qed.

End Sorting.

(** ** The order of binary64 numbers *)

Ltac compare_cases :=
  repeat match goal with
  | H : context [Z.compare ?a ?b] |- _ => destruct (Z.compare_spec a b)
  | |- context [Z.compare ?a ?b] => destruct (Z.compare_spec a b)
  | H : context [Pos.compare ?a ?b] |- _ => destruct (Pos.compare_spec a b)
  | |- context [Pos.compare ?a ?b] => destruct (Pos.compare_spec a b)
  end.

Lemma SFltb_asym x y : SFltb x y = true -> SFltb y x = false.
Proof.
  unfold SFltb, SFcompare.
  destruct x as [[]|[]| |[] mx ex], y as [[]|[]| |[] my ey]; simpl; try done;
    change (Pos.compare_cont Eq ?a ?b) with (Pos.compare a b);
    compare_cases; simpl; try done; lia.
Qed.

Lemma SFltb_cotrans x y z :
  sf_number x -> sf_number y -> sf_number z ->
  SFltb x y = false -> SFltb y z = false -> SFltb x z = false.
Proof.
  unfold SFltb, SFcompare.
  destruct x as [[]|[]| |[] mx ex], y as [[]|[]| |[] my ey], z as [[]|[]| |[] mz ez];
    simpl; try done; intros _ _ _;
    change (Pos.compare_cont Eq ?a ?b) with (Pos.compare a b);
    compare_cases; simpl; try done; lia.
Qed.

Lemma is_nan_number (x : float) : PrimFloat.is_nan x = false -> sf_number (Prim2SF x).
Proof.
  unfold PrimFloat.is_nan. rewrite FloatAxioms.eqb_spec.
  destruct (Prim2SF x); done.
Qed.

Lemma ltb_asym (x y : float) : PrimFloat.ltb x y = true -> PrimFloat.ltb y x = false.
Proof. rewrite !FloatAxioms.ltb_spec. apply SFltb_asym. Qed.

Lemma ltb_cotrans (x y z : float) :
  PrimFloat.is_nan x = false -> PrimFloat.is_nan y = false -> PrimFloat.is_nan z = false ->
  PrimFloat.ltb x y = false -> PrimFloat.ltb y z = false -> PrimFloat.ltb x z = false.
Proof.
  intros Hx Hy Hz. rewrite !FloatAxioms.ltb_spec.
  apply SFltb_cotrans; apply is_nan_number; done.
Qed.

Lemma tuple_lt_asym a b : tuple_lt a b = true -> tuple_lt b a = false.
Proof.
  unfold tuple_lt. repeat case_bool_decide; try done; try lia; try congruence.
  apply ltb_asym.
Qed.

Lemma tuple_lt_cotrans a b c :
  PrimFloat.is_nan a.2 = false -> PrimFloat.is_nan b.2 = false ->
  PrimFloat.is_nan c.2 = false ->
  tuple_lt a b = false -> tuple_lt b c = false -> tuple_lt a c = false.
Proof.
  intros Ha Hb Hc. unfold tuple_lt.
  repeat case_bool_decide; try done; try lia; try congruence.
  apply ltb_cotrans; done.
Qed.

(** ** [statistics.py] *)

Lemma load_after_save l d :
  write_fault d = None -> read_fault d = false ->
  save_statistics l d = (true, with_content d (Records l)) /\
  load_statistics (with_content d (Records l)) = l.
Proof.
  intros Hw Hr. unfold save_statistics, load_statistics. rewrite Hw. simpl.
  rewrite Hr. done.
Qed.

(** X10.  [add_statistic] returns True exactly when the write succeeds; the
    file then holds the records that [load_statistics] returned before the
    call, followed by the new one, so that a missing, unreadable or
    undecodable file is replaced by a file with the new record alone.  When
    the write raises, it returns False with the file as the write left it. *)
Theorem add_statistic_appends (now player_name : str) (completion_time : float)
    (difficulty : str) (d : disk) :
  let new_record := Stat player_name now completion_time difficulty in
  let '(saved, d') := add_statistic now player_name completion_time difficulty d in
  (saved = true <-> write_fault d = None) /\
  (saved = true ->
     content d' = Records (load_statistics d ++ [new_record]) /\
     (read_fault d = false ->
        load_statistics d' = load_statistics d ++ [new_record]) /\
     (content d = Absent \/ content d = Undecodable \/ read_fault d = true ->
        content d' = Records [new_record])) /\
  (forall remains, write_fault d = Some remains -> content d' = remains).
Proof.
  unfold add_statistic, save_statistics. cbv zeta.
  destruct (write_fault d) as [remains|] eqn:Hw.
  - split_and!; [split; done|done|]. intros ? [= <-]. reflexivity.
  - split_and!; [split; done| |done]. intros _. split_and!.
    + reflexivity.
    + intros Hr. unfold load_statistics at 1. simpl. rewrite Hr. reflexivity.
    + intros Hempty. simpl. unfold load_statistics.
      destruct Hempty as [-> | [-> | ->]]; [reflexivity..|].
      destruct (content d); reflexivity.
Qed.

Lemma timed_good l :
  timed_records l -> Forall (fun x => PrimFloat.is_nan (rank_key x).2 = false) l.
Proof. done. Qed.

Lemma ranked_trans a b c :
  PrimFloat.is_nan (stat_time a) = false -> PrimFloat.is_nan (stat_time b) = false ->
  PrimFloat.is_nan (stat_time c) = false ->
  ranked a b -> ranked b c -> ranked a c.
Proof.
  unfold ranked. intros Ha Hb Hc Hab Hbc.
  apply (tuple_lt_cotrans (rank_key c) (rank_key b) (rank_key a)); done.
Qed.

(** X11.  When no recorded time is a NaN, [get_sorted_statistics] returns
    the loaded records rearranged so that no record is ranked after a later
    one - a harder difficulty first (hard, medium, easy, then any other
    label), and for equal difficulty the shorter time first - and records
    that tie keep the order they have in the file. *)
Theorem get_sorted_statistics_ranked (d : disk) :
  timed_records (load_statistics d) ->
  get_sorted_statistics d ≡ₚ load_statistics d /\
  ordered ranked (get_sorted_statistics d) /\
  forall r, PrimFloat.is_nan (stat_time r) = false ->
    filter (tied r) (get_sorted_statistics d) = filter (tied r) (load_statistics d).
Proof.
  intros Htimed. unfold get_sorted_statistics.
  set (good := fun x : stat => PrimFloat.is_nan (stat_time x) = false).
  assert (Hasym : forall a b : stat, good a -> good b ->
    tuple_lt (rank_key a) (rank_key b) = true -> tuple_lt (rank_key b) (rank_key a) = false)
    by (intros a b _ _; apply tuple_lt_asym).
  assert (Htrans : forall a b c : stat, good a -> good b -> good c ->
    tuple_lt (rank_key b) (rank_key a) = false -> tuple_lt (rank_key c) (rank_key b) = false ->
    tuple_lt (rank_key c) (rank_key a) = false)
    by (intros a b c Ha Hb Hc; apply ranked_trans; done).
  split_and!.
  - apply sorted_Permutation.
  - apply (sorted_ordered tuple_lt rank_key good Hasym Htrans). exact Htimed.
  - intros r Hr.
    rewrite (filter_sorted tuple_lt rank_key good Hasym Htrans) by exact Htimed.
    apply (sorted_id tuple_lt rank_key).
    assert (Hall : Forall (fun x => good x /\ tied r x) (filter (tied r) (load_statistics d))).
    { apply Forall_forall. intros x [Hx Hin]%list_elem_of_filter. split; [|done].
      unfold timed_records in Htimed. rewrite Forall_forall in Htimed.
      apply Htimed. done. }
    induction Hall as [|x l [Hgx [Hrx Hxr]] Hall IH]; simpl; [done|].
    split; [|exact IH].
    eapply Forall_impl; [exact Hall|]. intros y [Hgy [Hry Hyr]].
    apply (Htrans x r y); done.
Qed.

Lemma get_sorted_statistics_ranked_witness :
  get_sorted_statistics shelf ≡ₚ load_statistics shelf /\
  ordered ranked (get_sorted_statistics shelf) /\
  forall r, PrimFloat.is_nan (stat_time r) = false ->
    filter (tied r) (get_sorted_statistics shelf) = filter (tied r) (load_statistics shelf).
Proof.
  apply (get_sorted_statistics_ranked shelf).
  repeat constructor.
Defined.

(** X12.  When no recorded time is a NaN, the statistics of one player are
    the records of that player picked, in order, from the list that
    [get_sorted_statistics] returns. *)
Theorem get_player_statistics_filter (player_name : str) (d : disk) :
  timed_records (load_statistics d) ->
  get_player_statistics player_name d =
    filter (fun stat => stat_player stat = player_name) (get_sorted_statistics d).
Proof.
  intros Htimed. unfold get_player_statistics, get_sorted_statistics. cbv zeta.
  set (good := fun x : stat => PrimFloat.is_nan (stat_time x) = false).
  symmetry. apply (filter_sorted tuple_lt rank_key good); [| |exact Htimed].
  - intros a b _ _. apply tuple_lt_asym.
  - intros a b c Ha Hb Hc. apply ranked_trans; done.
Qed.

Lemma get_player_statistics_filter_witness :
  get_player_statistics ann shelf =
    filter (fun stat => stat_player stat = ann) (get_sorted_statistics shelf).
Proof. apply (get_player_statistics_filter ann shelf). repeat constructor. Defined.

Lemma insert_by_ext {A K1 K2} (lt1 : K1 -> K1 -> bool) (key1 : A -> K1)
    (lt2 : K2 -> K2 -> bool) (key2 : A -> K2) (x : A) (l : list A) :
  Forall (fun y => lt1 (key1 y) (key1 x) = lt2 (key2 y) (key2 x)) l ->
  insert_by lt1 key1 x l = insert_by lt2 key2 x l.
Proof.
  induction 1 as [|y l Hy Hl IH]; simpl; [done|].
  rewrite Hy, IH. reflexivity.
Qed.

Lemma sorted_ext {A K1 K2} (lt1 : K1 -> K1 -> bool) (key1 : A -> K1)
    (lt2 : K2 -> K2 -> bool) (key2 : A -> K2) (P : A -> Prop) (l : list A) :
  (forall x y, P x -> P y -> lt1 (key1 y) (key1 x) = lt2 (key2 y) (key2 x)) ->
  Forall P l -> sorted lt1 key1 l = sorted lt2 key2 l.
Proof.
  intros Hext. induction 1 as [|x l Hx Hl IH]; simpl; [done|].
  rewrite IH. apply insert_by_ext.
  assert (HP : Forall P (sorted lt2 key2 l)) by (rewrite sorted_Permutation; done).
  eapply Forall_impl; [exact HP|]. intros y Hy. apply Hext; done.
Qed.

(** X13.  When no recorded time is a NaN, the statistics of one difficulty,
    which are sorted by time alone, are the records of that difficulty
    picked, in order, from the list that [get_sorted_statistics] returns. *)
Theorem get_difficulty_statistics_filter (difficulty : str) (d : disk) :
  timed_records (load_statistics d) ->
  get_difficulty_statistics difficulty d =
    filter (fun stat => stat_difficulty stat = difficulty) (get_sorted_statistics d).
Proof.
  intros Htimed. unfold get_difficulty_statistics, get_sorted_statistics. cbv zeta.
  set (good := fun x : stat => PrimFloat.is_nan (stat_time x) = false).
  rewrite (filter_sorted tuple_lt rank_key good); [| | |exact Htimed].
  - symmetry.
    apply (sorted_ext _ _ _ _ (fun stat => stat_difficulty stat = difficulty)).
    + intros x y Hx Hy. unfold tuple_lt, rank_key. simpl.
      rewrite Hx, Hy. rewrite bool_decide_true by done. reflexivity.
    + apply Forall_forall. intros x Hx%list_elem_of_filter. tauto.
  - intros a b _ _. apply tuple_lt_asym.
  - intros a b c Ha Hb Hc. apply ranked_trans; done.
Qed.

Lemma get_difficulty_statistics_filter_witness :
  get_difficulty_statistics EASY_LABEL shelf =
    filter (fun stat => stat_difficulty stat = EASY_LABEL) (get_sorted_statistics shelf).
Proof.
  apply (get_difficulty_statistics_filter EASY_LABEL shelf). repeat constructor.
Defined.

(** X14.  [clear_statistics] returns True and leaves no file, so that a
    following load is empty, unless the file exists and removing it raises;
    then it returns False and the file stays.  Clearing when there is no
    file returns True and changes nothing. *)
Theorem clear_statistics_empties (d : disk) :
  let '(cleared, d') := clear_statistics d in
  (cleared = true -> content d' = Absent /\ load_statistics d' = [] /\
                     get_sorted_statistics d' = []) /\
  (cleared = false <-> content d <> Absent /\ remove_fault d = true) /\
  (cleared = false -> d' = d) /\
  (content d = Absent -> cleared = true /\ d' = d).
Proof.
  destruct d as [c rf wf mf]. unfold clear_statistics, get_sorted_statistics, load_statistics.
  destruct c, mf; simpl; split_and!; try done; try tauto;
    try (split; [done|intros [??]; done]).
Qed.

(** ** [main.py]: the text field *)

(** X15.  A text field that has the focus appends what a key types and
    drops its last code point on Backspace, so typing one character and
    then Backspace gives the text back; Backspace on an empty text leaves
    it empty; Return alone reports True, and changes nothing.  A field
    without the focus ignores every key. *)
Theorem handle_event_edits (box : InputBox) (c : N) (key : keycode) (unicode : str) :
  box_active box = true ->
  let typed := fst (handle_event box (MENU_KEYDOWN K_ANOTHER [c])) in
  box_text typed = box_text box ++ [c] /\
  fst (handle_event typed (MENU_KEYDOWN K_BACKSPACE [])) = box /\
  (box_text box = [] ->
     fst (handle_event box (MENU_KEYDOWN K_BACKSPACE [])) = box) /\
  handle_event box (MENU_KEYDOWN K_RETURN unicode) = (box, true) /\
  (key <> K_RETURN -> snd (handle_event box (MENU_KEYDOWN key unicode)) = false) /\
  handle_event (Box (box_rect box) (box_text box) false) (MENU_KEYDOWN key unicode) =
    (Box (box_rect box) (box_text box) false, false).
Proof.
  intros Hactive. destruct box as [r text active]. simpl in *. subst active. simpl.
  split_and!; try done.
  - rewrite removelast_last. reflexivity.
  - intros ->. reflexivity.
  - intros Hkey. destruct key; done.
Qed.

Lemma handle_event_edits_witness :
  let box := Box input_rect ann true in
  let typed := fst (handle_event box (MENU_KEYDOWN K_ANOTHER [97%N])) in
  box_text typed = box_text box ++ [97%N] /\
  fst (handle_event typed (MENU_KEYDOWN K_BACKSPACE [])) = box /\
  (box_text box = [] ->
     fst (handle_event box (MENU_KEYDOWN K_BACKSPACE [])) = box) /\
  handle_event box (MENU_KEYDOWN K_RETURN []) = (box, true) /\
  (K_BACKSPACE <> K_RETURN -> snd (handle_event box (MENU_KEYDOWN K_BACKSPACE [])) = false) /\
  handle_event (Box (box_rect box) (box_text box) false) (MENU_KEYDOWN K_BACKSPACE []) =
    (Box (box_rect box) (box_text box) false, false).
Proof.
  apply (handle_event_edits (Box input_rect ann true) 97%N K_BACKSPACE []). reflexivity.
Defined.

(** ** [str.strip] *)

Lemma lstrip_fix s : (forall c, head s = Some c -> isspace c = false) -> lstrip s = s.
Proof. destruct s as [|c s]; simpl; [done|]. intros Hc. rewrite Hc; done. Qed.

Lemma lstrip_head s c : head (lstrip s) = Some c -> isspace c = false.
Proof.
  induction s as [|a s IH]; simpl; [done|].
  destruct (isspace a) eqn:Ha; [done|]. simpl. congruence.
Qed.

Lemma last_lstrip s : lstrip s <> [] -> last (lstrip s) = last s.
Proof.
  induction s as [|a s IH]; simpl; [done|].
  destruct (isspace a); [|done]. intros Hne. rewrite IH by done.
  destruct s; [done|reflexivity].
Qed.

Lemma strip_ends s :
  (forall c, head (strip s) = Some c -> isspace c = false) /\
  (forall c, last (strip s) = Some c -> isspace c = false).
Proof.
  unfold strip. split; intros c.
  - rewrite head_reverse. intros Hc.
    assert (Hne : lstrip (reverse (lstrip s)) <> []) by (intros E; rewrite E in Hc; done).
    rewrite last_lstrip, last_reverse in Hc by done.
    apply (lstrip_head s). done.
  - rewrite last_reverse. apply lstrip_head.
Qed.

Lemma strip_idem s : strip (strip s) = strip s.
Proof.
  destruct (strip_ends s) as [Hh Hl].
  unfold strip at 1. rewrite (lstrip_fix (strip s)) by done.
  rewrite lstrip_fix; [apply reverse_involutive|].
  intros c. rewrite head_reverse. apply Hl.
Qed.

(** ** [main.py]: the dispatch *)

Section Dispatch.
Context `{Libm float}.
Variable env : surroundings.

(** Every menu that the step goes on with has its name. *)
Let stays (s : step) : Prop :=
  forall m', s = Goes m' \/ s = Fails m' -> named m'.

Lemma stays_Goes m : named m -> stays (Goes m).
Proof. intros Hm m' [[= <-]|?]; done. Qed.

Lemma stays_bind s k :
  stays s -> (forall m, named m -> stays (k m)) -> stays (step_bind s k).
Proof.
  intros Hs Hk m' Hm'. destruct s as [m| |m|]; simpl in Hm'.
  - apply (Hk m); [apply Hs; auto|done].
  - destruct Hm'; done.
  - apply Hs. done.
  - destruct Hm'; done.
Qed.

Lemma stays_play difficulty label m : named m -> stays (play env difficulty label m).
Proof.
  intros Hm m'. unfold play.
  destruct (run_game _ _) as [t| |]; intros [Hp|Hp]; simplify_eq; done.
Qed.

Lemma stays_if (b : bool) s1 s2 : stays s1 -> stays s2 -> stays (if b then s1 else s2).
Proof. destruct b; done. Qed.

Lemma named_if (b : bool) m1 m2 : named m1 -> named m2 -> named (if b then m1 else m2).
Proof. destruct b; done. Qed.

Lemma named_away screen name data box d : screen <> DIFFICULTY -> named (Menu screen name data box d).
Proof. intros Hs Hd. done. Qed.

Lemma stays_main e m :
  named m ->
  stays (let '(box, entered) := handle_event (input_box m) e in
         let m := Menu MAIN (if entered then box_text box else player_name m)
                       (statistics_data m) box (store m) in
         let m :=
           if is_clicked play_button e then
             match strip (box_text (input_box m)) with
             | [] => m
             | name => Menu DIFFICULTY name (statistics_data m) (input_box m) (store m)
             end
           else m in
         let m :=
           if is_clicked stats_button e
           then Menu STATISTICS (player_name m) (Some (get_sorted_statistics (store m)))
                     (input_box m) (store m)
           else m in
         let m := if is_clicked clear_button e then go_to CLEAR_CONFIRM m else m in
         if is_clicked exit_button e then Exits else Goes m).
Proof.
  intros Hm. destruct (handle_event (input_box m) e) as [box entered]. cbv zeta.
  cbn [input_box player_name statistics_data store current_screen].
  apply stays_if; [intros m' [?|?]; done|]. apply stays_Goes.
  apply named_if; [apply named_away; done|].
  apply named_if; [apply named_away; done|].
  apply named_if; [|apply named_away; done].
  pose proof (strip_idem (box_text box)) as Hs.
  destruct (strip (box_text box)) as [|c name]; [apply named_away; done|].
  intros _. split; done.
Qed.

Lemma stays_difficulty e m :
  named m ->
  stays (let m := if is_clicked back_button e then go_to MAIN m else m in
         step_bind (if is_clicked easy_button e then play env "easy" EASY_LABEL m else Goes m)
           (fun m =>
         step_bind (if is_clicked medium_button e
                    then play env "medium" MEDIUM_LABEL m else Goes m)
           (fun m =>
         if is_clicked hard_button e then play env "hard" HARD_LABEL m else Goes m))).
Proof.
  intros Hm. cbv zeta.
  assert (Hback : named (if is_clicked back_button e then go_to MAIN m else m))
    by (apply named_if; [apply named_away; done|done]).
  apply stays_bind; [apply stays_if; [apply stays_play|apply stays_Goes]; done|].
  intros m1 Hm1.
  apply stays_bind; [apply stays_if; [apply stays_play|apply stays_Goes]; done|].
  intros m2 Hm2.
  apply stays_if; [apply stays_play|apply stays_Goes]; done.
Qed.

Lemma stays_clear e m :
  current_screen m = CLEAR_CONFIRM ->
  stays (let m := if is_clicked back_button e then go_to MAIN m else m in
         let m :=
           if is_clicked confirm_button e then
             let '(cleared, d) := clear_statistics (store m) in
             Menu MAIN (player_name m)
                  (if cleared then Some [] else statistics_data m) (input_box m) d
           else m in
         Goes (if is_clicked cancel_button e then go_to MAIN m else m)).
Proof.
  intros Hscreen. cbv zeta. apply stays_Goes.
  assert (Hm : named m) by (intros Hd; rewrite Hd in Hscreen; done).
  apply named_if; [apply named_away; done|].
  apply named_if.
  - destruct (clear_statistics _) as [cleared d]. apply named_away. done.
  - apply named_if; [apply named_away; done|done].
Qed.

Lemma stays_dispatch e m : named m -> stays (dispatch env e m).
Proof.
  intros Hm. unfold dispatch.
  destruct e as [|button pos|key unicode|]; [intros m' [?|?]; done|..];
    destruct (current_screen m) eqn:Hscreen;
    first [ apply stays_main; done
          | apply stays_difficulty; done
          | apply stays_clear; done
          | apply stays_Goes; apply named_if; [apply named_away; done|done] ].
Qed.

Lemma stays_dispatch_all events : forall m, named m -> stays (dispatch_all env events m).
Proof.
  induction events as [|e events IH]; intros m Hm; simpl.
  - apply stays_Goes. done.
  - apply stays_bind; [apply stays_dispatch; done|]. intros m1 Hm1. apply IH. done.
Qed.

End Dispatch.

(** X16.  The difficulty screen is only ever up with a player name that is
    not blank: a name that is not empty and has no white space at either
    end.  Whatever events are dispatched, a menu with that property goes on
    to a menu with that property (the menu [main] starts with has it, being
    on the main screen), so no game is launched, and no record written,
    under a blank name. *)
Theorem difficulty_screen_named (m0 : Libm float) (env : surroundings)
    (events : list menu_event) (m m' : menu) :
  named m ->
  dispatch_all env events m = Goes m' \/ dispatch_all env events m = Fails m' ->
  named m'.
Proof.
  intros Hm Hd. apply (stays_dispatch_all env events m Hm m' Hd).
Qed.

Lemma difficulty_screen_named_witness :
  named (Menu DIFFICULTY ann None (Box input_rect ann false) shelf).
Proof.
  apply (difficulty_screen_named zero_libm calm
           [MOUSEBUTTONDOWN 1 (400, 220);
            MENU_KEYDOWN K_ANOTHER [65%N]; MENU_KEYDOWN K_ANOTHER [110%N; 110%N];
            MOUSEBUTTONDOWN 1 (400, 280)]
           (first_menu shelf)).
  - intros Hscreen. discriminate Hscreen.
  - left. vm_compute. reflexivity.
Defined.

(** ** Buttons that do not overlap *)

Lemma button_inside (r : rect) pos :
  collidepoint r pos = true <->
  rect_x r <= pos.1 < rect_x r + rect_w r /\ rect_y r <= pos.2 < rect_y r + rect_h r.
Proof. unfold collidepoint. apply bool_decide_eq_true. Qed.

Lemma button_outside (r : rect) pos :
  collidepoint r pos = false <->
  ~ (rect_x r <= pos.1 < rect_x r + rect_w r /\ rect_y r <= pos.2 < rect_y r + rect_h r).
Proof. unfold collidepoint. apply bool_decide_eq_false. Qed.

Ltac misses :=
  repeat match goal with
  | H : collidepoint _ _ = true |- _ => apply button_inside in H
  end;
  cbv [input_rect play_button stats_button clear_button exit_button back_button
       easy_button medium_button hard_button confirm_button cancel_button
       rect_x rect_y rect_w rect_h] in *;
  change (800 `div` 2) with 400 in *; change (800 `div` 4) with 200 in *;
  change ((3 * 800) `div` 4) with 600 in *; lia.

(** X17.  On the difficulty screen a left click inside one of the three
    difficulty buttons launches exactly that game; when it returns, its time
    is written to the statistics under the player's name and the label of
    that difficulty exactly when the time is above zero - so neither the -1
    of an aborted game nor a time of zero is recorded - and the main screen
    comes up in either case. *)
Theorem finished_game_recorded (m0 : Libm float) (env : surroundings) (m : menu)
    (pos : Z * Z) (difficulty : string) (label : str) (button : rect)
    (completion_time : float) :
  (difficulty, label, button) ∈
    [("easy"%string, EASY_LABEL, easy_button);
     ("medium"%string, MEDIUM_LABEL, medium_button);
     ("hard"%string, HARD_LABEL, hard_button)] ->
  current_screen m = DIFFICULTY ->
  collidepoint button pos = true ->
  run_game difficulty (launch env difficulty) = Ok completion_time ->
  dispatch env (MOUSEBUTTONDOWN 1 pos) m =
    Goes (Menu MAIN (player_name m) (statistics_data m) (input_box m)
            (if PrimFloat.ltb (of_int 0) completion_time
             then snd (add_statistic (today env) (player_name m) completion_time
                                     label (store m))
             else store m)).
Proof.
  intros Hwhich Hscreen Hin Hgame. unfold dispatch. rewrite Hscreen.
  unfold is_clicked. rewrite bool_decide_true by done. cbn [andb].
  repeat (apply elem_of_cons in Hwhich as [Hwhich|Hwhich]); [..|apply elem_of_nil in Hwhich; done];
    injection Hwhich as -> -> ->.
  - rewrite Hin.
    rewrite (proj2 (button_outside back_button pos)) by misses.
    rewrite (proj2 (button_outside medium_button pos)) by misses.
    rewrite (proj2 (button_outside hard_button pos)) by misses.
    unfold play. rewrite Hgame. reflexivity.
  - rewrite Hin.
    rewrite (proj2 (button_outside back_button pos)) by misses.
    rewrite (proj2 (button_outside easy_button pos)) by misses.
    rewrite (proj2 (button_outside hard_button pos)) by misses.
    unfold play. cbn [step_bind]. rewrite Hgame. reflexivity.
  - rewrite Hin.
    rewrite (proj2 (button_outside back_button pos)) by misses.
    rewrite (proj2 (button_outside easy_button pos)) by misses.
    rewrite (proj2 (button_outside medium_button pos)) by misses.
    unfold play. cbn [step_bind]. rewrite Hgame. reflexivity.
Qed.

Lemma finished_game_recorded_witness :
  dispatch (H := zero_libm) calm (MOUSEBUTTONDOWN 1 (200, 375))
           (Menu DIFFICULTY ann None (Box input_rect ann false) shelf) =
    Goes (Menu MAIN ann None (Box input_rect ann false)
            (if PrimFloat.ltb (of_int 0) (-1)%float
             then snd (add_statistic a_date ann (-1)%float EASY_LABEL shelf)
             else shelf)).
Proof.
  apply (finished_game_recorded zero_libm calm
           (Menu DIFFICULTY ann None (Box input_rect ann false) shelf)
           (200, 375) "easy" EASY_LABEL easy_button (-1)%float).
  - left.
  - reflexivity.
  - reflexivity.
  - vm_compute. reflexivity.
Defined.

(** X18.  The statistics file changes hands only on purpose.  When the
    handling of an event goes on with another file state than it found, the
    event was a click on a difficulty button of the difficulty screen (a
    game was played), or a click on the confirm button of the confirmation
    screen, and then the file is gone unless its removal raised.  No key,
    no other click and no other screen touches the file. *)
Theorem store_changes_on_purpose (m0 : Libm float) (env : surroundings)
    (e : menu_event) (m m' : menu) :
  dispatch env e m = Goes m' ->
  store m' <> store m ->
  (current_screen m = DIFFICULTY /\
   (is_clicked easy_button e = true \/ is_clicked medium_button e = true \/
    is_clicked hard_button e = true)) \/
  (current_screen m = CLEAR_CONFIRM /\ is_clicked confirm_button e = true /\
   store m' = snd (clear_statistics (store m)) /\
   (remove_fault (store m) = false -> content (store m') = Absent)).
Proof.
  intros Hd Hne. unfold dispatch in Hd.
  destruct e as [|button pos|key unicode|]; [done|..];
    destruct (current_screen m) eqn:Hscreen.
  all: try (destruct (handle_event (input_box m) _) as [box entered]; cbv zeta in Hd;
            cbn [input_box player_name statistics_data store current_screen] in Hd;
            repeat match type of Hd with
            | context [is_clicked ?b ?e] => destruct (is_clicked b e)
            | context [strip ?s] => destruct (strip s)
            end; simplify_eq; done).
  all: try (destruct (is_clicked back_button _); simplify_eq; done).
  all: try (left; split; [done|];
            destruct (is_clicked easy_button _); [auto|];
            destruct (is_clicked medium_button _); [auto|];
            destruct (is_clicked hard_button _); [auto|];
            exfalso; cbn [step_bind] in Hd;
            destruct (is_clicked back_button _); simplify_eq; done).
  all: right; cbv zeta in Hd;
       destruct (is_clicked confirm_button _) eqn:Hconfirm;
       [|exfalso; destruct (is_clicked back_button _), (is_clicked cancel_button _);
         simplify_eq; done].
  all: assert (Hsame : store (if is_clicked back_button (MOUSEBUTTONDOWN button pos)
                              then go_to MAIN m else m) = store m)
         by (destruct (is_clicked back_button _); reflexivity);
       rewrite Hsame in Hd;
       assert (Hstore : store m' = snd (clear_statistics (store m)))
         by (destruct (clear_statistics (store m)) as [cleared d];
             destruct (is_clicked cancel_button _); simplify_eq; reflexivity);
       split_and!; [done..|];
       intros Hfault; rewrite Hstore; unfold clear_statistics;
       destruct (content (store m)) eqn:Hc; rewrite ?Hfault; simpl; done.
Qed.

Lemma store_changes_on_purpose_witness :
  (CLEAR_CONFIRM = DIFFICULTY /\
   (is_clicked easy_button (MOUSEBUTTONDOWN 1 (200, 375)) = true \/
    is_clicked medium_button (MOUSEBUTTONDOWN 1 (200, 375)) = true \/
    is_clicked hard_button (MOUSEBUTTONDOWN 1 (200, 375)) = true)) \/
  (CLEAR_CONFIRM = CLEAR_CONFIRM /\
   is_clicked confirm_button (MOUSEBUTTONDOWN 1 (200, 375)) = true /\
   with_content shelf Absent = snd (clear_statistics shelf) /\
   (remove_fault shelf = false -> content (with_content shelf Absent) = Absent)).
Proof.
  apply (store_changes_on_purpose zero_libm calm (MOUSEBUTTONDOWN 1 (200, 375))
           (Menu CLEAR_CONFIRM ann None (Box input_rect ann false) shelf)
           (Menu MAIN ann (Some []) (Box input_rect ann false) (with_content shelf Absent))).
  - reflexivity.
  - discriminate.
Defined.

(** ** Rays in an enclosed grid, in exact arithmetic *)

Section Enclosed.
Local Open Scope R_scope.
Variables (cfg : config R) (maze : grid) (px py angle : R).

Hypothesis Hsquare : square (map_size cfg) maze.
Hypothesis Hring : forall x y,
  inb (map_size cfg) x y -> on_border (map_size cfg) x y -> is_wall maze x y.

Let rc : R := fmul (cos angle) RAY_STEP_SIZE.
Let rs : R := fmul (sin angle) RAY_STEP_SIZE.










End Enclosed.



